(** * cwltoil: scheduling a CWL workflow as a Toil job graph

    A shallow embedding of [src/toil/cwl/cwltoil.py]: the resolution of
    indirect job objects ([resolve_indirect]), the construction of jobs
    ([makeJob], [CWLJob], [CWLJobWrapper]), scatter and gather
    ([CWLScatter], [CWLGather]) and the scheduling loop of
    [CWLWorkflow.run], and the helpers that move files between the job
    store and the local disk ([toilGetFile], [writeFile], [uploadFile]).

    Python values are an inductive type, Python dicts that are iterated
    are association lists in insertion order, the two dicts of the
    scheduler ([promises], [jobs]) are finite maps, exceptions are a sum
    type with its monad, and the job graph that the [run] methods extend
    through [addChild] and [addFollowOn] is a store of nodes passed from
    one construction to the next.  What cwltool, the job store and the
    operating system provide is a parameter of the development. *)

From stdpp Require Import base list strings gmap.
From Stdlib Require Import Ascii ZArith QArith.
Close Scope Q_scope.
Set Warnings "-clear-no-such-hyp".
Local Open Scope string_scope.
Local Open Scope list_scope.

(** ** Python values and exceptions *)

Module Py.

(** JSON-like values that flow through job objects. *)
#[warnings="-register-all"]
Inductive value : Type :=
| VNone
| VBool (b : bool)
| VInt (n : Z)
| VStr (s : string)
| VList (l : list value)
| VDict (d : list (string * value)).

(** The exceptions the modelled code can raise. *)
Inductive error : Type :=
| KeyError
| IndexError
| TypeError
| AttributeError
| ValidationException (msg : string)
| WorkflowException.

Inductive result (A : Type) : Type :=
| Ok (a : A)
| Raise (e : error).
Arguments Ok {A} a.
Arguments Raise {A} e.

#[export] Instance result_ret : MRet result := fun A a => Ok a.
#[export] Instance result_fmap : FMap result := fun A B f m =>
  match m with
  | Ok a => Ok (f a)
  | Raise e => Raise e
  end.
#[export] Instance result_bind : MBind result := fun A B f m =>
  match m with
  | Ok a => f a
  | Raise e => Raise e
  end.

(** A [for] loop whose body can raise. *)
Fixpoint foldM {A B : Type} (f : B -> A -> result B) (b : B) (l : list A)
  : result B :=
  match l with
  | [] => Ok b
  | x :: l' => b' ← f b x; foldM f b' l'
  end.

(** The computation does not end in a [ValidationException]. *)
Definition no_validation {A : Type} (r : result A) : Prop :=
  forall msg, r <> Raise (ValidationException msg).

(** *** Dicts with string keys, in insertion order *)

Section dict.
Context {A : Type}.

(** [d.get(k)] as an option. *)
Fixpoint dict_lookup (d : list (string * A)) (k : string) : option A :=
  match d with
  | [] => None
  | (k', v) :: d' => if String.eqb k' k then Some v else dict_lookup d' k
  end.

(** [d[k] = v]: an existing key keeps its position. *)
Fixpoint dict_set (d : list (string * A)) (k : string) (v : A)
  : list (string * A) :=
  match d with
  | [] => [(k, v)]
  | (k', v') :: d' =>
      if String.eqb k' k then (k, v) :: d' else (k', v') :: dict_set d' k v
  end.

(** [d[k]] *)
Definition dict_getitem (d : list (string * A)) (k : string) : result A :=
  match dict_lookup d k with
  | Some v => Ok v
  | None => Raise KeyError
  end.
End dict.

(** [h.get(k)]: only a dict has the method. *)
Definition py_get (h : value) (k : string) : result value :=
  match h with
  | VDict d => Ok (default VNone (dict_lookup d k))
  | _ => Raise AttributeError
  end.

(** [h[k]] for a string [k]. *)
Definition py_getitem (h : value) (k : string) : result value :=
  match h with
  | VDict d => dict_getitem d k
  | _ => Raise TypeError
  end.

(** [len(v)] *)
Definition py_len (v : value) : result nat :=
  match v with
  | VList l => Ok (length l)
  | VStr s => Ok (String.length s)
  | VDict d => Ok (length d)
  | _ => Raise TypeError
  end.

(** [v[i]] for a non-negative integer [i]. *)
Definition py_index (v : value) (i : nat) : result value :=
  match v with
  | VList l => match l !! i with Some x => Ok x | None => Raise IndexError end
  | VStr s =>
      match String.get i s with
      | Some c => Ok (VStr (String c EmptyString))
      | None => Raise IndexError
      end
  | VDict _ => Raise KeyError
  | _ => Raise TypeError
  end.

(** [sub in s] for strings. *)
Fixpoint contains (sub s : string) : bool :=
  String.prefix sub s ||
  match s with
  | EmptyString => false
  | String _ s' => contains sub s'
  end.

End Py.
Import Py.

(** What a value adds to a flattened merge: [r.extend(v)] for a list,
    [r.append(v)] for anything else. *)
Definition spread (v : value) : list value :=
  match v with
  | VList l => l
  | _ => [v]
  end.

(** ** What cwltool provides *)

(** [cwltool.process.shortname] and [cwltool.expression.do_eval] (called
    as [do_eval expr inputs req None None {} context]) belong to cwltool:
    the development is parametric in them.  [do_eval] returns a value or
    raises [WorkflowException], which is [None] here. *)
Class Cwltool : Type := {
  shortname : string -> string;
  do_eval : value -> list (string * value) -> value -> value -> option value
}.

Definition expression_do_eval `{Cwltool} (expr : value)
    (inputs : list (string * value)) (req ctx : value) : result value :=
  match do_eval expr inputs req ctx with
  | Some v => Ok v
  | None => Raise WorkflowException
  end.

(** ** Indirect job objects and their resolution *)

(** The values of an [IndirectDict], as [CWLWorkflow.run] builds them: a
    tuple [(key, promise)], a [MergeInputs] object or a [StepValueFrom]
    around one of them.  [H] is what stands for the promise: a handle
    while the graph is built, the producer's return value once the job
    that holds the object runs. *)
Inductive entry (H : Type) : Type :=
| Tagged (key : string) (handle : H)
| MergeInputsNested (sources : list (string * H))
| MergeInputsFlattened (sources : list (string * H))
| StepValueFrom (expr : value) (inner : entry H) (req : value).
Arguments Tagged {H} key handle.
Arguments MergeInputsNested {H} sources.
Arguments MergeInputsFlattened {H} sources.
Arguments StepValueFrom {H} expr inner req.

(** A job object is an [IndirectDict] of such entries or a plain dict of
    values (the job order given on the command line, the per-element
    inputs a scatter builds, the output of a tool). *)
Inductive jobobj (H : Type) : Type :=
| IndirectDict (items : list (string * entry H))
| PlainDict (items : list (string * value)).
Arguments IndirectDict {H} items.
Arguments PlainDict {H} items.

Section resolve.
Context `{Cwltool}.

(** [MergeInputsNested.resolve] *)
Definition MergeInputsNested_resolve (sources : list (string * value))
  : result value :=
  VList <$> mapM (fun v => py_getitem v.2 v.1) sources.

(** [MergeInputsFlattened.resolve] *)
Definition MergeInputsFlattened_resolve (sources : list (string * value))
  : result value :=
  VList <$> foldM (fun r v =>
              x ← py_getitem v.2 v.1;
              match x with
              | VList l => Ok (r ++ l)
              | _ => Ok (r ++ [x])
              end) [] sources.

(** The body of the loop of [_resolve_indirect_inner]: a [MergeInputs]
    resolves itself, anything else is taken for a tuple, which a
    [StepValueFrom] is not. *)
Definition resolve_entry (v : entry value) : result value :=
  match v with
  | MergeInputsNested sources => MergeInputsNested_resolve sources
  | MergeInputsFlattened sources => MergeInputsFlattened_resolve sources
  | Tagged key handle => py_get handle key
  | StepValueFrom _ _ _ => Raise TypeError
  end.

(** [_resolve_indirect_inner] *)
Definition _resolve_indirect_inner (d : jobobj value)
  : result (list (string * value)) :=
  match d with
  | IndirectDict items =>
      foldM (fun r kv => x ← resolve_entry kv.2; Ok (dict_set r kv.1 x))
        [] items
  | PlainDict items => Ok items
  end.

Definition StepValueFrom_do_eval (expr req : value)
    (inputs : list (string * value)) (ctx : value) : result value :=
  expression_do_eval expr inputs req ctx.

Definition is_StepValueFrom {H} (v : entry H) : bool :=
  match v with StepValueFrom _ _ _ => true | _ => false end.

(** [resolve_indirect].  No value of a plain dict is a [StepValueFrom]:
    for it the first loop copies the dict and leaves [needEval] false. *)
Definition resolve_indirect (d : jobobj value)
  : result (list (string * value)) :=
  match d with
  | PlainDict items =>
      let inner := foldl (fun inner kv => dict_set inner kv.1 kv.2) [] items in
      _resolve_indirect_inner (PlainDict inner)
  | IndirectDict items =>
      let inner :=
        foldl (fun inner kv =>
                 match kv.2 with
                 | StepValueFrom _ i _ => dict_set inner kv.1 i
                 | v => dict_set inner kv.1 v
                 end) [] items in
      let needEval := existsb (fun kv => is_StepValueFrom kv.2) items in
      res ← _resolve_indirect_inner (IndirectDict inner);
      if needEval then
        foldM (fun ev kv =>
                 x ← dict_getitem res kv.1;
                 match kv.2 with
                 | StepValueFrom expr _ req =>
                     y ← StepValueFrom_do_eval expr req res x;
                     Ok (dict_set ev kv.1 y)
                 | _ => Ok (dict_set ev kv.1 x)
                 end) [] items
      else Ok res
  end.
End resolve.

(** ** The documents: tools, steps, workflows *)

(** [inp["source"]] is a string or a list of strings. *)
Inductive source : Type :=
| SrcStr (s : string)
| SrcList (l : list string).

(** [cwltool.utils.aslist] *)
Definition aslist (s : source) : list string :=
  match s with
  | SrcStr s => [s]
  | SrcList l => l
  end.

(** An element of [tool["inputs"]]; an absent key is [None]. *)
Record InputPort : Type := {
  inp_id : string;
  inp_source : option source;
  inp_linkMerge : option string;
  inp_default : option value;
  inp_valueFrom : option value
}.

(** An element of a workflow's [tool["outputs"]]. *)
Record OutputPort : Type := {
  out_id : string;
  out_source : option string;
  out_outputSource : option string
}.

(** An element of a step's [tool["out"]]: a dict with an [id], or a string. *)
Inductive OutDecl : Type :=
| OutDict (id : string)
| OutStr (s : string).

(** [cwltool.builder.Builder] with the fields the code sets: all but
    [job] are constants ([requirements = []], [outdir = None],
    [tmpdir = None], [timeout = 0], [resources = {}]). *)
Record Builder : Type := { builder_job : list (string * value) }.

(** What [tool.evalResources(builder, {})] returns. *)
Record Resources : Type := {
  res_cores : Z;
  res_ram : Z;
  res_tmpdirSize : Z;
  res_outdirSize : Z
}.

(** A cwltool process object and a workflow step.  [evalResources] and
    [get_requirement("ResourceRequirement")] are methods of the object:
    they are fields here. *)
#[warnings="-register-all"]
Inductive Tool : Type := MkTool {
  tool_class : string;
  tool_inputs : list InputPort;
  tool_outputs : list OutputPort;
  tool_requirements : value;
  get_ResourceRequirement : option (list (string * value));
  evalResources : Builder -> Resources;
  steps : list Step
}
with Step : Type := MkStep {
  step_id : string;
  step_inputs : list InputPort;
  step_outputs : list string;
  step_out : list OutDecl;
  step_scatter : option source;
  step_scatterMethod : option string;
  step_requirements : value;
  embedded_tool : Tool
}.

(** ** Jobs and the job graph *)

(** What a job object holds in place of a value that a job produces:
    the value itself ([SelfJob.rv()] is the resolved job order) or the
    promise [j.rv()] of a job of the graph. *)
Inductive handle : Type :=
| Held (v : value)
| Rv (j : nat).

(** The keyword arguments passed along to the job constructors. *)
Record kwargs : Type := {
  kw_builder : option Builder;
  kw_step_inputs : option (list InputPort);
  kw_use_container : bool;
  kw_preserve_environment : list string;
  kw_tmpdir : string
}.

Definition with_builder (b : Builder) (kw : kwargs) : kwargs :=
  {| kw_builder := Some b; kw_step_inputs := kw_step_inputs kw;
     kw_use_container := kw_use_container kw;
     kw_preserve_environment := kw_preserve_environment kw;
     kw_tmpdir := kw_tmpdir kw |}.

Definition with_step_inputs (i : list InputPort) (kw : kwargs) : kwargs :=
  {| kw_builder := kw_builder kw; kw_step_inputs := Some i;
     kw_use_container := kw_use_container kw;
     kw_preserve_environment := kw_preserve_environment kw;
     kw_tmpdir := kw_tmpdir kw |}.

(** [del self.executor_options["step_inputs"]] *)
Definition without_step_inputs (kw : kwargs) : kwargs :=
  {| kw_builder := kw_builder kw; kw_step_inputs := None;
     kw_use_container := kw_use_container kw;
     kw_preserve_environment := kw_preserve_environment kw;
     kw_tmpdir := kw_tmpdir kw |}.

(** The job classes with the attributes their constructors store. *)
Inductive JobBody : Type :=
| CWLJob (cwltool : Tool) (cwljob : jobobj handle)
    (step_inputs : list InputPort) (executor_options : kwargs)
| CWLJobWrapper (cwltool : Tool) (cwljob : jobobj handle) (kw : kwargs)
| CWLWorkflow (cwlwf : Tool) (cwljob : jobobj handle)
    (executor_options : kwargs)
| ResolveIndirect (cwljob : handle)
| CWLScatter (step : Step) (cwljob : jobobj handle)
    (executor_options : kwargs)
| CWLGather (step : Step) (outputs : handle).

(** A node of the graph: the job, the resources given to [Job.__init__]
    ([None] when the constructor passes none) and the edges added by
    [addChild] and [addFollowOn]. *)
Record JobNode : Type := {
  body : JobBody;
  cores : option Q;
  memory : option Z;
  disk : option Z;
  children : list nat;
  followOns : list nat
}.

(** [Job.__init__()] with no resources *)
Definition plain_job (b : JobBody) : JobNode :=
  {| body := b; cores := None; memory := None; disk := None;
     children := []; followOns := [] |}.

(** The graph is a store of nodes; a job is its index. *)
Definition new_job (n : JobNode) (h : list JobNode) : nat * list JobNode :=
  (length h, h ++ [n]).

Definition addChild (p c : nat) (h : list JobNode) : list JobNode :=
  alter (fun n => {| body := body n; cores := cores n; memory := memory n;
                     disk := disk n; children := children n ++ [c];
                     followOns := followOns n |}) p h.

Definition addFollowOn (p c : nat) (h : list JobNode) : list JobNode :=
  alter (fun n => {| body := body n; cores := cores n; memory := memory n;
                     disk := disk n; children := children n;
                     followOns := followOns n ++ [c] |}) p h.

Definition hasChild (p c : nat) (h : list JobNode) : bool :=
  match h !! p with
  | Some n => bool_decide (c ∈ children n)
  | None => false
  end.

(** The attribute [cwljob] of a job, the children of a job, and the job
    objects its children hold, in the order they were added. *)
Definition cwljob_of (b : JobBody) : option (jobobj handle) :=
  match b with
  | CWLJob _ c _ _ | CWLJobWrapper _ c _ | CWLWorkflow _ c _
  | CWLScatter _ c _ => Some c
  | ResolveIndirect _ | CWLGather _ _ => None
  end.

Definition children_of (p : nat) (h : list JobNode) : list nat :=
  match h !! p with
  | Some n => children n
  | None => []
  end.

Definition input_at (h : list JobNode) (c : nat) : option (jobobj handle) :=
  n ← h !! c; cwljob_of (body n).

Definition child_inputs (p : nat) (h : list JobNode)
  : list (option (jobobj handle)) :=
  input_at h <$> children_of p h.

(** The job [p] is a node of the graph, and so are its children. *)
Definition in_graph (p : nat) (h : list JobNode) : Prop :=
  p < length h /\ Forall (fun c => c < length h) (children_of p h).

(** ** Job construction *)

Definition default_builder : Builder := {| builder_job := [] |}.

(** [CWLJob.__init__] *)
Definition CWLJob_init (tool : Tool) (cwljob : jobobj handle) (kw : kwargs)
  : JobNode :=
  let builder := default default_builder (kw_builder kw) in
  let req := evalResources tool builder in
  {| body := CWLJob tool cwljob
               (default (tool_inputs tool) (kw_step_inputs kw)) kw;
     cores := Some (inject_Z (res_cores req));
     memory := Some (res_ram req * 1024 * 1024)%Z;
     disk := Some (res_tmpdirSize req * 1024 * 1024
                   + res_outdirSize req * 1024 * 1024)%Z;
     children := []; followOns := [] |}.

(** [CWLJobWrapper.__init__] *)
Definition CWLJobWrapper_init (tool : Tool) (cwljob : jobobj handle)
    (kw : kwargs) : JobNode :=
  {| body := CWLJobWrapper tool cwljob kw;
     cores := Some (1 # 10)%Q;
     memory := Some (1024 * 1024)%Z;
     disk := Some 1%Z;
     children := []; followOns := [] |}.

(** [CWLWorkflow.__init__] *)
Definition CWLWorkflow_init (cwlwf : Tool) (cwljob : jobobj handle)
    (kw : kwargs) : JobNode :=
  plain_job (CWLWorkflow cwlwf cwljob (without_step_inputs kw)).

Definition resource_fields : list string :=
  ["coresMin"; "coresMax"; "ramMin"; "ramMax";
   "tmpdirMin"; "tmpdirMax"; "outdirMin"; "outdirMax"].

(** [isinstance(r, string_types) and ("$(" in r or "${" in r)] *)
Definition is_dynamic (r : option value) : bool :=
  match r with
  | Some (VStr s) => contains "$(" s || contains "${" s
  | _ => false
  end.


(** The number of jobs [makeJob] constructs. *)
Definition njobs (tool : Tool) : nat :=
  if String.eqb (tool_class tool) "Workflow" then 2 else 1.

(** The test of [makeJob] for a dynamic resource requirement. *)
Definition dynamic_resources (tool : Tool) : bool :=
  match get_ResourceRequirement tool with
  | Some ((_ :: _) as resourceReq) =>
      existsb (fun req => is_dynamic (dict_lookup resourceReq req))
        resource_fields
  | _ => false
  end.

(** [makeJob]: the pair [(job, followOn)] and the extended graph. *)
Definition makeJob (tool : Tool) (jobobj : jobobj handle) (kw : kwargs)
    (h : list JobNode) : nat * nat * list JobNode :=
  if String.eqb (tool_class tool) "Workflow" then
    let '(wfjob, h1) := new_job (CWLWorkflow_init tool jobobj kw) h in
    let '(followOn, h2) := new_job (plain_job (ResolveIndirect (Rv wfjob))) h1 in
    (wfjob, followOn, addFollowOn wfjob followOn h2)
  else if dynamic_resources tool then
    let '(job, h1) := new_job (CWLJobWrapper_init tool jobobj kw) h in
    (job, job, h1)
  else
    let '(job, h1) := new_job (CWLJob_init tool jobobj kw) h in
    (job, job, h1).

(** Toil replaces the promises a job holds by the return values of the
    jobs they point to before the job runs. *)
Fixpoint entry_map {H H' : Type} (f : H -> H') (e : entry H) : entry H' :=
  match e with
  | Tagged k x => Tagged k (f x)
  | MergeInputsNested l => MergeInputsNested (prod_map id f <$> l)
  | MergeInputsFlattened l => MergeInputsFlattened (prod_map id f <$> l)
  | StepValueFrom e i r => StepValueFrom e (entry_map f i) r
  end.

Definition jobobj_map {H H' : Type} (f : H -> H') (d : jobobj H) : jobobj H' :=
  match d with
  | IndirectDict items => IndirectDict (prod_map id (entry_map f) <$> items)
  | PlainDict items => PlainDict items
  end.

Definition fulfil (rets : nat -> value) (x : handle) : value :=
  match x with
  | Held v => v
  | Rv j => rets j
  end.

Section run.
Context `{Cwltool}.

(** [CWLJobWrapper.run]: [self] is the running wrapper, [cwljob] its job
    object with the promises fulfilled; the result is the return value
    [realjob.rv()] and the extended graph.  With a [builder] among the
    keyword arguments the call of [CWLJob] gets the keyword twice. *)
Definition CWLJobWrapper_run (self : nat) (tool : Tool)
    (cwljob : jobobj value) (kw : kwargs) (h : list JobNode)
  : result (handle * list JobNode) :=
  resolved ← resolve_indirect cwljob;
  match kw_builder kw with
  | Some _ => Raise TypeError
  | None =>
      let builder := {| builder_job := resolved |} in
      let '(realjob, h1) :=
        new_job (CWLJob_init tool (jobobj_map Held cwljob)
                   (with_builder builder kw)) h in
      Ok (Rv realjob, addChild self realjob h1)
  end.
End run.

(** ** Scatter and gather *)

(** What [CWLScatter.run] returns: the promises [followOn.rv()] of the
    jobs it made, in nested lists. *)
#[warnings="-register-all"]
Inductive outputs : Type :=
| ORv (j : nat)
| OList (l : list outputs).

(** The return value a gather job receives for it. *)
Fixpoint outputs_fulfil (rets : nat -> value) (o : outputs) : value :=
  match o with
  | ORv j => rets j
  | OList l => VList (map (outputs_fulfil rets) l)
  end.

(** The keys a step scatters over. *)
Definition scatter_keys (step : Step) : list string :=
  match step_scatter step with
  | Some s => aslist s
  | None => []
  end.

Section scatter.
Context `{Cwltool}.

(** The dict [valueFrom] of [CWLScatter.run]. *)
Definition valueFrom_of (step : Step) : list (string * value) :=
  foldl (fun d i =>
           match inp_valueFrom i with
           | Some e => dict_set d (shortname (inp_id i)) e
           | None => d
           end) [] (step_inputs step).

(** The closure [postScatterEval] of [CWLScatter.run]. *)
Definition postScatterEval (step : Step) (io : list (string * value))
  : result (list (string * value)) :=
  let valueFrom := valueFrom_of step in
  let shortio := foldl (fun d kv => dict_set d (shortname kv.1) kv.2) [] io in
  foldM (fun r kv =>
           x ← match dict_lookup valueFrom kv.1 with
               | Some e =>
                   expression_do_eval e shortio (step_requirements step)
                     kv.2
               | None => Ok kv.2
               end;
           Ok (dict_set r kv.1 x)) [] io.

(** The four lines the three scatter methods share: evaluate, make the
    job, add it as a child, append its promise. *)
Definition scatter_child (self : nat) (step : Step) (kw : kwargs)
    (jo : list (string * value)) (acc : list outputs * list JobNode)
  : result (list outputs * list JobNode) :=
  jo' ← postScatterEval step jo;
  let '(subjob, followOn, h1) :=
    makeJob (embedded_tool step) (PlainDict jo') kw acc.2 in
  Ok (acc.1 ++ [ORv followOn], addChild self subjob h1).

(** [CWLScatter.flat_crossproduct_scatter] *)
Fixpoint flat_crossproduct_scatter (self : nat) (step : Step) (kw : kwargs)
    (joborder : list (string * value)) (scatter_keys : list string)
    (acc : list outputs * list JobNode)
  : result (list outputs * list JobNode) :=
  match scatter_keys with
  | [] => Raise IndexError
  | k :: rest =>
      let scatter_key := shortname k in
      v ← dict_getitem joborder scatter_key;
      l ← py_len v;
      foldM (fun acc n =>
               x ← py_index v n;
               let jo := dict_set joborder scatter_key x in
               match rest with
               | [] => scatter_child self step kw jo acc
               | _ :: _ => flat_crossproduct_scatter self step kw jo rest acc
               end) acc (seq 0 l)
  end.

(** [CWLScatter.nested_crossproduct_scatter] *)
Fixpoint nested_crossproduct_scatter (self : nat) (step : Step)
    (kw : kwargs) (joborder : list (string * value))
    (scatter_keys : list string) (h : list JobNode)
  : result (list outputs * list JobNode) :=
  match scatter_keys with
  | [] => Raise IndexError
  | k :: rest =>
      let scatter_key := shortname k in
      v ← dict_getitem joborder scatter_key;
      l ← py_len v;
      foldM (fun acc n =>
               x ← py_index v n;
               let jo := dict_set joborder scatter_key x in
               match rest with
               | [] => scatter_child self step kw jo acc
               | _ :: _ =>
                   '(sub, h1) ← nested_crossproduct_scatter self step kw
                                  jo rest acc.2;
                   Ok (acc.1 ++ [OList sub], h1)
               end) ([], h) (seq 0 l)
  end.

(** The [dotproduct] branch of [CWLScatter.run]. *)
Definition dotproduct_scatter (self : nat) (step : Step) (kw : kwargs)
    (cwljob : list (string * value)) (scatter : list string)
    (h : list JobNode) : result (list outputs * list JobNode) :=
  k0 ← match scatter with k0 :: _ => Ok k0 | [] => Raise IndexError end;
  v0 ← dict_getitem cwljob (shortname k0);
  l ← py_len v0;
  foldM (fun acc i =>
           copyjob ← foldM (fun copyjob sc =>
                              v ← dict_getitem cwljob sc;
                              x ← py_index v i;
                              Ok (dict_set copyjob sc x))
                       cwljob (shortname <$> scatter);
           scatter_child self step kw copyjob acc) ([], h) (seq 0 l).

(** [CWLScatter.run]: [self] is the running scatter job, [cwljob] its
    job object with the promises fulfilled. *)
Definition CWLScatter_run (self : nat) (step : Step)
    (cwljob : jobobj value) (kw : kwargs) (h : list JobNode)
  : result (outputs * list JobNode) :=
  cwljob ← resolve_indirect cwljob;
  scatter ← match step_scatter step with
            | Some s => Ok (aslist s)
            | None => Raise KeyError
            end;
  let scatterMethod :=
    if Nat.eqb (length scatter) 1 then Some "dotproduct"
    else step_scatterMethod step in
  '(outs, h') ←
    match scatterMethod with
    | Some m =>
        if String.eqb m "dotproduct" then
          dotproduct_scatter self step kw cwljob scatter h
        else if String.eqb m "nested_crossproduct" then
          nested_crossproduct_scatter self step kw cwljob scatter h
        else if String.eqb m "flat_crossproduct" then
          flat_crossproduct_scatter self step kw cwljob scatter ([], h)
        else if String.eqb m EmptyString then
          Raise (ValidationException
                   "Must provide scatterMethod to scatter over multiple inputs")
        else
          Raise (ValidationException
                   ("Unsupported complex scatter type '" +:+ m +:+ "'"))
    | None =>
        Raise (ValidationException
                 "Must provide scatterMethod to scatter over multiple inputs")
    end;
  Ok (OList outs, h').

(** [CWLGather.extract] *)
Fixpoint extract (obj : value) (k : string) : value :=
  match obj with
  | VDict d => default VNone (dict_lookup d k)
  | VList l => VList (map (fun x => extract x k) l)
  | _ => VList []
  end.

(** The local function [sn] of [CWLGather.run]. *)
Definition sn (n : OutDecl) : string :=
  match n with
  | OutDict id => shortname id
  | OutStr s => shortname s
  end.

(** [CWLGather.run] with the results of the scatter in [outputs]. *)
Definition CWLGather_run (step : Step) (outputs : value)
  : list (string * value) :=
  foldl (fun outobj k => dict_set outobj k (extract outputs k)) []
    (sn <$> step_out step).
End scatter.

(** ** The scheduling loop of [CWLWorkflow.run] *)

(** A value of the dict [promises]: a job, with what its [rv()] returns.
    [SelfJob(self, cwljob)] is the workflow job with the resolved job
    order, any other entry a job [j] of the graph with its promise. *)
Record producer : Type := { p_job : nat; p_rv : handle }.

Definition SelfJob (j : nat) (v : list (string * value)) : producer :=
  {| p_job := j; p_rv := Held (VDict v) |}.

Definition job_producer (j : nat) : producer :=
  {| p_job := j; p_rv := Rv j |}.

(** The two dicts of the loop. *)
Record sched : Type := {
  promises : gmap string producer;
  jobs : gmap string nat
}.

(** [aslist(inp.get("source", []))] *)
Definition sources_of (inp : InputPort) : list string :=
  match inp_source inp with
  | Some s => aslist s
  | None => []
  end.

(** No source of an input of the step is missing from [promises]: the
    test that sets [stepinputs_fufilled], and the one that clears
    [alloutputs_fufilled] after the step. *)
Definition sources_promised (pr : gmap string producer) (step : Step) : bool :=
  forallb (fun inp =>
             forallb (fun s => bool_decide (is_Some (pr !! s)))
               (sources_of inp))
    (step_inputs step).

(** The test on the workflow outputs at the end of a pass. *)
Definition outputs_promised (pr : gmap string producer)
    (outs : list OutputPort) : bool :=
  forallb (fun out =>
             match out_source out with
             | Some s => bool_decide (is_Some (pr !! s))
             | None => true
             end) outs.

(** The truth value of [inp.get("linkMerge")]. *)
Definition truthy (o : option string) : bool :=
  match o with
  | Some s => negb (String.eqb s EmptyString)
  | None => false
  end.

(** [promises[s]] *)
Definition promise_of (pr : gmap string producer) (s : string)
  : result producer :=
  match pr !! s with
  | Some p => Ok p
  | None => Raise KeyError
  end.

(** [for out in step.tool["outputs"]: promises[out["id"]] = followOn] *)
Definition publish (pr : gmap string producer) (followOn : nat)
    (outs : list string) : gmap string producer :=
  foldl (fun pr out => <[out := job_producer followOn]> pr) pr outs.

(** The step is not in [jobs] and all its sources are promised: the loop
    schedules it. *)
Definition ready (st : sched) (step : Step) : bool :=
  bool_decide (jobs st !! step_id step = None)
  && sources_promised (promises st) step.

Section workflow.
Context `{Cwltool}.

(** [[(shortname(s), promises[s].rv()) for s in aslist(inp["source"])]] *)
Definition merge_sources (pr : gmap string producer) (src : source)
  : result (list (string * handle)) :=
  mapM (fun s => p ← promise_of pr s; Ok (shortname s, p_rv p)) (aslist src).

(** The body of the loop that fills [jobobj] for a step. *)
Definition build_input (pr : gmap string producer) (scattered : bool)
    (requirements : value) (jobobj : list (string * entry handle))
    (inp : InputPort) : result (list (string * entry handle)) :=
  let key := shortname (inp_id inp) in
  jobobj ←
    match inp_source inp with
    | Some src =>
        if truthy (inp_linkMerge inp) || Nat.ltb 1 (length (aslist src)) then
          let linkMerge := default "merge_nested" (inp_linkMerge inp) in
          if String.eqb linkMerge "merge_nested" then
            l ← merge_sources pr src;
            Ok (dict_set jobobj key (MergeInputsNested l))
          else if String.eqb linkMerge "merge_flattened" then
            l ← merge_sources pr src;
            Ok (dict_set jobobj key (MergeInputsFlattened l))
          else Raise (ValidationException "Unsupported linkMerge '%s'")
        else
          match src with
          | SrcStr s =>
              p ← promise_of pr s;
              Ok (dict_set jobobj key (Tagged (shortname s) (p_rv p)))
          | SrcList _ =>
              (* [shortname] of a list *)
              Raise AttributeError
          end
    | None =>
        match inp_default inp with
        | Some d =>
            Ok (dict_set jobobj key
                  (Tagged "default" (Held (VDict [("default", d)]))))
        | None => Ok jobobj
        end
    end;
  match inp_valueFrom inp with
  | Some expr =>
      if scattered then Ok jobobj
      else
        match dict_lookup jobobj key with
        | Some inner =>
            Ok (dict_set jobobj key (StepValueFrom expr inner requirements))
        | None =>
            Ok (dict_set jobobj key
                  (StepValueFrom expr
                     (Tagged "None" (Held (VDict [("None", VNone)])))
                     requirements))
        end
  | None => Ok jobobj
  end.

(** The loop that wires the new job under the producers of its
    sources; the flag is [connected]. *)
Definition connect (pr : gmap string producer) (wfjob : nat) (step : Step)
    (h : list JobNode) : result (bool * list JobNode) :=
  foldM (fun acc s =>
           p ← promise_of pr s;
           if hasChild (p_job p) wfjob acc.2 then Ok acc
           else Ok (true, addChild (p_job p) wfjob acc.2))
    (false, h) (step_inputs step ≫= sources_of).

(** What the loop does for a step that is not in [jobs] and whose
    sources are all promised: lines 604 to 662. *)
Definition schedule_step (self : nat) (cwlwf : Tool) (kw : kwargs)
    (step : Step) (st : sched) (h : list JobNode)
  : result (sched * list JobNode) :=
  let scattered := bool_decide (is_Some (step_scatter step)) in
  jobobj ← foldM (build_input (promises st) scattered
                    (tool_requirements cwlwf)) [] (step_inputs step);
  let '(wfjob, followOn, h1) :=
    if scattered then
      let '(wfjob, h1) :=
        new_job (plain_job (CWLScatter step (IndirectDict jobobj) kw)) h in
      let '(followOn, h2) :=
        new_job (plain_job (CWLGather step (Rv wfjob))) h1 in
      (wfjob, followOn, addFollowOn wfjob followOn h2)
    else
      makeJob (embedded_tool step) (IndirectDict jobobj)
        (with_step_inputs (step_inputs step) kw) h in
  let jobs' := <[step_id step := followOn]> (jobs st) in
  '(connected, h2) ← connect (promises st) wfjob step h1;
  let h3 := if connected : bool then h2 else addChild self wfjob h2 in
  let promises' := publish (promises st) followOn (step_outputs step) in
  Ok ({| promises := promises'; jobs := jobs' |}, h3).

(** The body of [for step in self.cwlwf.steps]; the flag is
    [alloutputs_fufilled]. *)
Definition visit_step (self : nat) (cwlwf : Tool) (kw : kwargs)
    (acc : bool * sched * list JobNode) (step : Step)
  : result (bool * sched * list JobNode) :=
  let '(fufilled, st, h) := acc in
  '(st1, h1) ←
    (if ready st step then schedule_step self cwlwf kw step st h
     else Ok (st, h));
  Ok (fufilled && sources_promised (promises st1) step, st1, h1).

(** One iteration of [while not alloutputs_fufilled]. *)
Definition pass (self : nat) (cwlwf : Tool) (kw : kwargs) (st : sched)
    (h : list JobNode) : result (bool * sched * list JobNode) :=
  '(fufilled, st1, h1) ←
    foldM (visit_step self cwlwf kw) (true, st, h) (steps cwlwf);
  Ok (fufilled && outputs_promised (promises st1) (tool_outputs cwlwf),
      st1, h1).

(** The [while] loop, for at most [fuel] iterations: [None] when the
    loop is still running after them. *)
Fixpoint schedule (fuel : nat) (self : nat) (cwlwf : Tool) (kw : kwargs)
    (st : sched) (h : list JobNode)
  : option (result (sched * list JobNode)) :=
  match fuel with
  | 0 => None
  | S fuel' =>
      match pass self cwlwf kw st h with
      | Raise e => Some (Raise e)
      | Ok (true, st1, h1) => Some (Ok (st1, h1))
      | Ok (false, st1, h1) => schedule fuel' self cwlwf kw st1 h1
      end
  end.

(** The dict [promises] before the loop. *)
Definition initial_promises (self : nat) (cwlwf : Tool)
    (cwljob : list (string * value)) : gmap string producer :=
  foldl (fun pr inp => <[inp_id inp := SelfJob self cwljob]> pr) ∅
    (tool_inputs cwlwf).

(** The output object built after the loop. *)
Definition output_object (pr : gmap string producer)
    (outs : list OutputPort) : result (list (string * entry handle)) :=
  foldM (fun outobj out =>
           s ← match out_outputSource out with
               | Some s => Ok s
               | None => Raise KeyError
               end;
           p ← promise_of pr s;
           Ok (dict_set outobj (shortname (out_id out))
                 (Tagged (shortname s) (p_rv p)))) [] outs.

(** [CWLWorkflow.run]: [self] is the running workflow job, [cwljob] its
    job object with the promises fulfilled. *)
Definition CWLWorkflow_run (fuel : nat) (self : nat) (cwlwf : Tool)
    (cwljob : jobobj value) (kw : kwargs) (h : list JobNode)
  : option (result (jobobj handle * list JobNode)) :=
  match resolve_indirect cwljob with
  | Raise e => Some (Raise e)
  | Ok cwljob =>
      let st := {| promises := initial_promises self cwlwf cwljob;
                   jobs := ∅ |} in
      match schedule fuel self cwlwf kw st h with
      | None => None
      | Some (Raise e) => Some (Raise e)
      | Some (Ok (st1, h1)) =>
          Some (outobj ← output_object (promises st1) (tool_outputs cwlwf);
                Ok (IndirectDict outobj, h1))
      end
  end.
End workflow.

(** ** Well-formed workflows *)

(** The input port is one the loop can build an entry for: with a
    [linkMerge] or several sources the merge is [merge_nested] (the
    default) or [merge_flattened]; otherwise its source is a string. *)
Definition port_ok (inp : InputPort) : bool :=
  match inp_source inp with
  | Some src =>
      if truthy (inp_linkMerge inp) || Nat.ltb 1 (length (aslist src)) then
        let linkMerge := default "merge_nested" (inp_linkMerge inp) in
        String.eqb linkMerge "merge_nested"
        || String.eqb linkMerge "merge_flattened"
      else match src with SrcStr _ => true | SrcList _ => false end
  | None => true
  end.

(** An identifier is produced: it is an input of the workflow, or an
    output of a step all of whose sources are produced.  A source on a
    dependency cycle, or one that nothing outputs, is not. *)
Inductive produced (cwlwf : Tool) : string -> Prop :=
| produced_input inp :
    inp ∈ tool_inputs cwlwf -> produced cwlwf (inp_id inp)
| produced_output step out :
    step ∈ steps cwlwf ->
    out ∈ step_outputs step ->
    (forall inp s, inp ∈ step_inputs step -> s ∈ sources_of inp ->
                   produced cwlwf s) ->
    produced cwlwf out.

(** A well-formed workflow: the steps have distinct identifiers, their
    ports are as above, and every source of a step and of a workflow
    output is produced. *)
Record well_formed (cwlwf : Tool) : Prop := {
  wf_ids : NoDup (step_id <$> steps cwlwf);
  wf_ports : forall step inp,
    step ∈ steps cwlwf -> inp ∈ step_inputs step -> port_ok inp = true;
  wf_sources : forall step inp s,
    step ∈ steps cwlwf -> inp ∈ step_inputs step -> s ∈ sources_of inp ->
    produced cwlwf s;
  wf_outputs : forall out s,
    out ∈ tool_outputs cwlwf -> out_source out = Some s -> produced cwlwf s
}.

(** The number of jobs the loop constructs for a step: a scatter and its
    gather, or what [makeJob] constructs. *)
Definition jobs_for (step : Step) : nat :=
  if bool_decide (is_Some (step_scatter step)) then 2
  else njobs (embedded_tool step).

(** The number of jobs constructed for the steps registered in [jobs]. *)
Definition constructed (jobs : gmap string nat) (l : list Step) : nat :=
  sum_list ((fun step => if bool_decide (is_Some (jobs !! step_id step))
                         then jobs_for step else 0) <$> l).

(** What holds of the two dicts and of the graph between the visits of
    the loop, on a graph that had the nodes [h0] when the loop began:
    the workflow inputs are promised, so are the outputs of every
    registered step, only steps are registered, and the graph has grown
    by the jobs of the registered steps. *)
Record sched_inv (cwlwf : Tool) (h0 : list JobNode) (st : sched)
    (h : list JobNode) : Prop := {
  inv_inputs : forall inp,
    inp ∈ tool_inputs cwlwf -> inp_id inp ∈ dom (promises st);
  inv_outputs : forall step out,
    step ∈ steps cwlwf -> step_id step ∈ dom (jobs st) ->
    out ∈ step_outputs step -> out ∈ dom (promises st);
  inv_jobs : dom (jobs st) ⊆ list_to_set (step_id <$> steps cwlwf);
  inv_heap : length h = length h0 + constructed (jobs st) (steps cwlwf)
}.

(** ** Files in the job store *)

(** [s[n:]] *)
Fixpoint slice_from (n : nat) (s : string) : string :=
  match n, s with
  | S n', String _ s' => slice_from n' s'
  | _, _ => s
  end.

(** What the job store, the operating system and the URI functions of
    schema_salad and urlparse provide.  [world] is the state of the job
    store and of the local files: [fileStore.readGlobalFile] reads it
    and changes it, and can raise; [os.path.realpath] and
    [os.path.isfile] read it. *)
Class Host : Type := {
  world : Type;
  readGlobalFile : string -> world -> result (string * world);
  realpath : string -> world -> string;
  isfile : string -> world -> bool;
  file_uri : string -> string;
  url_scheme : string -> string
}.

(** The two dicts [index] and [existing] that [toilGetFile], [writeFile]
    and [uploadFile] share. *)
Record filemaps : Type := {
  index : gmap string string;
  existing : gmap string string
}.

(** A CWL [File] object, with the two keys [uploadFile] reads; an absent
    key is [None]. *)
Record FileObj : Type := {
  location : option string;
  path : option string
}.

Section files.
Context `{Host}.

(** [toilGetFile]: the URI returned, the two dicts and the world. *)
Definition toilGetFile (m : filemaps) (fileStoreID : string) (w : world)
  : result (string * filemaps * world) :=
  if negb (String.prefix "toilfs:" fileStoreID) then
    Ok (file_uri fileStoreID, m, w)
  else
    '(srcPath, w1) ← readGlobalFile (slice_from 7 fileStoreID) w;
    Ok (file_uri srcPath,
        {| index := <[srcPath := fileStoreID]> (index m);
           existing := <[fileStoreID := srcPath]> (existing m) |},
        w1).

(** [writeFile]: [writeFunc] writes to the job store and can raise; its
    exception is logged and raised again. *)
Definition writeFile
    (writeFunc : string -> world -> result (string * world))
    (m : filemaps) (x : string) (w : world)
  : result (string * filemaps * world) :=
  if String.prefix "toilfs:" x then Ok (x, m, w)
  else if String.prefix "_:" x then Ok (x, m, w)
  else
    let x := default x (existing m !! x) in
    match index m !! x with
    | Some ref => Ok (ref, m, w)
    | None =>
        let rp := if String.eqb (url_scheme x) EmptyString
                  then realpath x w else x in
        '(id, w1) ← writeFunc rp w;
        let ref := "toilfs:" +:+ id in
        Ok (ref,
            {| index := <[x := ref]> (index m);
               existing := <[ref := x]> (existing m) |},
            w1)
    end.

(** [uploadFile]: the file object as the call leaves it, the two dicts
    and the world. *)
Definition uploadFile
    (uploadfunc : string -> world -> result (string * world))
    (m : filemaps) (uf : FileObj) (skip_broken : bool) (w : world)
  : result (FileObj * filemaps * world) :=
  loc ← match location uf with Some l => Ok l | None => Raise KeyError end;
  if String.prefix "toilfs:" loc || String.prefix "_:" loc then Ok (uf, m, w)
  else
    match index m !! loc with
    | Some ref => Ok ({| location := Some ref; path := path uf |}, m, w)
    | None =>
        uf ← (if String.eqb loc EmptyString then
                p ← match path uf with
                    | Some p => Ok p
                    | None => Raise KeyError
                    end;
                if String.eqb p EmptyString then Ok uf
                else Ok {| location := Some (file_uri p); path := path uf |}
              else Ok uf);
        let loc := default EmptyString (location uf) in
        if negb (isfile (slice_from 7 loc) w) then
          if skip_broken then Ok (uf, m, w) else Raise WorkflowException
        else
          '(ref, m1, w1) ← writeFile uploadfunc m loc w;
          Ok ({| location := Some ref; path := path uf |}, m1, w1)
    end.
End files.

(** A reference into the job store, or a file literal without a path. *)
Definition is_reference (x : string) : Prop :=
  String.prefix "toilfs:" x = true \/ String.prefix "_:" x = true.

(** The two dicts hold references into the job store where the code
    puts them: as the values of [index] and as the keys of
    [existing]. *)
Definition references (m : filemaps) : Prop :=
  map_Forall (fun _ ref => String.prefix "toilfs:" ref = true) (index m)
  /\ map_Forall (fun ref _ => String.prefix "toilfs:" ref = true)
       (existing m).

(** ** More of resolution, scatter and gather *)

(** What [resolve_indirect] puts into [inner] for a value of the dict. *)
Definition inner_of {H : Type} (e : entry H) : entry H :=
  match e with
  | StepValueFrom _ i _ => i
  | _ => e
  end.

(** [ResolveIndirect.run], on the return value of the job that the
    promise [cwljob] points to. *)
Definition ResolveIndirect_run `{Cwltool} (cwljob : jobobj value)
  : result (list (string * value)) :=
  resolve_indirect cwljob.

(** [CWLGather.allkeys]: [keys] is the set the method adds to. *)
Fixpoint allkeys (obj : value) (keys : gset string) : gset string :=
  match obj with
  | VDict d => foldl (fun keys kv => {[ kv.1 ]} ∪ keys) keys d
  | VList l => foldl (fun keys x => allkeys x keys) keys l
  | _ => keys
  end.

(** The promises in an output of a scatter, from left to right. *)
Fixpoint leaves (o : outputs) : list nat :=
  match o with
  | ORv j => [j]
  | OList l => l ≫= leaves
  end.

(** The output has one level of lists for each of the lengths [dims],
    the outermost first, every list of a level with the length given
    for it, and promises below the last level. *)
Fixpoint shaped (dims : list nat) (o : outputs) : Prop :=
  match dims, o with
  | [], ORv _ => True
  | n :: dims', OList l => length l = n /\ Forall (shaped dims') l
  | _, _ => False
  end.

Definition product (dims : list nat) : nat := foldr Nat.mul 1 dims.

(** The scatter methods that [CWLScatter.run] implements. *)
Definition scatter_methods : list string :=
  ["dotproduct"; "nested_crossproduct"; "flat_crossproduct"].

(** ** The graph during scheduling *)

(** The graph [h'] extends [h]: every node of [h] is a node of [h'],
    with the same job and resources, and with the children it had, in
    the same order, before any new one. *)
Definition extends (h h' : list JobNode) : Prop :=
  forall i n, h !! i = Some n ->
    exists n', h' !! i = Some n'
      /\ body n' = body n /\ cores n' = cores n
      /\ memory n' = memory n /\ disk n' = disk n
      /\ children n `prefix_of` children n'.

(** The graph [h'] extends [h], and of the nodes of [h] only [self] has
    got new children. *)
Definition grows_under (self : nat) (h h' : list JobNode) : Prop :=
  extends h h'
  /\ forall i, i < length h -> i <> self ->
       children_of i h' = children_of i h.

(** The promises of [o] are of nodes that [h'] has and [h] has not. *)
Definition made_between (h h' : list JobNode) (o : outputs) : Prop :=
  Forall (fun j => length h <= j < length h') (leaves o).

(** The jobs that the two dicts of the loop name are nodes of the
    graph: a promise is the [SelfJob] of the workflow job or the promise
    of a node, and a registered job is a node. *)
Definition handles_in_graph (self : nat) (cwljob : list (string * value))
    (st : sched) (h : list JobNode) : Prop :=
  self < length h
  /\ (forall s p, promises st !! s = Some p ->
        p = SelfJob self cwljob
        \/ exists j, p = job_producer j /\ j < length h)
  /\ (forall id j, jobs st !! id = Some j -> j < length h).

(** The input port is wired without a merge and without an expression:
    no [linkMerge], no [valueFrom], and a source, if any, that is a
    string. *)
Definition plain_port (inp : InputPort) : bool :=
  negb (truthy (inp_linkMerge inp))
  && match inp_source inp with Some (SrcList _) => false | _ => true end
  && match inp_valueFrom inp with Some _ => false | None => true end.

(** The value such a port is to get: what the result of the producer of
    its source holds under the short name of the source ([None] when it
    lacks the key), or the default of a port without source. *)
Definition port_value `{Cwltool} (pr : gmap string producer)
    (rets : nat -> value) (inp : InputPort) : option value :=
  match inp_source inp with
  | Some (SrcStr s) =>
      p ← pr !! s;
      match fulfil rets (p_rv p) with
      | VDict d => Some (default VNone (dict_lookup d (shortname s)))
      | _ => None
      end
  | Some (SrcList _) => None
  | None => inp_default inp
  end.


(** ** Sample documents *)

(** A stand-in for cwltool: the part of an identifier after its last
    ['/'] or ['#'], and an evaluator that returns its context. *)
Fixpoint last_segment (acc s : string) : string :=
  match s with
  | EmptyString => acc
  | String c s' =>
      if Ascii.eqb c "/"%char || Ascii.eqb c "#"%char
      then last_segment EmptyString s'
      else last_segment (acc +:+ String c EmptyString) s'
  end.

Definition sample_cwltool : Cwltool :=
  {| shortname := last_segment EmptyString;
     do_eval := fun expr inputs req ctx => Some ctx |}.

(** The sources of the merge [[1, 2], 3]. *)
Definition sample_sources : list (string * value) :=
  [("a", VDict [("a", VList [VInt 1; VInt 2])]);
   ("b", VDict [("b", VInt 3)])].

Definition sample_kwargs : kwargs :=
  {| kw_builder := None; kw_step_inputs := None; kw_use_container := true;
     kw_preserve_environment := ["PATH"]; kw_tmpdir := "/tmp" |}.

Definition sample_resources (b : Builder) : Resources :=
  {| res_cores := 2; res_ram := 1024; res_tmpdirSize := 512;
     res_outdirSize := 512 |}.

(** A command line tool with the given resource requirement. *)
Definition sample_tool (resourceReq : option (list (string * value))) : Tool :=
  MkTool "CommandLineTool" [] [] (VList []) resourceReq sample_resources [].

Definition literal_tool : Tool :=
  sample_tool (Some [("coresMin", VInt 2); ("ramMin", VInt 1024)]).


Definition sample_port (id : string) (src : option source) : InputPort :=
  {| inp_id := id; inp_source := src; inp_linkMerge := None;
     inp_default := None; inp_valueFrom := None |}.

(** A step that scatters [literal_tool] over the given keys. *)
Definition scatter_step (keys : source) (method : option string) : Step :=
  MkStep "#main/step"
    [sample_port "#main/step/a" (Some (SrcStr "#main/a"));
     sample_port "#main/step/b" (Some (SrcStr "#main/b"))]
    ["#main/step/out"] [OutStr "#main/step/out"]
    (Some keys) method (VList []) literal_tool.

Definition two_keys : source := SrcList ["#main/step/a"; "#main/step/b"].

Definition job_2_3 : list (string * value) :=
  [("a", VList [VInt 1; VInt 2]);
   ("b", VList [VInt 10; VInt 20; VInt 30])].

Definition job_3_3 : list (string * value) :=
  [("a", VList [VInt 1; VInt 2; VInt 3]);
   ("b", VList [VInt 10; VInt 20; VInt 30])].

Definition job_3_2 : list (string * value) :=
  [("a", VList [VInt 1; VInt 2; VInt 3]);
   ("b", VList [VInt 10; VInt 20])].

(** The job order of a child that gets [x] and [y]. *)
Definition pair_order (x y : value) : list (string * value) :=
  [("a", x); ("b", y)].

(** A graph that holds the scatter job alone. *)
Definition scatter_graph (step : Step) (job : list (string * value))
  : list JobNode :=
  [plain_job (CWLScatter step (PlainDict job) sample_kwargs)].

(** The results of four scattered jobs, in two groups of two. *)
Definition sample_outputs : outputs :=
  OList [OList [ORv 1; ORv 2]; OList [ORv 3; ORv 4]].

Definition sample_results (j : nat) : list (string * value) :=
  [("out", VInt (Z.of_nat j)); ("log", VStr "done")].

Definition leaf_step (id : string) (src : string) : Step :=
  MkStep id [sample_port (id +:+ "/x") (Some (SrcStr src))]
    [id +:+ "/out"] [OutStr (id +:+ "/out")] None None (VList [])
    literal_tool.

(** Two steps in a chain, the consumer listed first. *)
Definition chain_workflow : Tool :=
  MkTool "Workflow" [sample_port "#main/in" None]
    [{| out_id := "#main/out"; out_source := Some "#main/second/out";
        out_outputSource := Some "#main/second/out" |}]
    (VList []) None sample_resources
    [leaf_step "#main/second" "#main/first/out";
     leaf_step "#main/first" "#main/in"].

(** A step whose source nothing produces. *)
Definition stalled_workflow : Tool :=
  MkTool "Workflow" [sample_port "#main/in" None]
    [{| out_id := "#main/out"; out_source := None;
        out_outputSource := Some "#main/lost/out" |}]
    (VList []) None sample_resources
    [leaf_step "#main/lost" "#main/missing"].

(** A workflow output whose [outputSource] nothing produces. *)
Definition dangling_workflow : Tool :=
  MkTool "Workflow" [sample_port "#main/in" None]
    [{| out_id := "#main/out"; out_source := None;
        out_outputSource := Some "#main/nothing" |}]
    (VList []) None sample_resources
    [leaf_step "#main/first" "#main/in"].

(** A graph that holds the workflow job alone. *)
Definition workflow_graph (cwlwf : Tool) : list JobNode :=
  [plain_job (CWLWorkflow cwlwf (PlainDict []) sample_kwargs)].

Definition initial_sched (cwlwf : Tool) : sched :=
  {| promises := initial_promises 0 cwlwf [];
     jobs := ∅ |}.

(** An evaluator that returns its context together with its inputs. *)
Definition echo_cwltool : Cwltool :=
  {| shortname := last_segment EmptyString;
     do_eval := fun expr inputs req ctx => Some (VList [ctx; VDict inputs]) |}.

(** A stand-in for the host: the world is the list of the paths written
    to the job store, a file of the store is read to [/tmp], every
    local file exists, and a URI has a scheme when it starts with
    [file:]. *)
Definition sample_host : Host :=
  {| world := list string;
     readGlobalFile := fun id w => Ok ("/tmp/" +:+ id, w);
     realpath := fun x w => x;
     isfile := fun x w => true;
     file_uri := fun p => "file://" +:+ p;
     url_scheme := fun x =>
       if String.prefix "file:" x then "file" else EmptyString |}.

Definition sample_write (rp : string) (w : list string)
  : result (string * list string) :=
  Ok ("id" +:+ rp, w ++ [rp]).

Definition no_files : filemaps := {| index := ∅; existing := ∅ |}.

Definition sample_file : FileObj :=
  {| location := Some "file:///data/a.txt"; path := None |}.

(** An input with an expression: [y] is [x] passed through it. *)
Definition expression_items : list (string * entry value) :=
  [("x", Tagged "out" (VDict [("out", VInt 7)]));
   ("y", StepValueFrom (VStr "$(self)")
           (Tagged "out" (VDict [("out", VInt 8)])) (VList []))].

(** A merge whose second source lacks its key. *)
Definition broken_sources : list (string * value) :=
  [("a", VDict [("a", VInt 1)]); ("b", VDict [("c", VInt 3)])].

(** A step that scatters over three keys. *)
Definition three_key_step (method : option string) : Step :=
  MkStep "#main/step"
    [sample_port "#main/step/a" (Some (SrcStr "#main/a"));
     sample_port "#main/step/b" (Some (SrcStr "#main/b"));
     sample_port "#main/step/c" (Some (SrcStr "#main/c"))]
    ["#main/step/out"] [OutStr "#main/step/out"]
    (Some (SrcList ["#main/step/a"; "#main/step/b"; "#main/step/c"]))
    method (VList []) literal_tool.

Definition job_2_3_2 : list (string * value) :=
  [("a", VList [VInt 1; VInt 2]);
   ("b", VList [VInt 10; VInt 20; VInt 30]);
   ("c", VList [VInt 100; VInt 200])].

(** A job order whose first scattered list is empty and that lacks the
    second scattered key. *)
Definition job_empty : list (string * value) := [("a", VList [])].

(** A job order whose first scattered value is no list. *)
Definition job_scalar : list (string * value) :=
  [("a", VInt 1); ("b", VList [VInt 10])].

(** A step with an expression on its input. *)
Definition expression_step : Step :=
  MkStep "#main/step"
    [{| inp_id := "#main/step/a"; inp_source := Some (SrcStr "#main/a");
        inp_linkMerge := None; inp_default := None;
        inp_valueFrom := Some (VStr "$(self)") |};
     sample_port "#main/step/b" (Some (SrcStr "#main/b"))]
    ["#main/step/out"] [OutStr "#main/step/out"]
    (Some two_keys) (Some "dotproduct") (VList []) literal_tool.


(** A step with a source and a default. *)
Definition default_step : Step :=
  MkStep "#main/first"
    [sample_port "#main/first/x" (Some (SrcStr "#main/in"));
     {| inp_id := "#main/first/n"; inp_source := None;
        inp_linkMerge := None; inp_default := Some (VInt 3);
        inp_valueFrom := None |}]
    ["#main/first/out"] [OutStr "#main/first/out"] None None (VList [])
    literal_tool.

(** The job order of the sample workflows, and the state of the loop
    that begins with it. *)
Definition sample_job : list (string * value) := [("in", VInt 5)].

Definition sample_sched (cwlwf : Tool) : sched :=
  {| promises := initial_promises 0 cwlwf sample_job; jobs := ∅ |}.

(** The return values of the jobs of the chain: each returns its
    number. *)
Definition sample_rets (j : nat) : value :=
  VDict [("out", VInt (Z.of_nat j))].

(** A local file, its reference in the job store once [sample_write]
    has written it, and the two dicts after that. *)
Definition sample_uri : string := "file:///data/a.txt".

Definition sample_ref : string := "toilfs:idfile:///data/a.txt".

Definition one_file : filemaps :=
  {| index := <[sample_uri := sample_ref]> ∅;
     existing := <[sample_ref := sample_uri]> ∅ |}.

(** A job order that lacks the first scattered key. *)
Definition job_missing : list (string * value) := [("b", VList [VInt 10])].

Definition job_1_10 : list (string * value) := [("a", VInt 1); ("b", VInt 10)].

(** A workflow whose only step scatters over its two inputs. *)
Definition scatter_workflow : Tool :=
  MkTool "Workflow"
    [sample_port "#main/a" None; sample_port "#main/b" None]
    [{| out_id := "#main/out"; out_source := Some "#main/step/out";
        out_outputSource := Some "#main/step/out" |}]
    (VList []) None sample_resources
    [scatter_step two_keys (Some "dotproduct")].

(** A tool that asks for as many cores as its input [x] says, and a
    step that runs it. *)
Definition sized_resources (b : Builder) : Resources :=
  {| res_cores := match dict_lookup (builder_job b) "x" with
                  | Some (VInt n) => n
                  | _ => 1
                  end;
     res_ram := 1024; res_tmpdirSize := 512; res_outdirSize := 512 |}.

Definition sized_tool : Tool :=
  MkTool "CommandLineTool" [] [] (VList [])
    (Some [("coresMin", VStr "$(inputs.x)")]) sized_resources [].

Definition sized_step : Step :=
  MkStep "#main/first"
    [sample_port "#main/first/x" (Some (SrcStr "#main/in"))]
    ["#main/first/out"] [OutStr "#main/first/out"] None None (VList [])
    sized_tool.

(** * Properties *)

(** ** Dicts *)

Section dict_facts.
Context {A : Type}.
Implicit Types (d : list (string * A)) (k : string) (v : A).

Lemma dict_lookup_None d k : dict_lookup d k = None <-> k ∉ d.*1.
Proof.
  induction d as [|[k' v'] d IH]; simpl.
  - split; [intros _; apply not_elem_of_nil | reflexivity].
  - destruct (String.eqb_spec k' k) as [->|Hne].
    + split; [discriminate | intros Hn; exfalso; apply Hn; left].
    + rewrite IH, not_elem_of_cons. naive_solver.
Qed.

Lemma dict_set_fresh d k v :
  k ∉ d.*1 -> dict_set d k v = d ++ [(k, v)].
Proof.
  induction d as [|[k' v'] d IH]; simpl; [done|].
  intros Hn. apply not_elem_of_cons in Hn as [Hne Hn].
  destruct (String.eqb_spec k' k) as [->|_]; [done|].
  by rewrite IH.
Qed.

Lemma dict_set_keys d k v :
  forall k', k' ∈ (dict_set d k v).*1 <-> k' = k \/ k' ∈ d.*1.
Proof.
  induction d as [|[k0 v0] d IH]; simpl; intros k'.
  - rewrite list_elem_of_singleton. set_solver.
  - destruct (String.eqb_spec k0 k) as [->|Hne]; simpl.
    + set_solver.
    + rewrite !elem_of_cons, IH. naive_solver.
Qed.

Lemma dict_set_NoDup d k v : NoDup d.*1 -> NoDup (dict_set d k v).*1.
Proof.
  induction d as [|[k0 v0] d IH]; simpl; intros Hd.
  - apply NoDup_singleton.
  - apply NoDup_cons in Hd as [Hn Hd].
    destruct (String.eqb_spec k0 k) as [->|Hne]; simpl.
    + by apply NoDup_cons.
    + apply NoDup_cons. split; [|by apply IH].
      rewrite dict_set_keys. naive_solver.
Qed.

(** A loop [for x in l: d[key x] = val x] over distinct fresh keys
    appends its items in order. *)
Lemma dict_build {B : Type} (key : B -> string) (val : B -> A)
    (l : list B) d :
  NoDup (d.*1 ++ (key <$> l)) ->
  foldl (fun acc x => dict_set acc (key x) (val x)) d l
  = d ++ ((fun x => (key x, val x)) <$> l).
Proof.
  revert d. induction l as [|x l IH]; intros d Hd; simpl.
  - by rewrite app_nil_r.
  - rewrite dict_set_fresh.
    + rewrite IH; [by rewrite <- app_assoc|].
      rewrite fmap_app; simpl. by rewrite <- app_assoc.
    + apply NoDup_app in Hd as (_ & Hd & _).
      intros Hin. apply (Hd _ Hin). left.
Qed.

Lemma dict_lookup_set d k v k' :
  dict_lookup (dict_set d k v) k'
  = if String.eqb k k' then Some v else dict_lookup d k'.
Proof.
  induction d as [|[k0 v0] d IH]; simpl.
  - done.
  - destruct (String.eqb_spec k0 k) as [->|Hne]; simpl.
    + destruct (String.eqb_spec k k'); done.
    + rewrite IH. destruct (String.eqb_spec k0 k') as [->|]; [|done].
      destruct (String.eqb_spec k k'); congruence.
Qed.
End dict_facts.

Lemma foldM_cons {A B : Type} (f : B -> A -> result B) b x l :
  foldM f b (x :: l) = (b' ← f b x; foldM f b' l).
Proof. done. Qed.

Lemma foldM_app {A B : Type} (f : B -> A -> result B) b l1 l2 :
  foldM f b (l1 ++ l2) = (b' ← foldM f b l1; foldM f b' l2).
Proof.
  revert b. induction l1 as [|x l1 IH]; intros b; simpl; [done|].
  destruct (f b x); simpl; [apply IH | done].
Qed.

Lemma foldM_dict_build {A B : Type} (key : B -> string)
    (f : B -> result A) (val : B -> A) (l : list B) (d : list (string * A)) :
  NoDup (d.*1 ++ (key <$> l)) ->
  Forall (fun x => f x = Ok (val x)) l ->
  foldM (fun r x => v ← f x; Ok (dict_set r (key x) v)) d l
  = Ok (d ++ ((fun x => (key x, val x)) <$> l)).
Proof.
  revert d. induction l as [|x l IH]; intros d Hd Hf; simpl.
  - by rewrite app_nil_r.
  - apply Forall_cons in Hf as [Hx Hf]. rewrite Hx; simpl.
    rewrite dict_set_fresh.
    + rewrite IH; [by rewrite <- app_assoc | | done].
      rewrite fmap_app; simpl. by rewrite <- app_assoc.
    + apply NoDup_app in Hd as (_ & Hd & _).
      intros Hin. apply (Hd _ Hin). left.
Qed.

Lemma fmap_pair_eta {A B : Type} (l : list (A * B)) :
  (fun x => (x.1, x.2)) <$> l = l.
Proof. induction l as [|[a b] l IH]; csimpl; [done | by f_equal]. Qed.

(** ** Which exceptions can be raised *)

Lemma no_validation_bind {A B : Type} (m : result A) (f : A -> result B) :
  no_validation m -> (forall a, no_validation (f a)) -> no_validation (m ≫= f).
Proof.
  intros Hm Hf msg. destruct m as [a|e]; simpl.
  - apply Hf.
  - intros [= ->]. by apply (Hm msg).
Qed.

Lemma no_validation_fmap {A B : Type} (m : result A) (f : A -> B) :
  no_validation m -> no_validation (f <$> m).
Proof. intros Hm msg. destruct m; [done|]. intros [= ->]. by apply (Hm msg). Qed.

Lemma no_validation_Ok {A : Type} (a : A) : no_validation (Ok a).
Proof. by intros msg. Qed.

Lemma no_validation_foldM {A B : Type} (f : B -> A -> result B) b l :
  (forall b x, no_validation (f b x)) -> no_validation (foldM f b l).
Proof.
  intros Hf. revert b. induction l as [|x l IH]; intros b; simpl.
  - apply no_validation_Ok.
  - by apply no_validation_bind.
Qed.

Lemma no_validation_mapM {A B : Type} (f : A -> result B) l :
  (forall x, no_validation (f x)) -> no_validation (mapM f l).
Proof.
  intros Hf. induction l as [|x l IH]; simpl.
  - apply no_validation_Ok.
  - apply no_validation_bind; [done|]. intros y.
    apply no_validation_bind; [done|]. intros ys. apply no_validation_Ok.
Qed.

Lemma no_validation_dict_getitem {A : Type} (d : list (string * A)) k :
  no_validation (dict_getitem d k).
Proof. unfold dict_getitem. by destruct (dict_lookup d k); intros msg. Qed.

Lemma no_validation_py_getitem v k : no_validation (py_getitem v k).
Proof.
  destruct v; simpl; try (by intros msg). apply no_validation_dict_getitem.
Qed.

Lemma no_validation_py_get v k : no_validation (py_get v k).
Proof. destruct v; simpl; by intros msg. Qed.

Lemma no_validation_py_len v : no_validation (py_len v).
Proof. destruct v; simpl; by intros msg. Qed.

Lemma no_validation_py_index v i : no_validation (py_index v i).
Proof.
  destruct v as [| | |s|l|d]; simpl; try (by intros msg).
  - by destruct (String.get i s); intros msg.
  - by destruct (l !! i); intros msg.
Qed.

Lemma no_validation_do_eval `{Cwltool} expr inputs req ctx :
  no_validation (expression_do_eval expr inputs req ctx).
Proof.
  unfold expression_do_eval.
  by destruct (do_eval expr inputs req ctx); intros msg.
Qed.

Create HintDb noval.
#[local] Hint Resolve no_validation_Ok no_validation_dict_getitem
  no_validation_py_getitem no_validation_py_get no_validation_py_len
  no_validation_py_index no_validation_do_eval : noval.

Ltac noval :=
  repeat first
    [ solve [auto with noval]
    | apply no_validation_bind; [|intros ?]
    | apply no_validation_foldM; intros ? ?
    | apply no_validation_mapM; intros ?
    | apply no_validation_fmap ].

(** ** Resolution *)

Section resolve_facts.
Context `{Cwltool}.

(** What the two merges compute from the values of their sources. *)
Lemma MergeInputsNested_resolve_values sources vs :
  Forall2 (fun src v => py_getitem src.2 src.1 = Ok v) sources vs ->
  MergeInputsNested_resolve sources = Ok (VList vs).
Proof.
  unfold MergeInputsNested_resolve. intros Hs.
  enough (mapM (fun v => py_getitem v.2 v.1) sources = Ok vs) as -> by done.
  induction Hs as [|src v sources vs Hv _ IH]; simpl; [done|].
  rewrite Hv; simpl. by rewrite IH.
Qed.

Lemma MergeInputsFlattened_resolve_values sources vs :
  Forall2 (fun src v => py_getitem src.2 src.1 = Ok v) sources vs ->
  MergeInputsFlattened_resolve sources = Ok (VList (vs ≫= spread)).
Proof.
  unfold MergeInputsFlattened_resolve. intros Hs.
  enough (forall r,
    foldM (fun r v => x ← py_getitem v.2 v.1;
                      match x with
                      | VList l => Ok (r ++ l)
                      | _ => Ok (r ++ [x])
                      end) r sources = Ok (r ++ (vs ≫= spread))) as ->
    by done.
  induction Hs as [|src v sources vs Hv _ IH]; intros r; simpl.
  - by rewrite app_nil_r.
  - rewrite Hv; simpl.
    destruct v; simpl; rewrite IH; by rewrite <- app_assoc.
Qed.

(** C5: a merge reads the value of every source from its producer's
    result and combines the values in source order: [merge_nested]
    returns the list of the values, one entry per source;
    [merge_flattened] concatenates them, a list value contributing its
    elements and any other value itself.  So does [resolve_indirect] for
    an input that holds the merge. *)
Theorem merge_resolve_in_source_order (sources : list (string * value))
    (vs : list value) (k : string) :
  Forall2 (fun src v => py_getitem src.2 src.1 = Ok v) sources vs ->
  resolve_entry (MergeInputsNested sources) = Ok (VList vs)
  /\ resolve_entry (MergeInputsFlattened sources)
     = Ok (VList (vs ≫= spread))
  /\ resolve_indirect (IndirectDict [(k, MergeInputsNested sources)])
     = Ok [(k, VList vs)]
  /\ resolve_indirect (IndirectDict [(k, MergeInputsFlattened sources)])
     = Ok [(k, VList (vs ≫= spread))].
Proof.
  intros Hs.
  pose proof (MergeInputsNested_resolve_values _ _ Hs) as Hn.
  pose proof (MergeInputsFlattened_resolve_values _ _ Hs) as Hf.
  split; [exact Hn|]. split; [exact Hf|].
  unfold resolve_indirect, _resolve_indirect_inner. simpl.
  rewrite Hn, Hf. by split.
Qed.

(** C3, as the code has it: an [IndirectDict] of tuples [(key, result)]
    resolves to the dict that gives each input [result.get(key)], which
    is [None] when the producer's result lacks the key; no entry
    raises. *)
Theorem resolve_tagged_get
    (l : list (string * (string * list (string * value)))) :
  NoDup l.*1 ->
  resolve_indirect
    (IndirectDict ((fun x => (x.1, Tagged x.2.1 (VDict x.2.2))) <$> l))
  = Ok ((fun x => (x.1, default VNone (dict_lookup x.2.2 x.2.1))) <$> l).
Proof.
  intros Hl. unfold resolve_indirect.
  set (items := (fun x => (x.1, Tagged x.2.1 (VDict x.2.2))) <$> l).
  assert (Hkeys : items.*1 = l.*1).
  { unfold items. rewrite <- list_fmap_compose. by apply list_fmap_ext. }
  replace (foldl _ [] items) with items; cycle 1.
  { symmetry.
    transitivity (foldl (fun acc (x : string * entry value) =>
                           dict_set acc x.1 x.2) [] items).
    - unfold items. clear. generalize (@nil (string * entry value)).
      induction l as [|x l IH]; intros d; simpl; [done | apply IH].
    - rewrite (dict_build fst snd); simpl.
      + apply fmap_pair_eta.
      + by rewrite Hkeys. }
  replace (existsb _ items) with false; cycle 1.
  { unfold items. clear. induction l as [|x l IH]; simpl; done. }
  unfold _resolve_indirect_inner, items.
  rewrite (foldM_dict_build fst (fun kv => resolve_entry kv.2)
             (fun kv => match kv.2 with
                        | Tagged k (VDict d) => default VNone (dict_lookup d k)
                        | _ => VNone
                        end)); simpl.
  - f_equal. rewrite <- list_fmap_compose. by apply list_fmap_ext.
  - fold items. by rewrite Hkeys.
  - apply Forall_fmap, Forall_forall. by intros x _.
Qed.

Lemma no_validation_resolve_entry (v : entry value) :
  no_validation (resolve_entry v).
Proof.
  destruct v; simpl; [noval | | | by intros msg].
  - unfold MergeInputsNested_resolve. noval.
  - unfold MergeInputsFlattened_resolve. noval.
    match goal with |- context [match ?x with _ => _ end] => by destruct x end.
Qed.

Lemma no_validation_resolve_indirect (d : jobobj value) :
  no_validation (resolve_indirect d).
Proof.
  destruct d as [items|items]; simpl; [|by intros msg].
  apply no_validation_bind.
  - unfold _resolve_indirect_inner. noval. apply no_validation_resolve_entry.
  - intros res. destruct (existsb _ items); [|by intros msg].
    noval.
    match goal with
    | |- no_validation (match ?e with _ => _ end) => destruct e
    end; noval.
    apply no_validation_do_eval.
Qed.

(** The copy that [resolve_indirect] makes of a plain dict. *)
Lemma plain_dict_copy (items : list (string * value)) :
  NoDup items.*1 ->
  foldl (fun inner kv => dict_set inner kv.1 kv.2) [] items = items.
Proof.
  intros Hd. rewrite (dict_build fst snd); simpl;
    [apply fmap_pair_eta | done].
Qed.

(** C9: a plain dict of values, which holds no tuple, [MergeInputs] or
    [StepValueFrom], resolves to itself. *)
Theorem resolve_plain_unchanged (items : list (string * value)) :
  NoDup items.*1 ->
  resolve_indirect (PlainDict items) = Ok items.
Proof.
  intros Hd. unfold resolve_indirect, _resolve_indirect_inner.
  by rewrite plain_dict_copy.
Qed.

Lemma foldM_invariant {A B : Type} (P : B -> Prop)
    (f : B -> A -> result B) (l : list A) (b r : B) :
  P b ->
  (forall b x b', P b -> f b x = Ok b' -> P b') ->
  foldM f b l = Ok r -> P r.
Proof.
  intros Hb Hstep. revert b Hb.
  induction l as [|x l IH]; intros b Hb; simpl.
  - by intros [= <-].
  - destruct (f b x) as [b'|] eqn:Hx; simpl; [|done].
    apply IH. by apply (Hstep b x).
Qed.

(** The dict that [resolve_indirect] returns has distinct keys, and
    resolving it again returns it: the resolution is idempotent. *)
Lemma resolve_indirect_NoDup (d : jobobj value) (r : list (string * value)) :
  resolve_indirect d = Ok r -> NoDup r.*1.
Proof.
  destruct d as [items|items]; simpl.
  - destruct (foldM _ [] _) as [res|] eqn:Hres; simpl; [|done].
    assert (NoDup res.*1) as Hnd.
    { revert Hres.
      apply (foldM_invariant (fun b => NoDup b.*1)); [constructor|].
      intros b x b' Hb. destruct (resolve_entry x.2); simpl; [|done].
      intros [= <-]. by apply dict_set_NoDup. }
    destruct (existsb _ items); [|by intros [= <-]].
    apply (foldM_invariant (fun b => NoDup b.*1)); [constructor|].
    intros b x b' Hb.
    destruct (dict_getitem res x.1); simpl; [|intros; discriminate].
    destruct x.2; simpl; try (intros [= <-]; by apply dict_set_NoDup).
    destruct (StepValueFrom_do_eval _ _ _ _) as [y|]; simpl;
      [intros [= <-]; by apply dict_set_NoDup | intros; discriminate].
  - intros [= <-].
    enough (forall acc : list (string * value),
      NoDup acc.*1 ->
      NoDup (foldl (fun inner kv => dict_set inner kv.1 kv.2) acc items).*1)
      as Hgen by (apply Hgen; constructor).
    induction items as [|kv items IH]; intros acc Hacc; simpl; [done|].
    apply IH. by apply dict_set_NoDup.
Qed.

Lemma resolve_indirect_idempotent (d : jobobj value)
    (r : list (string * value)) :
  resolve_indirect d = Ok r -> resolve_indirect (PlainDict r) = Ok r.
Proof.
  intros Hr%resolve_indirect_NoDup.
  unfold resolve_indirect, _resolve_indirect_inner.
  by rewrite plain_dict_copy.
Qed.
End resolve_facts.

(** ** Job construction *)



Section makeJob_facts.
Context `{Cwltool}.

End makeJob_facts.

(** ** The job graph *)

Lemma input_at_app_l (h l : list JobNode) (c : nat) :
  c < length h -> input_at (h ++ l) c = input_at h c.
Proof. intros Hc. unfold input_at. by rewrite lookup_app_l. Qed.

Lemma input_at_addChild (p c : nat) (h : list JobNode) (x : nat) :
  input_at (addChild p c h) x = input_at h x.
Proof.
  unfold input_at, addChild. rewrite list_lookup_alter.
  destruct (decide (p = x)) as [->|]; [|done].
  by destruct (h !! x).
Qed.

Lemma children_of_app_l (p : nat) (h l : list JobNode) :
  p < length h -> children_of p (h ++ l) = children_of p h.
Proof. intros Hp. unfold children_of. by rewrite lookup_app_l. Qed.

Lemma children_of_addChild (p c : nat) (h : list JobNode) :
  p < length h -> children_of p (addChild p c h) = children_of p h ++ [c].
Proof.
  intros Hp. unfold children_of, addChild. rewrite list_lookup_alter_eq.
  destruct (lookup_lt_is_Some_2 h p Hp) as [n ->]. done.
Qed.

Lemma length_addChild (p c : nat) (h : list JobNode) :
  length (addChild p c h) = length h.
Proof. apply length_alter. Qed.

Lemma makeJob_spec (tool : Tool) (jo : jobobj handle) (kw : kwargs)
    (h : list JobNode) :
  exists node rest,
    makeJob tool jo kw h
    = (length h, length h + (njobs tool - 1), h ++ node :: rest)
    /\ length rest = njobs tool - 1
    /\ cwljob_of (body node) = Some jo.
Proof.
  unfold makeJob, njobs.
  destruct (String.eqb (tool_class tool) "Workflow"); simpl.
  - eexists _, [_]. split.
    { rewrite length_app; simpl. rewrite <- app_assoc; simpl.
      unfold addFollowOn. rewrite alter_app_r_alt by lia.
      rewrite Nat.sub_diag; simpl. reflexivity. }
    by split.
  - rewrite Nat.add_0_r.
    destruct (dynamic_resources tool); simpl; eexists _, [];
      (split; [reflexivity | by split]).
Qed.

Lemma foldM_ext {A B : Type} (f g : B -> A -> result B) b l :
  (forall b x, x ∈ l -> f b x = g b x) -> foldM f b l = foldM g b l.
Proof.
  revert b. induction l as [|x l IH]; intros b Hfg; simpl; [done|].
  rewrite Hfg by left. destruct (g b x); simpl; [|done].
  apply IH. intros b' y Hy. apply Hfg. by right.
Qed.

(** A loop over the indices of a list is a loop over its elements. *)
Lemma foldM_index {B : Type} (k : value -> B -> result B) (xs : list value)
    (b : B) :
  foldM (fun b n => x ← py_index (VList xs) n; k x b) b (seq 0 (length xs))
  = foldM (fun b x => k x b) b xs.
Proof.
  enough (forall pre b,
    foldM (fun b n => x ← py_index (VList (pre ++ xs)) n; k x b) b
      (seq (length pre) (length xs))
    = foldM (fun b x => k x b) b xs) as Hgen by apply (Hgen []).
  induction xs as [|x xs IH]; intros pre b'; simpl; [done|].
  rewrite list_lookup_middle by done. simpl.
  destruct (k x b') as [b''|]; simpl; [|done].
  specialize (IH (pre ++ [x]) b''). rewrite length_app in IH; simpl in IH.
  rewrite Nat.add_1_r, <- app_assoc in IH. apply IH.
Qed.


(** ** Scatter *)

Section scatter_facts.
Context `{Cwltool}.
Implicit Types (jo : list (string * value)) (h : list JobNode).

Lemma njobs_pos (tool : Tool) : 1 <= njobs tool.
Proof. unfold njobs. destruct (String.eqb _ _); lia. Qed.

(** One more child: a job that holds the evaluated job order. *)
Lemma scatter_child_spec self step kw jo jo' outs h :
  postScatterEval step jo = Ok jo' ->
  in_graph self h ->
  exists f h',
    scatter_child self step kw jo (outs, h) = Ok (outs ++ [ORv f], h')
    /\ in_graph self h'
    /\ child_inputs self h' = child_inputs self h ++ [Some (PlainDict jo')]
    /\ length h' = length h + njobs (embedded_tool step).
Proof.
  intros Hjo [Hself Hch]. unfold scatter_child. rewrite Hjo; simpl.
  destruct (makeJob_spec (embedded_tool step) (PlainDict jo') kw h)
    as (node & rest & -> & Hrest & Hnode).
  pose proof (njobs_pos (embedded_tool step)) as Hpos.
  assert (Hlen : length (h ++ node :: rest)
                 = length h + njobs (embedded_tool step)).
  { rewrite length_app; simpl. lia. }
  assert (Hchildren :
    children_of self (addChild self (length h) (h ++ node :: rest))
    = children_of self h ++ [length h]).
  { rewrite children_of_addChild by lia. by rewrite children_of_app_l. }
  eexists _, _. split; [reflexivity|]. split; [|split].
  - split; rewrite length_addChild, Hlen; [lia|].
    rewrite Hchildren. apply Forall_app. split.
    + eapply Forall_impl; [exact Hch|]. simpl. lia.
    + apply Forall_singleton. lia.
  - unfold child_inputs. rewrite Hchildren, fmap_app. f_equal.
    + apply Forall_fmap_ext. eapply Forall_impl; [exact Hch|].
      intros c Hc; simpl. rewrite input_at_addChild.
      by apply input_at_app_l.
    + simpl. rewrite input_at_addChild. unfold input_at.
      rewrite list_lookup_middle by done. simpl. by rewrite Hnode.
  - by rewrite length_addChild.
Qed.

(** A run of [scatter_child] over a list of job orders adds one child
    per job order, in order. *)
Lemma spawn_spec self step kw
    (jos jos' : list (list (string * value))) outs h :
  Forall2 (fun jo jo' => postScatterEval step jo = Ok jo') jos jos' ->
  in_graph self h ->
  exists fs h',
    foldM (fun acc jo => scatter_child self step kw jo acc) (outs, h) jos
    = Ok (outs ++ (ORv <$> fs), h')
    /\ length fs = length jos
    /\ in_graph self h'
    /\ child_inputs self h'
       = child_inputs self h ++ ((fun jo' => Some (PlainDict jo')) <$> jos')
    /\ length h' = length h + length jos * njobs (embedded_tool step).
Proof.
  intros Hpost. revert outs h.
  induction Hpost as [|jo jo' jos jos' Hjo _ IH]; intros outs h Hg.
  - exists [], h. simpl. rewrite !app_nil_r.
    split; [done | split; [done | split; [done | split; [done | lia]]]].
  - destruct (scatter_child_spec self step kw jo jo' outs h)
      as (f & h1 & Hrun & Hg1 & Hin1 & Hlen1); [done | done |].
    destruct (IH (outs ++ [ORv f]) h1)
      as (fs & h' & Hrest & Hfs & Hg' & Hin' & Hlen'); [done|].
    exists (f :: fs), h'. simpl. rewrite Hrun; simpl. rewrite Hrest.
    rewrite <- app_assoc.
    split; [done | split; [simpl; lia | split; [done | split]]].
    + rewrite Hin', Hin1, <- app_assoc. done.
    + simpl. lia.
Qed.

Lemma foldM_fmap {A B C : Type} (f : C -> B -> result C) (g : A -> B)
    (l : list A) (c : C) :
  foldM f c (g <$> l) = foldM (fun c x => f c (g x)) c l.
Proof.
  revert c. induction l as [|x l IH]; intros c; csimpl; [done|].
  destruct (f c (g x)); simpl; [apply IH | done].
Qed.


Lemma nested_last self step kw jo k ys h :
  dict_lookup jo (shortname k) = Some (VList ys) ->
  nested_crossproduct_scatter self step kw jo [k] h
  = foldM (fun acc jo' => scatter_child self step kw jo' acc) ([], h)
      ((fun y => dict_set jo (shortname k) y) <$> ys).
Proof.
  intros Hk. simpl. unfold dict_getitem. rewrite Hk; simpl.
  rewrite foldM_fmap.
  exact (foldM_index
           (fun y acc => scatter_child self step kw
                           (dict_set jo (shortname k) y) acc) ys _).
Qed.

Lemma no_validation_scatter_child self step kw jo acc :
  no_validation (scatter_child self step kw jo acc).
Proof.
  unfold scatter_child. apply no_validation_bind.
  - unfold postScatterEval. noval.
    match goal with
    | |- no_validation (match ?e with _ => _ end) => destruct e
    end; noval.
  - intros jo'. destruct (makeJob _ _ _ _) as [[subjob followOn] h1].
    apply no_validation_Ok.
Qed.

#[local] Hint Resolve no_validation_scatter_child : noval.

Lemma no_validation_dotproduct self step kw jo scatter h :
  no_validation (dotproduct_scatter self step kw jo scatter h).
Proof.
  unfold dotproduct_scatter. noval.
  destruct scatter; by intros msg.
Qed.

Lemma dotproduct_single self step kw jo k ys h :
  dict_lookup jo (shortname k) = Some (VList ys) ->
  dotproduct_scatter self step kw jo [k] h
  = foldM (fun acc jo' => scatter_child self step kw jo' acc) ([], h)
      ((fun y => dict_set jo (shortname k) y) <$> ys).
Proof.
  intros Hk. unfold dotproduct_scatter; simpl.
  unfold dict_getitem. rewrite Hk; simpl.
  rewrite foldM_fmap.
  etrans; [|exact (foldM_index
                     (fun y acc => scatter_child self step kw
                                     (dict_set jo (shortname k) y) acc)
                     ys _)].
  apply foldM_ext. intros acc n _. simpl.
  by destruct (ys !! n).
Qed.

Lemma scatter_keys_Some step ks :
  scatter_keys step = ks -> ks <> [] ->
  exists s, step_scatter step = Some s /\ aslist s = ks.
Proof.
  unfold scatter_keys. destruct (step_scatter step) as [s|]; [eauto|].
  by intros <-.
Qed.


Lemma nested_cons self step kw jo k k' rest xs h :
  dict_lookup jo (shortname k) = Some (VList xs) ->
  nested_crossproduct_scatter self step kw jo (k :: k' :: rest) h
  = foldM (fun acc x =>
             '(sub, h1) ← nested_crossproduct_scatter self step kw
                            (dict_set jo (shortname k) x) (k' :: rest) acc.2;
             Ok (acc.1 ++ [OList sub], h1)) ([], h) xs.
Proof.
  intros Hk. simpl. unfold dict_getitem. rewrite Hk; simpl.
  exact (foldM_index
           (fun x acc =>
              '(sub, h1) ← nested_crossproduct_scatter self step kw
                             (dict_set jo (shortname k) x) (k' :: rest) acc.2;
              Ok (acc.1 ++ [OList sub], h1))
           xs _).
Qed.



(** A loop over indices whose body first builds a job order. *)
Lemma foldM_seq_lookup {B J : Type} (k : J -> B -> result B)
    (g : nat -> result J) (l : list J) (off : nat) (b : B) :
  (forall i x, l !! i = Some x -> g (off + i) = Ok x) ->
  foldM (fun b i => x ← g i; k x b) b (seq off (length l))
  = foldM (fun b x => k x b) b l.
Proof.
  revert off b. induction l as [|x l IH]; intros off b Hg; simpl; [done|].
  rewrite <- (Nat.add_0_r off) at 1. rewrite (Hg 0 x) by done. simpl.
  destruct (k x b) as [b'|]; simpl; [|done].
  apply IH. intros i x' Hi.
  replace (S off + i) with (off + S i) by lia. by apply Hg.
Qed.

(** The job order the dotproduct loop builds at index [i] for two keys. *)
Lemma dotproduct_copyjob job sc1 sc2 xs ys i :
  dict_lookup job sc1 = Some (VList xs) ->
  dict_lookup job sc2 = Some (VList ys) ->
  foldM (fun copyjob sc =>
           v ← dict_getitem job sc;
           x ← py_index v i;
           Ok (dict_set copyjob sc x)) job [sc1; sc2]
  = match xs !! i, ys !! i with
    | Some x, Some y => Ok (dict_set (dict_set job sc1 x) sc2 y)
    | _, _ => Raise IndexError
    end.
Proof.
  intros Hxs Hys. simpl. unfold dict_getitem. rewrite Hxs, Hys. simpl.
  destruct (xs !! i); simpl; [|done]. by destruct (ys !! i).
Qed.

(** C4, as the code has it: the dotproduct loop over two keys runs
    over the indices of the first key's list [xs].  When the second
    list [ys] is at least as long (so also when the lengths are equal)
    it adds one child per element of [xs], the i-th child with the i-th
    elements of both lists, and ignores what [ys] has beyond the length
    of [xs]; when [ys] is shorter the run ends in an [IndexError]. *)
Theorem dotproduct_scatter_two_keys self step cwljob kw h k1 k2 job
    xs ys (post : value -> value -> list (string * value)) :
  scatter_keys step = [k1; k2] ->
  step_scatterMethod step = Some "dotproduct" ->
  resolve_indirect cwljob = Ok job ->
  dict_lookup job (shortname k1) = Some (VList xs) ->
  dict_lookup job (shortname k2) = Some (VList ys) ->
  (forall i x y, xs !! i = Some x -> ys !! i = Some y ->
     postScatterEval step
       (dict_set (dict_set job (shortname k1) x) (shortname k2) y)
     = Ok (post x y)) ->
  in_graph self h ->
  (length xs <= length ys ->
   exists fs h',
     CWLScatter_run self step cwljob kw h = Ok (OList (ORv <$> fs), h')
     /\ length fs = length xs
     /\ child_inputs self h'
        = child_inputs self h
          ++ zip_with (fun x y => Some (PlainDict (post x y))) xs ys)
  /\
  (length ys < length xs ->
   CWLScatter_run self step cwljob kw h = Raise IndexError).
Proof.
  intros Hk Hm Hjob Hxs Hys Hpost Hg.
  destruct (scatter_keys_Some step [k1; k2] Hk) as (s & Hs & Hl); [done|].
  set (mk := fun x y => dict_set (dict_set job (shortname k1) x)
                          (shortname k2) y).
  set (jos := zip_with mk xs ys).
  assert (Hbody : forall i jo, jos !! i = Some jo ->
    foldM (fun copyjob sc =>
             v ← dict_getitem job sc;
             x ← py_index v i;
             Ok (dict_set copyjob sc x)) job
      [shortname k1; shortname k2] = Ok jo).
  { intros i jo Hi. apply lookup_zip_with_Some in Hi
      as (x & y & -> & Hx & Hy).
    rewrite (dotproduct_copyjob _ _ _ xs ys) by done.
    by rewrite Hx, Hy. }
  destruct (spawn_spec self step kw jos (zip_with post xs ys) [] h)
    as (fs & h' & Hspawn & Hfs & _ & Hin & _); [|done|].
  { apply Forall2_same_length_lookup. split.
    - unfold jos. by rewrite !length_zip_with.
    - intros i jo jo' Hi Hi'.
      apply lookup_zip_with_Some in Hi as (x & y & -> & Hx & Hy).
      apply lookup_zip_with_Some in Hi' as (x' & y' & -> & Hx' & Hy').
      rewrite Hx in Hx'. rewrite Hy in Hy'.
      injection Hx' as <-. injection Hy' as <-. by apply (Hpost i). }
  assert (Hrun : CWLScatter_run self step cwljob kw h
    = ('(outs, h') ←
         foldM (fun acc i =>
                  copyjob ← foldM (fun copyjob sc =>
                                     v ← dict_getitem job sc;
                                     x ← py_index v i;
                                     Ok (dict_set copyjob sc x)) job
                              [shortname k1; shortname k2];
                  scatter_child self step kw copyjob acc) ([], h)
           (seq 0 (length xs));
       Ok (OList outs, h'))).
  { unfold CWLScatter_run. rewrite Hjob, Hs, Hl, Hm.
    cbn [mbind result_bind length Nat.eqb String.eqb Ascii.eqb Bool.eqb].
    unfold dotproduct_scatter, dict_getitem.
    cbn [mbind result_bind]. by rewrite Hxs. }
  rewrite Hrun. clear Hrun. split; intros Hlen.
  - replace (length xs) with (length jos)
      by (unfold jos; rewrite length_zip_with; lia).
    rewrite (foldM_seq_lookup
               (fun jo acc => scatter_child self step kw jo acc)) by done.
    rewrite Hspawn. simpl. exists fs, h'.
    split; [done|]. split.
    + rewrite Hfs. unfold jos. rewrite length_zip_with. lia.
    + rewrite Hin. f_equal. clear.
      revert ys. induction xs as [|x xs IH]; intros [|y ys]; csimpl;
        [done..|]. by rewrite IH.
  - replace (length xs) with (length jos + (length xs - length ys))
      by (unfold jos; rewrite length_zip_with; lia).
    rewrite seq_app, foldM_app.
    rewrite (foldM_seq_lookup
               (fun jo acc => scatter_child self step kw jo acc)) by done.
    rewrite Hspawn. cbn [mbind result_bind].
    destruct (length xs - length ys) as [|d] eqn:Hd; [lia|].
    cbn [seq]. rewrite foldM_cons.
    rewrite (dotproduct_copyjob _ _ _ xs ys) by done.
    replace (length jos) with (length ys)
      by (unfold jos; rewrite length_zip_with; lia).
    rewrite (lookup_ge_None_2 ys) by lia.
    by destruct (xs !! (0 + length ys)).
Qed.

(** C10, with its last sentence as the code has it: with exactly one
    scattered key, whatever [scatterMethod] the step declares,
    [CWLScatter.run] is the dotproduct loop over that key; it does not
    raise a [ValidationException] (so that the two errors about the
    scatter method need a number of keys other than one); and when the
    key holds a list it adds one child per element, in list order,
    each with the element in place of the list, and returns the flat
    list of their promises. *)
Theorem single_key_forces_dotproduct self step cwljob kw h k :
  scatter_keys step = [k] ->
  CWLScatter_run self step cwljob kw h
  = (job ← resolve_indirect cwljob;
     '(outs, h') ← dotproduct_scatter self step kw job [k] h;
     Ok (OList outs, h'))
  /\ no_validation (CWLScatter_run self step cwljob kw h)
  /\ forall job xs (post : value -> list (string * value)),
       resolve_indirect cwljob = Ok job ->
       dict_lookup job (shortname k) = Some (VList xs) ->
       (forall x, x ∈ xs ->
          postScatterEval step (dict_set job (shortname k) x)
          = Ok (post x)) ->
       in_graph self h ->
       exists fs h',
         CWLScatter_run self step cwljob kw h
         = Ok (OList (ORv <$> fs), h')
         /\ length fs = length xs
         /\ child_inputs self h'
            = child_inputs self h
              ++ ((fun x => Some (PlainDict (post x))) <$> xs).
Proof.
  intros Hk.
  destruct (scatter_keys_Some step [k] Hk) as (s & Hs & Hl); [done|].
  assert (Hrun : CWLScatter_run self step cwljob kw h
                 = (job ← resolve_indirect cwljob;
                    '(outs, h') ← dotproduct_scatter self step kw job [k] h;
                    Ok (OList outs, h'))).
  { unfold CWLScatter_run. rewrite Hs, Hl. simpl.
    by destruct (resolve_indirect cwljob). }
  split; [exact Hrun|]. rewrite Hrun. split.
  - apply no_validation_bind; [apply no_validation_resolve_indirect|].
    intros job. apply no_validation_bind; [apply no_validation_dotproduct|].
    intros [outs h']. apply no_validation_Ok.
  - intros job xs post Hjob Hxs Hpost Hg. rewrite Hjob; simpl.
    rewrite (dotproduct_single _ _ _ _ _ xs) by done.
    destruct (spawn_spec self step kw
                ((fun y => dict_set job (shortname k) y) <$> xs)
                (post <$> xs) [] h)
      as (fs & h' & -> & Hfs & _ & Hin & _); [|done|].
    { apply Forall2_fmap, Forall_Forall2_diag, Forall_forall. exact Hpost. }
    exists fs, h'. simpl. rewrite length_fmap in Hfs.
    rewrite Hin, <- list_fmap_compose. done.
Qed.
End scatter_facts.

(** ** Gather *)

Lemma outputs_ind' (P : outputs -> Prop) :
  (forall j, P (ORv j)) ->
  (forall l, Forall P l -> P (OList l)) ->
  forall o, P o.
Proof.
  intros Hrv Hlist. fix IH 1. intros [j|l].
  - apply Hrv.
  - apply Hlist. induction l as [|o l IHl]; constructor.
    + apply IH.
    + exact IHl.
Qed.

Section gather_facts.
Context `{Cwltool}.

(** Extracting a key from the results of a scatter keeps the nesting
    and puts, for each job, what its result holds under the key. *)
Lemma extract_outputs_fulfil (d : nat -> list (string * value))
    (k : string) (o : outputs) :
  extract (outputs_fulfil (fun j => VDict (d j)) o) k
  = outputs_fulfil (fun j => default VNone (dict_lookup (d j) k)) o.
Proof.
  induction o as [j|l IH] using outputs_ind'; simpl; [done|].
  f_equal. rewrite map_map. apply map_ext_Forall. exact IH.
Qed.

Lemma dict_lookup_collect {A : Type} (f : string -> A) (keys : list string)
    (acc : list (string * A)) (k : string) :
  k ∈ keys \/ dict_lookup acc k = Some (f k) ->
  dict_lookup (foldl (fun o k => dict_set o k (f k)) acc keys) k
  = Some (f k).
Proof.
  revert acc. induction keys as [|k' keys IH]; intros acc Hk; simpl.
  - destruct Hk as [Hk|Hk]; [by apply elem_of_nil in Hk | done].
  - apply IH. rewrite dict_lookup_set.
    destruct (String.eqb_spec k' k) as [->|Hne]; [by right|].
    destruct Hk as [Hk|Hk]; [|by right].
    apply elem_of_cons in Hk as [->|Hk]; [done | by left].
Qed.

(** C8: for every declared output key of the step, the gather job
    returns under that key the results of the scatter with the same
    nesting, each job's result replaced by what it holds under the key
    (the null value when it lacks it).  [extract] descends as stated: a
    mapping gives its value under the key, a sequence gives the
    sequence of the extractions from its elements, and anything else
    gives the empty sequence. *)
Theorem gather_reconstructs_shape (step : Step) (o : outputs)
    (d : nat -> list (string * value)) (decl : OutDecl) :
  decl ∈ step_out step ->
  dict_lookup
    (CWLGather_run step (outputs_fulfil (fun j => VDict (d j)) o))
    (sn decl)
  = Some (outputs_fulfil
            (fun j => default VNone (dict_lookup (d j) (sn decl))) o)
  /\ (forall m k, extract (VDict m) k = default VNone (dict_lookup m k))
  /\ (forall l k, extract (VList l) k = VList ((fun x => extract x k) <$> l))
  /\ (forall v k, (forall m, v <> VDict m) -> (forall l, v <> VList l) ->
                  extract v k = VList []).
Proof.
  intros Hdecl. split; [|split; [done | split; [done|]]].
  - unfold CWLGather_run.
    rewrite (dict_lookup_collect
               (extract (outputs_fulfil (fun j => VDict (d j)) o))).
    + by rewrite extract_outputs_fulfil.
    + left. by apply list_elem_of_fmap_2.
  - intros v k Hd Hl. destruct v; try done.
    + by destruct (Hl l).
    + by destruct (Hd d0).
Qed.
End gather_facts.

(** ** The scheduling loop *)

Lemma dom_publish (pr : gmap string producer) (fo : nat) (outs : list string) :
  dom (publish pr fo outs) = dom pr ∪ list_to_set outs.
Proof.
  unfold publish. revert pr. induction outs as [|o outs IH]; intros pr; simpl.
  - set_solver.
  - rewrite IH, dom_insert_L. set_solver.
Qed.

Lemma sources_promised_spec (pr : gmap string producer) (step : Step) :
  sources_promised pr step = true <->
  forall inp s, inp ∈ step_inputs step -> s ∈ sources_of inp -> s ∈ dom pr.
Proof.
  unfold sources_promised. rewrite forallb_forall. split.
  - intros Hall inp s Hinp Hs. apply list_elem_of_In in Hinp.
    specialize (Hall inp Hinp). rewrite forallb_forall in Hall.
    apply list_elem_of_In in Hs. specialize (Hall s Hs).
    apply bool_decide_eq_true in Hall. by apply elem_of_dom.
  - intros Hall inp Hinp. apply forallb_forall. intros s Hs.
    apply bool_decide_eq_true, elem_of_dom.
    apply (Hall inp s); by apply list_elem_of_In.
Qed.

Lemma sources_promised_mono (pr pr' : gmap string producer) (step : Step) :
  dom pr ⊆ dom pr' ->
  sources_promised pr step = true -> sources_promised pr' step = true.
Proof. rewrite !sources_promised_spec. intros Hsub Hs inp s ? ?. eauto. Qed.

Lemma sources_promised_dom (pr pr' : gmap string producer) (step : Step) :
  dom pr = dom pr' -> sources_promised pr step = sources_promised pr' step.
Proof.
  intros Hdom.
  destruct (sources_promised pr step) eqn:E, (sources_promised pr' step) eqn:E';
    try done.
  - apply (sources_promised_mono pr pr') in E; [congruence | by rewrite Hdom].
  - apply (sources_promised_mono pr' pr) in E'; [congruence | by rewrite Hdom].
Qed.

Lemma outputs_promised_spec (pr : gmap string producer)
    (outs : list OutputPort) :
  outputs_promised pr outs = true <->
  forall out s, out ∈ outs -> out_source out = Some s -> s ∈ dom pr.
Proof.
  unfold outputs_promised. rewrite forallb_forall. split.
  - intros Hall out s Hout Hs. apply list_elem_of_In in Hout.
    specialize (Hall out Hout). rewrite Hs in Hall.
    apply bool_decide_eq_true in Hall. by apply elem_of_dom.
  - intros Hall out Hout. destruct (out_source out) as [s|] eqn:Hs; [|done].
    apply bool_decide_eq_true, elem_of_dom.
    apply (Hall out s); [by apply list_elem_of_In | done].
Qed.

Lemma outputs_promised_dom (pr pr' : gmap string producer)
    (outs : list OutputPort) :
  dom pr = dom pr' -> outputs_promised pr outs = outputs_promised pr' outs.
Proof.
  intros Hdom.
  destruct (outputs_promised pr outs) eqn:E, (outputs_promised pr' outs) eqn:E';
    try done.
  - rewrite outputs_promised_spec in E. rewrite Hdom in E.
    rewrite <- outputs_promised_spec in E. congruence.
  - rewrite outputs_promised_spec in E'. rewrite <- Hdom in E'.
    rewrite <- outputs_promised_spec in E'. congruence.
Qed.

Lemma promise_of_dom (pr : gmap string producer) (s : string) :
  s ∈ dom pr -> exists p, promise_of pr s = Ok p.
Proof.
  intros [p Hp]%elem_of_dom. exists p. unfold promise_of. by rewrite Hp.
Qed.

Section scheduling_facts.
Context `{Cwltool}.

Lemma merge_sources_ok pr src :
  (forall s, s ∈ aslist src -> s ∈ dom pr) ->
  exists l, merge_sources pr src = Ok l.
Proof.
  unfold merge_sources. induction (aslist src) as [|s l IH]; intros Hs.
  - by exists [].
  - destruct (promise_of_dom pr s) as [p Hp]; [apply Hs; left|].
    destruct IH as [l' Hl']; [intros s' Hs'; apply Hs; by right|].
    simpl. rewrite Hp; simpl. rewrite Hl'; simpl. eauto.
Qed.

Lemma build_input_ok pr scattered req jobobj inp :
  port_ok inp = true ->
  (forall s, s ∈ sources_of inp -> s ∈ dom pr) ->
  exists jobobj', build_input pr scattered req jobobj inp = Ok jobobj'.
Proof.
  unfold port_ok, sources_of, build_input. intros Hok Hs.
  assert (Hfrom : forall jobobj1 : list (string * entry handle),
    exists jobobj',
      match inp_valueFrom inp with
      | Some expr =>
          if scattered then Ok jobobj1
          else match dict_lookup jobobj1 (shortname (inp_id inp)) with
               | Some inner =>
                   Ok (dict_set jobobj1 (shortname (inp_id inp))
                         (StepValueFrom expr inner req))
               | None =>
                   Ok (dict_set jobobj1 (shortname (inp_id inp))
                         (StepValueFrom expr
                            (Tagged "None" (Held (VDict [("None", VNone)])))
                            req))
               end
      | None => Ok jobobj1
      end = Ok jobobj').
  { intros jobobj1. destruct (inp_valueFrom inp); [|eauto].
    destruct scattered; [eauto|]. destruct (dict_lookup _ _); eauto. }
  destruct (inp_source inp) as [src|].
  - destruct (truthy (inp_linkMerge inp) || Nat.ltb 1 (length (aslist src))).
    + destruct (merge_sources_ok pr src Hs) as [l Hl].
      destruct (String.eqb _ "merge_nested").
      * rewrite Hl; simpl. apply Hfrom.
      * simpl in Hok. rewrite Hok, Hl; simpl. apply Hfrom.
    + destruct src as [s|l]; [|done].
      destruct (promise_of_dom pr s) as [p Hp]; [apply Hs; left|].
      rewrite Hp; simpl. apply Hfrom.
  - destruct (inp_default inp); simpl; apply Hfrom.
Qed.

Lemma build_inputs_ok pr scattered req inps jobobj :
  (forall inp, inp ∈ inps -> port_ok inp = true) ->
  (forall inp s, inp ∈ inps -> s ∈ sources_of inp -> s ∈ dom pr) ->
  exists jobobj',
    foldM (build_input pr scattered req) jobobj inps = Ok jobobj'.
Proof.
  revert jobobj. induction inps as [|inp inps IH]; intros jobobj Hok Hs.
  - by exists jobobj.
  - destruct (build_input_ok pr scattered req jobobj inp) as [j1 Hj1];
      [apply Hok; left | intros s; apply Hs; left |].
    simpl. rewrite Hj1; simpl. apply IH.
    + intros i Hi. apply Hok. by right.
    + intros i s Hi. apply Hs. by right.
Qed.

Lemma connect_length pr wfjob step h c h' :
  connect pr wfjob step h = Ok (c, h') -> length h' = length h.
Proof.
  unfold connect. generalize (step_inputs step ≫= sources_of).
  intros l. revert c h' h. generalize false.
  induction l as [|s l IH]; intros c0 c h' h; simpl.
  - by intros [= _ ->].
  - destruct (promise_of pr s) as [p|]; simpl; [|done].
    destruct (hasChild (p_job p) wfjob h); intros Hrun.
    + by apply IH in Hrun.
    + apply IH in Hrun. by rewrite Hrun, length_addChild.
Qed.

Lemma connect_ok pr wfjob step h :
  sources_promised pr step = true ->
  exists c h', connect pr wfjob step h = Ok (c, h').
Proof.
  rewrite sources_promised_spec. intros Hs. unfold connect.
  assert (Hl : forall s, s ∈ step_inputs step ≫= sources_of -> s ∈ dom pr).
  { intros s (inp & Hs' & Hinp)%list_elem_of_bind. eauto. }
  revert Hl. generalize (step_inputs step ≫= sources_of).
  intros l. revert h. generalize false.
  induction l as [|s l IH]; intros c0 h Hl; simpl; [eauto|].
  destruct (promise_of_dom pr s) as [p ->]; [apply Hl; left|]. simpl.
  destruct (hasChild (p_job p) wfjob h);
    apply IH; intros s' Hs'; apply Hl; by right.
Qed.

(** What scheduling a step does to the two dicts and to the graph. *)
Lemma schedule_step_inv self cwlwf kw step st h st1 h1 :
  schedule_step self cwlwf kw step st h = Ok (st1, h1) ->
  exists fo,
    jobs st1 = <[step_id step := fo]> (jobs st)
    /\ promises st1 = publish (promises st) fo (step_outputs step)
    /\ length h1 = length h + jobs_for step.
Proof.
  unfold schedule_step, jobs_for.
  destruct (foldM _ _ _) as [jobobj|]; simpl; [|done].
  destruct (bool_decide (is_Some (step_scatter step))).
  - simpl. destruct (connect _ _ _ _) as [[c h2]|] eqn:Hc; simpl; [|done].
    apply connect_length in Hc. intros [= <- <-]. eexists. simpl.
    split; [done | split; [done|]].
    assert (length h2 = length h + 2) as Hlen.
    { rewrite Hc. unfold addFollowOn. rewrite length_alter, !length_app.
      simpl. lia. }
    destruct c; [done | by rewrite length_addChild].
  - destruct (makeJob_spec (embedded_tool step) (IndirectDict jobobj)
                (with_step_inputs (step_inputs step) kw) h)
      as (node & rest & -> & Hrest & _).
    pose proof (njobs_pos (embedded_tool step)) as Hpos.
    destruct (connect _ _ _ _) as [[c h2]|] eqn:Hc; simpl; [|done].
    apply connect_length in Hc. intros [= <- <-]. eexists. simpl.
    split; [done | split; [done|]].
    assert (length h2 = length h + njobs (embedded_tool step)) as Hlen.
    { rewrite Hc, length_app. simpl. lia. }
    destruct c; [done | by rewrite length_addChild].
Qed.

Lemma schedule_step_ok self cwlwf kw step st h :
  (forall inp, inp ∈ step_inputs step -> port_ok inp = true) ->
  sources_promised (promises st) step = true ->
  exists st1 h1, schedule_step self cwlwf kw step st h = Ok (st1, h1).
Proof.
  intros Hok Hs. unfold schedule_step.
  destruct (build_inputs_ok (promises st)
              (bool_decide (is_Some (step_scatter step)))
              (tool_requirements cwlwf) (step_inputs step) [])
    as [jobobj ->]; [done | by apply sources_promised_spec |]. simpl.
  destruct (bool_decide (is_Some (step_scatter step))).
  - simpl.
    destruct (connect_ok (promises st) (length h) step
                (addFollowOn (length h) (length (h ++ [plain_job
                   (CWLScatter step (IndirectDict jobobj) kw)]))
                   ((h ++ [plain_job (CWLScatter step (IndirectDict jobobj) kw)])
                    ++ [plain_job (CWLGather step (Rv (length h)))])))
      as (c & h2 & ->); [done|]. simpl. eauto.
  - destruct (makeJob (embedded_tool step) (IndirectDict jobobj)
                (with_step_inputs (step_inputs step) kw) h)
      as [[wfjob followOn] h1].
    destruct (connect_ok (promises st) wfjob step h1) as (c & h2 & ->);
      [done|]. simpl. eauto.
Qed.

(** What one iteration of the [for] loop does. *)
Lemma visit_step_inv self cwlwf kw f st h step f' st1 h1 :
  visit_step self cwlwf kw (f, st, h) step = Ok (f', st1, h1) ->
  f' = (f && sources_promised (promises st1) step)
  /\ ((ready st step = true
       /\ exists fo,
            jobs st1 = <[step_id step := fo]> (jobs st)
            /\ promises st1 = publish (promises st) fo (step_outputs step)
            /\ length h1 = length h + jobs_for step)
      \/ (ready st step = false /\ st1 = st /\ h1 = h)).
Proof.
  unfold visit_step. destruct (ready st step) eqn:Hr.
  - destruct (schedule_step _ _ _ _ _ _) as [[st2 h2]|] eqn:Hs; simpl;
      [|done].
    intros [= <- <- <-]. split; [done|]. left. split; [done|].
    by apply schedule_step_inv in Hs.
  - simpl. intros [= <- <- <-]. split; [done|]. by right.
Qed.

Lemma visit_step_ok self cwlwf kw acc step :
  (forall inp, inp ∈ step_inputs step -> port_ok inp = true) ->
  exists r, visit_step self cwlwf kw acc step = Ok r.
Proof.
  intros Hok. destruct acc as [[f st] h]. unfold visit_step.
  destruct (ready st step) eqn:Hr; [|simpl; eauto].
  apply andb_prop in Hr as [_ Hs].
  destruct (schedule_step_ok self cwlwf kw step st h) as (st1 & h1 & ->);
    [done..|]. simpl. eauto.
Qed.

Lemma ready_false_registered st step :
  step_id step ∈ dom (jobs st) -> ready st step = false.
Proof.
  intros [j Hj]%elem_of_dom. unfold ready.
  rewrite bool_decide_eq_false_2; [done|]. by rewrite Hj.
Qed.

Lemma ready_true st step :
  ready st step = true ->
  (step_id step ∉ dom (jobs st))
  /\ sources_promised (promises st) step = true.
Proof.
  unfold ready. intros [Hj Hs]%andb_prop. split; [|done].
  apply bool_decide_eq_true in Hj. by apply not_elem_of_dom.
Qed.

(** The step itself, seen from the states before and after its visit. *)
Lemma visit_step_facts self cwlwf kw f st h step f' st1 h1 :
  visit_step self cwlwf kw (f, st, h) step = Ok (f', st1, h1) ->
  f' = (f && sources_promised (promises st1) step)
  /\ dom (promises st) ⊆ dom (promises st1)
  /\ dom (jobs st) ⊆ dom (jobs st1)
  /\ (sources_promised (promises st1) step = true ->
      step_id step ∈ dom (jobs st1))
  /\ (ready st step = true ->
      size (dom (jobs st)) < size (dom (jobs st1)))
  /\ (dom (promises st1) ⊆ dom (promises st) -> ready st1 step = false).
Proof.
  intros (Hf & [(Hr & fo & Hj & Hp & _) | (Hr & -> & ->)])%visit_step_inv.
  - destruct (ready_true _ _ Hr) as [Hnew Hs].
    rewrite Hj, Hp, dom_publish, dom_insert_L.
    split; [by rewrite Hp in Hf|].
    split; [set_solver|]. split; [set_solver|].
    split; [set_solver|]. split.
    + intros _. rewrite size_union by set_solver.
      rewrite size_singleton. lia.
    + intros _. apply ready_false_registered. rewrite Hj, dom_insert_L.
      set_solver.
  - split; [done|]. split; [done|]. split; [done|]. split.
    + intros Hs. unfold ready in Hr. rewrite Hs, andb_true_r in Hr.
      apply bool_decide_eq_false in Hr. apply elem_of_dom.
      by destruct (jobs st !! step_id step); [eauto|].
    + split; [by rewrite Hr|done].
Qed.

Lemma ready_false_later st st' step :
  dom (promises st) = dom (promises st') ->
  dom (jobs st) ⊆ dom (jobs st') ->
  ready st step = false -> ready st' step = false.
Proof.
  intros Hp Hj. unfold ready.
  rewrite (sources_promised_dom _ _ _ Hp). intros Hr.
  apply andb_false_iff in Hr as [Hr|Hr]; [|by rewrite Hr, andb_false_r].
  apply bool_decide_eq_false in Hr.
  rewrite bool_decide_eq_false_2; [done|].
  intros Hn. apply Hr. apply not_elem_of_dom.
  apply not_elem_of_dom in Hn. set_solver.
Qed.

(** The [for] loop over the steps [l], from its result. *)
Lemma visit_all_inv self cwlwf kw l f st h f' st' h' :
  foldM (visit_step self cwlwf kw) (f, st, h) l = Ok (f', st', h') ->
  dom (promises st) ⊆ dom (promises st')
  /\ dom (jobs st) ⊆ dom (jobs st')
  /\ (f' = true ->
      f = true /\ forall x, x ∈ l -> step_id x ∈ dom (jobs st'))
  /\ ((exists x, x ∈ l /\ ready st x = true) ->
      size (dom (jobs st)) < size (dom (jobs st')))
  /\ ((forall x, x ∈ l -> sources_promised (promises st) x = true) ->
      f' = f)
  /\ (dom (promises st') ⊆ dom (promises st) ->
      (forall x, x ∈ l -> ready st' x = false)
      /\ f' = (f && forallb (sources_promised (promises st')) l)).
Proof.
  revert f st h. induction l as [|x l IH]; intros f st h.
  - simpl. intros [= <- <- <-].
    split; [done|]. split; [done|]. split.
    { intros ->. split; [done|]. by intros x ?%elem_of_nil. }
    split.
    { by intros (x & ?%elem_of_nil & _). }
    split; [done|]. intros _. split.
    { by intros x ?%elem_of_nil. }
    by rewrite andb_true_r.
  - rewrite foldM_cons.
    destruct (visit_step self cwlwf kw (f, st, h) x)
      as [[[f1 st1] h1]|] eqn:Hx; cbn [mbind result_bind]; [|done].
    intros Hrest.
    destruct (visit_step_inv _ _ _ _ _ _ _ _ _ _ Hx) as [_ Hinv].
    apply visit_step_facts in Hx
      as (Hf1 & Hp1 & Hj1 & Hreg1 & Hgrow1 & Hidle1).
    specialize (IH _ _ _ Hrest)
      as (Hp & Hj & Htrue & Hgrow & Hkeep & Hstall).
    split; [set_solver|]. split; [set_solver|]. split; [|split; [|split]].
    + intros Hf'. destruct (Htrue Hf') as [Hf1' Hl]. subst f1.
      apply andb_prop in Hf1' as [-> Hs].
      split; [done|]. intros y [->|Hy]%elem_of_cons; [|by apply Hl].
      apply Hj, Hreg1, Hs.
    + intros (y & Hy & Hr).
      pose proof (subseteq_size _ _ Hj1). pose proof (subseteq_size _ _ Hj).
      destruct (ready st x) eqn:Hrx.
      * specialize (Hgrow1 eq_refl). lia.
      * destruct Hinv as [[? _]|(_ & -> & ->)]; [congruence|].
        apply elem_of_cons in Hy as [->|Hy]; [congruence|].
        enough (size (dom (jobs st)) < size (dom (jobs st'))) by lia.
        apply Hgrow. eauto.
    + intros Hall. rewrite Hkeep.
      * rewrite Hf1.
        rewrite (sources_promised_mono (promises st) (promises st1) x Hp1);
          [by rewrite andb_true_r | apply Hall; left].
      * intros y Hy.
        apply (sources_promised_mono (promises st)); [done|].
        apply Hall. by right.
    + intros Hback.
      assert (dom (promises st1) = dom (promises st')) as Heq1
        by set_solver.
      destruct Hstall as [Hidle Hf']; [set_solver|].
      split.
      * intros y [->|Hy]%elem_of_cons; [|by apply Hidle].
        apply (ready_false_later st1); [done | done |].
        apply Hidle1. set_solver.
      * rewrite Hf', Hf1, (sources_promised_dom _ _ x Heq1).
        simpl. by rewrite andb_assoc.
Qed.

(** A pass in which no step is ready changes nothing. *)
Lemma visit_all_idle self cwlwf kw l f st h :
  (forall x, x ∈ l -> ready st x = false) ->
  foldM (visit_step self cwlwf kw) (f, st, h) l
  = Ok (f && forallb (sources_promised (promises st)) l, st, h).
Proof.
  revert f. induction l as [|x l IH]; intros f Hidle; simpl.
  - by rewrite andb_true_r.
  - unfold visit_step at 1. rewrite (Hidle x) by left. simpl.
    rewrite IH; [by rewrite andb_assoc|].
    intros y Hy. apply Hidle. by right.
Qed.

Lemma schedule_stuck self cwlwf kw st h :
  pass self cwlwf kw st h = Ok (false, st, h) ->
  forall fuel, schedule fuel self cwlwf kw st h = None.
Proof.
  intros Hpass fuel. induction fuel as [|fuel IH]; simpl; [done|].
  by rewrite Hpass.
Qed.

(** C1, as the code has it: when a pass makes no new insertion into
    [promises] and leaves [alloutputs_fufilled] false (a source of a
    step or of a workflow output is still missing), the next pass
    finds the same state and the same flag, and so does every later
    one: the loop raises nothing and does not end within any number
    of passes. *)
Theorem stalled_pass_repeats_forever self cwlwf kw st h st' h' :
  pass self cwlwf kw st h = Ok (false, st', h') ->
  dom (promises st') = dom (promises st) ->
  pass self cwlwf kw st' h' = Ok (false, st', h')
  /\ forall fuel, schedule fuel self cwlwf kw st' h' = None.
Proof.
  intros Hpass Hdom.
  assert (Hagain : pass self cwlwf kw st' h' = Ok (false, st', h')).
  { unfold pass in *.
    destruct (foldM _ _ _) as [[[f1 st1] h1]|] eqn:Hfold; simpl in Hpass;
      [|done].
    injection Hpass as Hflag <- <-.
    apply visit_all_inv in Hfold as (_ & _ & _ & _ & _ & Hstall).
    destruct Hstall as [Hidle Hf1]; [by rewrite Hdom|].
    rewrite visit_all_idle by done. simpl.
    rewrite Hf1 in Hflag. simpl in Hflag. by rewrite Hflag. }
  split; [done|]. by apply schedule_stuck.
Qed.

Lemma NoDup_fmap_eq {A B : Type} (f : A -> B) (l : list A) x y :
  NoDup (f <$> l) -> x ∈ l -> y ∈ l -> f x = f y -> x = y.
Proof.
  induction l as [|a l IH]; csimpl; intros Hnd Hx Hy Hxy.
  - by apply elem_of_nil in Hx.
  - apply NoDup_cons in Hnd as [Ha Hnd].
    apply elem_of_cons in Hx as [->|Hx]; apply elem_of_cons in Hy as [->|Hy].
    + done.
    + destruct Ha. rewrite Hxy. by apply list_elem_of_fmap_2.
    + destruct Ha. rewrite <- Hxy. by apply list_elem_of_fmap_2.
    + by apply IH.
Qed.

Lemma constructed_insert_notin (jobs : gmap string nat) l id fo :
  id ∉ step_id <$> l ->
  constructed (<[id := fo]> jobs) l = constructed jobs l.
Proof.
  unfold constructed. induction l as [|x l IH]; csimpl; [done|].
  intros [Hne Hl]%not_elem_of_cons.
  rewrite lookup_insert_ne by done. by rewrite IH.
Qed.

Lemma constructed_insert (jobs : gmap string nat) l x fo :
  NoDup (step_id <$> l) -> x ∈ l -> jobs !! step_id x = None ->
  constructed (<[step_id x := fo]> jobs) l
  = constructed jobs l + jobs_for x.
Proof.
  induction l as [|y l IH]; csimpl; intros Hnd Hx Hnew.
  - by apply elem_of_nil in Hx.
  - apply NoDup_cons in Hnd as [Hy Hnd]. unfold constructed; csimpl.
    fold (constructed (<[step_id x := fo]> jobs) l).
    fold (constructed jobs l).
    destruct (decide (step_id y = step_id x)) as [Heq|Hne].
    + assert (x = y) as <-.
      { apply elem_of_cons in Hx as [->|Hx]; [done|].
        destruct Hy. rewrite Heq. by apply list_elem_of_fmap_2. }
      rewrite lookup_insert_eq, Hnew. simpl.
      rewrite constructed_insert_notin by done. lia.
    + apply elem_of_cons in Hx as [->|Hx]; [done|].
      rewrite lookup_insert_ne by done. rewrite IH by done. lia.
Qed.


Section well_formed.
Variables (self : nat) (cwlwf : Tool) (kw : kwargs) (h0 : list JobNode).
Hypothesis WF : well_formed cwlwf.

Lemma visit_step_preserves f st h x f' st1 h1 :
  x ∈ steps cwlwf ->
  sched_inv cwlwf h0 st h ->
  visit_step self cwlwf kw (f, st, h) x = Ok (f', st1, h1) ->
  sched_inv cwlwf h0 st1 h1.
Proof.
  intros Hx [Hin Hout Hj Hh]
    (_ & [(Hr & fo & Hj1 & Hp1 & Hh1) | (_ & -> & ->)])%visit_step_inv;
    [|done].
  destruct (ready_true _ _ Hr) as [Hnew _].
  split.
  - intros inp Hinp. rewrite Hp1, dom_publish. set_solver.
  - intros y out Hy Hreg Hout'. rewrite Hp1, dom_publish.
    rewrite Hj1, dom_insert_L in Hreg.
    apply elem_of_union in Hreg as [Hreg|Hreg].
    + apply elem_of_singleton in Hreg.
      assert (y = x) as -> by
        (by apply (NoDup_fmap_eq step_id (steps cwlwf)), Hreg;
           [apply WF | |]).
      apply elem_of_union_r. by apply elem_of_list_to_set.
    + apply elem_of_union_l. eauto.
  - rewrite Hj1, dom_insert_L.
    apply union_subseteq. split; [|done].
    apply singleton_subseteq_l, elem_of_list_to_set.
    by apply list_elem_of_fmap_2.
  - rewrite Hj1, constructed_insert;
      [lia | apply WF | done | by apply not_elem_of_dom].
Qed.

Lemma visit_all_ok l f st h :
  (forall x, x ∈ l -> x ∈ steps cwlwf) ->
  sched_inv cwlwf h0 st h ->
  exists f' st' h',
    foldM (visit_step self cwlwf kw) (f, st, h) l = Ok (f', st', h')
    /\ sched_inv cwlwf h0 st' h'.
Proof.
  revert f st h. induction l as [|x l IH]; intros f st h Hl Hinv.
  - by exists f, st, h.
  - destruct (visit_step_ok self cwlwf kw (f, st, h) x)
      as [[[f1 st1] h1] Hx].
    { intros inp Hinp. apply (wf_ports _ WF x); [apply Hl; left | done]. }
    destruct (IH f1 st1 h1) as (f' & st' & h' & Hrest & Hinv').
    { intros y Hy. apply Hl. by right. }
    { eapply visit_step_preserves; [|done..]. apply Hl. left. }
    exists f', st', h'. rewrite foldM_cons, Hx. by split.
Qed.

(** When no step is ready, everything produced is promised. *)
Lemma produced_promised st h s :
  sched_inv cwlwf h0 st h ->
  (forall x, x ∈ steps cwlwf -> ready st x = false) ->
  produced cwlwf s -> s ∈ dom (promises st).
Proof.
  intros [Hin Hout _ _] Hidle Hs.
  induction Hs as [inp Hinp | x out Hx Hout' _ IH]; [by apply Hin|].
  apply (Hout x); [done | | done].
  specialize (Hidle x Hx). unfold ready in Hidle.
  rewrite (proj2 (sources_promised_spec _ _) IH), andb_true_r in Hidle.
  apply bool_decide_eq_false in Hidle. apply elem_of_dom.
  by destruct (jobs st !! step_id x); [eauto|].
Qed.

(** A pass on a well-formed workflow: it raises nothing, and either
    ends the loop with every step registered or registers a step
    more. *)
Lemma pass_spec st h :
  sched_inv cwlwf h0 st h ->
  exists flag st1 h1,
    pass self cwlwf kw st h = Ok (flag, st1, h1)
    /\ sched_inv cwlwf h0 st1 h1
    /\ (flag = true ->
        forall x, x ∈ steps cwlwf -> step_id x ∈ dom (jobs st1))
    /\ (flag = false -> size (dom (jobs st)) < size (dom (jobs st1))).
Proof.
  intros Hinv. unfold pass.
  destruct (visit_all_ok (steps cwlwf) true st h)
    as (f1 & st1 & h1 & Hfold & Hinv1); [done..|].
  rewrite Hfold. simpl. eexists _, st1, h1. split; [done|].
  split; [done|].
  apply visit_all_inv in Hfold
    as (Hp & Hj & Htrue & Hgrow & Hkeep & _).
  split.
  - intros [Hf1 _]%andb_prop. by apply Htrue.
  - intros Hflag.
    destruct (existsb (ready st) (steps cwlwf)) eqn:Hex.
    + apply existsb_exists in Hex as (x & Hx & Hr). apply Hgrow.
      exists x. by rewrite list_elem_of_In.
    + exfalso.
      assert (Hidle : forall x, x ∈ steps cwlwf -> ready st x = false).
      { intros x Hx. destruct (ready st x) eqn:Hr; [|done].
        assert (existsb (ready st) (steps cwlwf) = true); [|congruence].
        apply existsb_exists. exists x. by rewrite <- list_elem_of_In. }
      assert (Hall : forall s, produced cwlwf s -> s ∈ dom (promises st))
        by (intros s; by apply (produced_promised st h)).
      rewrite Hkeep in Hflag.
      * simpl in Hflag.
        apply not_true_iff_false in Hflag. apply Hflag.
        apply outputs_promised_spec. intros out s Hout Hs.
        apply Hp, Hall. by apply (wf_outputs _ WF out).
      * intros x Hx. apply sources_promised_spec. intros inp s Hinp Hs.
        apply Hall. by apply (wf_sources _ WF x inp).
Qed.

Lemma size_jobs_bound st h :
  sched_inv cwlwf h0 st h ->
  size (dom (jobs st)) <= length (steps cwlwf).
Proof.
  intros [_ _ Hj _]. apply subseteq_size in Hj.
  rewrite size_list_to_set in Hj by apply WF.
  by rewrite length_fmap in Hj.
Qed.

(** The loop ends within one pass more than there are steps left to
    register. *)
Lemma schedule_terminates u st h :
  sched_inv cwlwf h0 st h ->
  length (steps cwlwf) <= size (dom (jobs st)) + u ->
  exists st' h',
    (forall fuel, u < fuel ->
       schedule fuel self cwlwf kw st h = Some (Ok (st', h')))
    /\ sched_inv cwlwf h0 st' h'
    /\ (forall x, x ∈ steps cwlwf -> step_id x ∈ dom (jobs st')).
Proof.
  revert st h. induction u as [|u IH]; intros st h Hinv Hu;
    destruct (pass_spec st h Hinv)
      as (flag & st1 & h1 & Hpass & Hinv1 & Htrue & Hfalse);
    pose proof (size_jobs_bound st1 h1 Hinv1) as Hbound;
    destruct flag.
  - exists st1, h1. split; [|by auto].
    intros [|fuel] Hfuel; [lia|]. simpl. by rewrite Hpass.
  - specialize (Hfalse eq_refl). lia.
  - exists st1, h1. split; [|by auto].
    intros [|fuel] Hfuel; [lia|]. simpl. by rewrite Hpass.
  - specialize (Hfalse eq_refl).
    destruct (IH st1 h1 Hinv1) as (st' & h' & Hrun & Hinv' & Hall); [lia|].
    exists st', h'. split; [|by auto].
    intros [|fuel] Hfuel; [lia|]. simpl. rewrite Hpass.
    apply Hrun. lia.
Qed.
End well_formed.

Lemma dom_initial_promises self cwlwf cwljob :
  dom (initial_promises self cwlwf cwljob)
  = list_to_set (inp_id <$> tool_inputs cwlwf).
Proof.
  unfold initial_promises.
  enough (forall l (pr : gmap string producer),
    dom (foldl (fun pr inp => <[inp_id inp := SelfJob self cwljob]> pr) pr l)
    = dom pr ∪ list_to_set (inp_id <$> l)) as ->
    by (rewrite dom_empty_L; set_solver).
  induction l as [|inp l IH]; intros pr; csimpl.
  - set_solver.
  - rewrite IH, dom_insert_L. set_solver.
Qed.

End scheduling_facts.

(** ** More on resolution *)

Section resolve_more.
Context `{Cwltool}.

Lemma dict_lookup_fmap_key {A B : Type} (f : string -> B)
    (l : list (string * A)) (k : string) :
  k ∈ l.*1 ->
  dict_lookup ((fun kv => (kv.1, f kv.1)) <$> l) k = Some (f k).
Proof.
  induction l as [|[k' a] l IH]; csimpl; intros Hk.
  - by apply elem_of_nil in Hk.
  - destruct (String.eqb_spec k' k) as [->|Hne]; [done|].
    apply elem_of_cons in Hk as [->|Hk]; [done | by apply IH].
Qed.

Lemma inner_dict (items : list (string * entry value)) :
  NoDup items.*1 ->
  foldl (fun inner kv =>
           match kv.2 with
           | StepValueFrom _ i _ => dict_set inner kv.1 i
           | v => dict_set inner kv.1 v
           end) [] items
  = (fun kv => (kv.1, inner_of kv.2)) <$> items.
Proof.
  intros Hnd.
  transitivity (foldl (fun acc (x : string * entry value) =>
                         dict_set acc x.1 (inner_of x.2)) [] items).
  - generalize (@nil (string * entry value)).
    induction items as [|[k e] items IH]; intros d; simpl; [done|].
    apply NoDup_cons in Hnd as [_ Hnd].
    rewrite <- (IH Hnd). by destruct e.
  - by rewrite (dict_build fst (fun x => inner_of x.2)).
Qed.

(** X1: [resolve_indirect] evaluates the expressions of a job object in
    a second phase.  Every entry is first resolved without its
    expression, to [val k]; then the expression of every
    [StepValueFrom] is evaluated once, with the whole dict of these
    first values as its inputs and the first value of its own key as its
    context.  An expression never sees the evaluated value of another
    key, and the keys keep their order. *)
Theorem resolve_indirect_two_phase (items : list (string * entry value))
    (val out : string -> value) :
  NoDup items.*1 ->
  (forall k e, (k, e) ∈ items -> resolve_entry (inner_of e) = Ok (val k)) ->
  (forall k expr i req, (k, StepValueFrom expr i req) ∈ items ->
     do_eval expr ((fun kv => (kv.1, val kv.1)) <$> items) req (val k)
     = Some (out k)) ->
  (forall k e, (k, e) ∈ items -> is_StepValueFrom e = false ->
     out k = val k) ->
  resolve_indirect (IndirectDict items)
  = Ok ((fun kv => (kv.1, out kv.1)) <$> items).
Proof.
  intros Hnd Hval Hexpr Hplain. unfold resolve_indirect.
  rewrite inner_dict by done.
  set (res := (fun kv => (kv.1, val kv.1)) <$> items).
  assert (Hres : _resolve_indirect_inner
                   (IndirectDict ((fun kv => (kv.1, inner_of kv.2)) <$> items))
                 = Ok res).
  { unfold _resolve_indirect_inner.
    rewrite (foldM_dict_build fst (fun kv => resolve_entry kv.2)
               (fun kv => val kv.1)); simpl.
    - unfold res. f_equal. rewrite <- list_fmap_compose.
      by apply list_fmap_ext.
    - rewrite <- list_fmap_compose.
      replace (fst ∘ _ <$> items) with items.*1; [done|].
      by apply list_fmap_ext.
    - apply Forall_fmap, Forall_forall. intros [k e] Hin. simpl.
      by apply (Hval k e). }
  rewrite Hres. cbn [mbind result_bind].
  destruct (existsb _ items) eqn:Hneed.
  - rewrite (foldM_ext _ (fun ev kv => v ← Ok (out kv.1);
                                        Ok (dict_set ev kv.1 v))).
    + rewrite (foldM_dict_build fst (fun kv => Ok (out kv.1))
                 (fun kv => out kv.1)); [done | done |].
      by apply Forall_forall.
    + intros ev [k e] Hin. simpl.
      unfold dict_getitem, res.
      rewrite (dict_lookup_fmap_key val)
        by (by apply (list_elem_of_fmap_2 fst _ (k, e))).
      simpl. destruct e as [key h|srcs|srcs|expr i req] eqn:He;
        try (by rewrite (Hplain k e) by (by subst)).
      unfold StepValueFrom_do_eval, expression_do_eval.
      by rewrite (Hexpr k expr i req Hin).
  - f_equal. apply list_fmap_ext. intros _ [k e] Hin%list_elem_of_lookup_2.
    simpl. f_equal. symmetry. apply (Hplain k e Hin).
    destruct (is_StepValueFrom e) eqn:He; [|done].
    assert (existsb (fun kv : string * entry value => is_StepValueFrom kv.2)
              items = true); [|congruence].
    apply existsb_exists. exists (k, e). by rewrite <- list_elem_of_In.
Qed.

Lemma mapM_raise_KeyError (sources : list (string * value)) :
  Forall (fun src => exists d, src.2 = VDict d) sources ->
  Exists (fun src => exists d, src.2 = VDict d /\ dict_lookup d src.1 = None)
    sources ->
  mapM (fun v => py_getitem v.2 v.1) sources = Raise KeyError.
Proof.
  intros Hall Hex. induction Hall as [|[k h] l [d Hd] _ IH]; simpl.
  - by apply Exists_nil in Hex.
  - simpl in Hd. subst h. simpl. unfold dict_getitem.
    apply Exists_cons in Hex as [(d' & [= <-] & Hk)|Hex].
    + simpl in Hk. by rewrite Hk.
    + destruct (dict_lookup d k); simpl; [|done]. by rewrite IH.
Qed.

(** X2: a merge reads its sources with [v[1][v[0]]]: when the result
    of some source lacks the key, resolving the input raises [KeyError]
    for both kinds of merge, where a tuple gives [None]. *)
Theorem merge_missing_key_raises (sources : list (string * value))
    (k : string) :
  Forall (fun src => exists d, src.2 = VDict d) sources ->
  Exists (fun src => exists d, src.2 = VDict d /\ dict_lookup d src.1 = None)
    sources ->
  resolve_indirect (IndirectDict [(k, MergeInputsNested sources)])
  = Raise KeyError
  /\ resolve_indirect (IndirectDict [(k, MergeInputsFlattened sources)])
     = Raise KeyError.
Proof.
  intros Hall Hex. split.
  - unfold resolve_indirect, _resolve_indirect_inner. simpl.
    unfold MergeInputsNested_resolve.
    by rewrite mapM_raise_KeyError.
  - unfold resolve_indirect, _resolve_indirect_inner. simpl.
    unfold MergeInputsFlattened_resolve.
    enough (forall r,
      foldM (fun r v => x ← py_getitem v.2 v.1;
                        match x with
                        | VList l => Ok (r ++ l)
                        | _ => Ok (r ++ [x])
                        end) r sources = Raise KeyError) as -> by done.
    induction Hall as [|[k' h] l [d Hd] _ IH]; intros r; simpl.
    + by apply Exists_nil in Hex.
    + simpl in Hd. subst h. simpl. unfold dict_getitem.
      apply Exists_cons in Hex as [(d' & [= <-] & Hk)|Hex].
      * simpl in Hk. by rewrite Hk.
      * destruct (dict_lookup d k') as [x|]; simpl; [|done].
        destruct x; simpl; by apply IH.
Qed.

(** X3: what the follow-on [ResolveIndirect] of a workflow returns has
    distinct keys and resolves to itself: the second [resolve_indirect]
    that [main] applies to the result of the run changes nothing and
    raises nothing. *)
Theorem resolve_indirect_settled (d : jobobj value)
    (r : list (string * value)) :
  ResolveIndirect_run d = Ok r ->
  NoDup r.*1
  /\ resolve_indirect (PlainDict r) = Ok r
  /\ ResolveIndirect_run (PlainDict r) = Ok r.
Proof.
  unfold ResolveIndirect_run. intros Hr.
  split; [by apply (resolve_indirect_NoDup d)|].
  split; by apply (resolve_indirect_idempotent d).
Qed.
End resolve_more.

(** ** Files in the job store *)

Section files_facts.
Context `{Host}.

Lemma prefix_toilfs s : String.prefix "toilfs:" ("toilfs:" +:+ s) = true.
Proof. simpl. by destruct s. Qed.

Lemma references_insert m k ref :
  references m -> String.prefix "toilfs:" ref = true ->
  references {| index := <[k := ref]> (index m);
                existing := <[ref := k]> (existing m) |}.
Proof.
  intros [Hi He] Hp. split; simpl; by apply map_Forall_insert_2.
Qed.

Lemma existing_miss m x :
  references m -> String.prefix "toilfs:" x = false ->
  existing m !! x = None.
Proof.
  intros [_ He] Hx. destruct (existing m !! x) as [v|] eqn:E; [|done].
  apply He in E. simpl in E. congruence.
Qed.

Lemma file_maps_references
    (writeFunc : string -> world -> result (string * world))
    (m : filemaps) (x : string) (w : world) :
  references m ->
  (forall u m' w', toilGetFile m x w = Ok (u, m', w') -> references m')
  /\ (forall ref m' w',
        writeFile writeFunc m x w = Ok (ref, m', w') ->
        references m' /\ is_reference ref).
Proof.
  intros Hm. split.
  - intros u m' w'. unfold toilGetFile.
    destruct (String.prefix "toilfs:" x) eqn:Hx; simpl.
    + destruct (readGlobalFile _ _) as [[srcPath w1]|]; simpl; [|done].
      intros [= _ <- _]. by apply references_insert.
    + by intros [= _ <- _].
  - intros ref m' w'. unfold writeFile.
    destruct (String.prefix "toilfs:" x) eqn:Hx.
    { intros [= <- <- _]. split; [done | by left]. }
    destruct (String.prefix "_:" x) eqn:Hl.
    { intros [= <- <- _]. split; [done | by right]. }
    rewrite (existing_miss m x) by done. simpl.
    destruct (index m !! x) as [r|] eqn:Hix.
    + intros [= <- <- _]. split; [done|]. left.
      destruct Hm as [Hi _]. by apply Hi in Hix.
    + destruct (writeFunc _ _) as [[id w1]|]; simpl; [|done].
      intros [= <- <- _]. split; [|left; apply prefix_toilfs].
      apply references_insert; [done | apply prefix_toilfs].
Qed.

(** X4: the two dicts keep holding references into the job store: when
    every value of [index] and every key of [existing] starts with
    [toilfs:], so it is after [toilGetFile] and after [writeFile], and
    what [writeFile] returns is such a reference or a file literal
    ([_:]), never a local path. *)
Theorem file_maps_hold_references
    (writeFunc : string -> world -> result (string * world))
    (m : filemaps) (x : string) (w : world) :
  references m ->
  match toilGetFile m x w with
  | Ok (_, m', _) => references m'
  | Raise _ => True
  end
  /\ match writeFile writeFunc m x w with
     | Ok (ref, m', _) => references m' /\ is_reference ref
     | Raise _ => True
     end.
Proof.
  intros Hm.
  destruct (file_maps_references writeFunc m x w Hm) as [Hget Hwrite].
  split.
  - destruct (toilGetFile m x w) as [[[u m'] w']|]; [|done]. by eapply Hget.
  - destruct (writeFile writeFunc m x w) as [[[ref m'] w']|]; [|done].
    by eapply Hwrite.
Qed.

Lemma prefix_neq p x y :
  String.prefix p x = true -> String.prefix p y = false -> x <> y.
Proof. intros Hx Hy ->. congruence. Qed.

(** X5: [writeFile] writes a file once.  After a call that returned
    [ref], a second call for the same [x] returns [ref] again, with any
    write function and in any world, and changes neither the dicts nor
    the world: the write function is not called. *)
Theorem writeFile_writes_once
    (writeFunc writeFunc' : string -> world -> result (string * world))
    (m m' : filemaps) (x ref : string) (w w' w2 : world) :
  writeFile writeFunc m x w = Ok (ref, m', w') ->
  writeFile writeFunc' m' x w2 = Ok (ref, m', w2).
Proof.
  unfold writeFile.
  destruct (String.prefix "toilfs:" x) eqn:Hx.
  { by intros [= <- <- _]. }
  destruct (String.prefix "_:" x) eqn:Hl.
  { by intros [= <- <- _]. }
  cbn zeta.
  destruct (index m !! default x (existing m !! x)) as [r|] eqn:Hix.
  - intros [= <- <- _]. by rewrite Hix.
  - destruct (writeFunc _ _) as [[id w1]|]; simpl; [|done].
    intros [= <- <- _]. simpl.
    rewrite (lookup_insert_ne (existing m) ("toilfs:" +:+ id) x)
      by (eapply prefix_neq; [apply prefix_toilfs | done]).
    by rewrite lookup_insert_eq.
Qed.

(** X6: a file read from the job store is mapped back to its name.
    After [toilGetFile] has read [fileStoreID] to the local path
    [srcPath], [writeFile] returns [fileStoreID] for [srcPath] and
    writes nothing. *)
Theorem toilGetFile_writeFile_round_trip
    (writeFunc : string -> world -> result (string * world))
    (m : filemaps) (fileStoreID srcPath : string) (w w1 w2 : world) :
  references m ->
  String.prefix "toilfs:" fileStoreID = true ->
  readGlobalFile (slice_from 7 fileStoreID) w = Ok (srcPath, w1) ->
  ~ is_reference srcPath ->
  exists m',
    toilGetFile m fileStoreID w = Ok (file_uri srcPath, m', w1)
    /\ references m'
    /\ writeFile writeFunc m' srcPath w2 = Ok (fileStoreID, m', w2).
Proof.
  intros Hm Hid Hread Hsrc. unfold toilGetFile. rewrite Hid, Hread. simpl.
  eexists. split; [done|]. split; [by apply references_insert|].
  assert (String.prefix "toilfs:" srcPath = false) as Hx
    by (destruct (String.prefix "toilfs:" srcPath) eqn:E; [|done];
        destruct Hsrc; by left).
  assert (String.prefix "_:" srcPath = false) as Hl
    by (destruct (String.prefix "_:" srcPath) eqn:E; [|done];
        destruct Hsrc; by right).
  unfold writeFile. rewrite Hx, Hl. simpl.
  rewrite (lookup_insert_ne (existing m) fileStoreID srcPath)
    by (by eapply prefix_neq).
  rewrite (existing_miss m srcPath) by done. simpl.
  by rewrite lookup_insert_eq.
Qed.

(** X7: after an [uploadFile] that does not skip broken files, the
    location of the file object is a reference into the job store or a
    file literal, and uploading the object again, with or without
    [skip_broken], changes nothing and writes nothing. *)
Theorem uploadFile_settles
    (uploadfunc uploadfunc' : string -> world -> result (string * world))
    (m m' : filemaps) (uf uf' : FileObj) (w w' w2 : world) (b : bool) :
  references m ->
  uploadFile uploadfunc m uf false w = Ok (uf', m', w') ->
  (exists ref, location uf' = Some ref /\ is_reference ref)
  /\ references m'
  /\ uploadFile uploadfunc' m' uf' b w2 = Ok (uf', m', w2).
Proof.
  intros Hm. unfold uploadFile at 1.
  destruct (location uf) as [loc|] eqn:Hloc; simpl; [|done].
  assert (Hdone : forall (m0 : filemaps) (f : FileObj) ref,
            location f = Some ref -> is_reference ref ->
            uploadFile uploadfunc' m0 f b w2 = Ok (f, m0, w2)).
  { intros m0 f ref Hf [Hr|Hr]; unfold uploadFile; rewrite Hf; simpl;
      rewrite Hr; [done | by rewrite orb_true_r]. }
  destruct (String.prefix "toilfs:" loc || String.prefix "_:" loc) eqn:Hp.
  { intros [= <- <- _].
    assert (is_reference loc) by (by apply orb_prop in Hp).
    split; [eauto|]. split; [done|]. by apply (Hdone _ _ loc). }
  destruct (index m !! loc) as [ref|] eqn:Hix.
  { intros [= <- <- _].
    assert (is_reference ref) by (left; destruct Hm as [Hi _]; by apply Hi in Hix).
    split; [eauto|]. split; [done|]. by apply (Hdone _ _ ref). }
  set (uf1 := if String.eqb loc EmptyString then _ else _).
  destruct uf1 as [f|]; simpl; [|done].
  destruct (isfile _ _); simpl; [|done].
  destruct (writeFile _ _ _ _) as [[[ref m1] w1]|] eqn:Hw; simpl; [|done].
  intros [= <- <- _].
  destruct (file_maps_references uploadfunc m
              (default EmptyString (location f)) w Hm) as [_ Hwf].
  destruct (Hwf _ _ _ Hw) as [Hm1 Href].
  split; [eauto|]. split; [done|]. by apply (Hdone _ _ ref).
Qed.
End files_facts.

(** ** More on scatter *)

Section scatter_more.
Context `{Cwltool}.

Lemma leaves_app l1 l2 :
  (l1 ++ l2) ≫= leaves = (l1 ≫= leaves) ++ (l2 ≫= leaves).
Proof. apply bind_app. Qed.

Lemma flat_as_nested self step kw jo ks outs h :
  flat_crossproduct_scatter self step kw jo ks (outs, h)
  = ('(sub, h') ← nested_crossproduct_scatter self step kw jo ks h;
     Ok (outs ++ (ORv <$> leaves (OList sub)), h')).
Proof.
  revert jo outs h. induction ks as [|k rest IH]; intros jo outs h; [done|].
  cbn [flat_crossproduct_scatter nested_crossproduct_scatter].
  destruct (dict_getitem jo (shortname k)) as [v|]; [|done].
  cbn [mbind result_bind].
  destruct (py_len v) as [l|]; [|done]. cbn [mbind result_bind].
  match goal with
  | |- foldM ?F _ _ = mbind _ (foldM ?G _ _) => set (Ff := F); set (Gg := G)
  end.
  enough (Hgen : forall ns acc h,
    foldM Ff (outs ++ (ORv <$> (acc ≫= leaves)), h) ns
    = ('(sub, h') ← foldM Gg (acc, h) ns;
       Ok (outs ++ (ORv <$> leaves (OList sub)), h'))).
  { specialize (Hgen (seq 0 l) [] h). simpl in Hgen.
    by rewrite app_nil_r in Hgen. }
  clear h l. subst Ff Gg. intros ns. induction ns as [|n ns IHn]; intros acc h.
  - done.
  - rewrite !foldM_cons.
    destruct (py_index v n) as [x|]; [|done]. cbn [mbind result_bind].
    destruct rest as [|k' rest'].
    + unfold scatter_child. cbn [fst snd].
      destruct (postScatterEval step _) as [jo'|]; [|done].
      cbn [mbind result_bind].
      destruct (makeJob _ _ _ _) as [[subjob followOn] h1].
      cbn [mbind result_bind].
      rewrite <- IHn. do 2 f_equal.
      by rewrite leaves_app, fmap_app, app_assoc.
    + rewrite IH. cbn [fst snd].
      destruct (nested_crossproduct_scatter _ _ _ _ _ _) as [[sub h1]|];
        [|done].
      cbn [mbind result_bind]. rewrite <- IHn. do 2 f_equal.
      rewrite leaves_app, fmap_app, app_assoc. simpl.
      by rewrite app_nil_r.
Qed.

(** X8: the two cross products construct the same jobs in the same
    order, for any number of keys and any job order: the flat one
    returns the promises of the nested one, flattened, with the same
    graph, and it raises where the nested one raises. *)
Theorem flat_crossproduct_flattens_nested self step kw joborder ks h :
  flat_crossproduct_scatter self step kw joborder ks ([], h)
  = ('(sub, h') ← nested_crossproduct_scatter self step kw joborder ks h;
     Ok (ORv <$> leaves (OList sub), h')).
Proof. apply flat_as_nested. Qed.

Lemma shaped_leaves dims o :
  shaped dims o -> length (leaves o) = product dims.
Proof.
  revert o. induction dims as [|n dims IH]; intros [j|l]; simpl; try done.
  intros [<- Hall]. induction Hall as [|o l Ho _ IHl]; [done|].
  csimpl. rewrite length_app, IHl, (IH o Ho). done.
Qed.

Lemma lookups_after_set (jo : list (string * value)) k x ks
    (ls : list (list value)) :
  shortname k ∉ shortname <$> ks ->
  Forall2 (fun k' l => dict_lookup jo (shortname k') = Some (VList l)) ks ls ->
  Forall2 (fun k' l =>
             dict_lookup (dict_set jo (shortname k) x) (shortname k')
             = Some (VList l)) ks ls.
Proof.
  intros Hk Hall. induction Hall as [|k' l ks ls Hl _ IH]; [constructor|].
  csimpl in Hk. apply not_elem_of_cons in Hk as [Hne Hk].
  constructor; [|by apply IH].
  rewrite dict_lookup_set.
  by destruct (String.eqb_spec (shortname k) (shortname k')).
Qed.

Lemma postScatterEval_all step (jos : list (list (string * value))) :
  (forall jo, exists jo', postScatterEval step jo = Ok jo') ->
  exists jos',
    Forall2 (fun jo jo' => postScatterEval step jo = Ok jo') jos jos'.
Proof.
  intros Hpost. induction jos as [|jo jos [jos' IH]]; [by exists []|].
  destruct (Hpost jo) as [jo' Hjo]. exists (jo' :: jos'). by constructor.
Qed.

Lemma nested_shape self step kw ks :
  (forall jo, exists jo', postScatterEval step jo = Ok jo') ->
  forall job ls h,
  ks <> [] ->
  NoDup (shortname <$> ks) ->
  Forall2 (fun k l => dict_lookup job (shortname k) = Some (VList l)) ks ls ->
  in_graph self h ->
  exists outs h',
    nested_crossproduct_scatter self step kw job ks h = Ok (outs, h')
    /\ shaped (length <$> ls) (OList outs)
    /\ in_graph self h'
    /\ length (children_of self h')
       = length (children_of self h) + product (length <$> ls).
Proof.
  intros Hpost. induction ks as [|k rest IH]; intros job ls h Hne Hnd Hls Hin;
    [done|].
  destruct ls as [|xs ls]; [by apply Forall2_cons_nil_inv in Hls|].
  apply Forall2_cons in Hls as [Hxs Hls].
  csimpl in Hnd. apply NoDup_cons in Hnd as [Hk Hnd].
  destruct rest as [|k' rest].
  - apply Forall2_nil_inv_l in Hls as ->.
    rewrite (nested_last _ _ _ _ _ xs) by done.
    destruct (postScatterEval_all step
                ((fun y => dict_set job (shortname k) y) <$> xs) Hpost)
      as [jos' Hjos].
    destruct (spawn_spec self step kw _ jos' [] h Hjos Hin)
      as (fs & h' & -> & Hlen & Hin' & Hch & _).
    exists (ORv <$> fs), h'. split; [done|].
    rewrite length_fmap in Hlen. split; [|split; [done|]].
    + simpl. rewrite length_fmap. split; [done|].
      apply Forall_fmap, Forall_forall. by intros j _.
    + apply (f_equal length) in Hch. unfold child_inputs in Hch.
      rewrite length_app, !length_fmap in Hch.
      apply Forall2_length in Hjos. rewrite length_fmap in Hjos.
      simpl. lia.
  - rewrite (nested_cons _ _ _ _ _ _ _ xs) by done.
    set (dims := length <$> ls).
    enough (Hloop : forall ys acc h,
      in_graph self h ->
      exists subs h',
        foldM (fun acc x =>
                 '(sub, h1) ← nested_crossproduct_scatter self step kw
                                (dict_set job (shortname k) x) (k' :: rest)
                                acc.2;
                 Ok (acc.1 ++ [OList sub], h1)) (acc, h) ys
        = Ok (acc ++ subs, h')
        /\ length subs = length ys
        /\ Forall (shaped dims) subs
        /\ in_graph self h'
        /\ length (children_of self h')
           = length (children_of self h) + length ys * product dims).
    { destruct (Hloop xs [] h Hin) as (subs & h' & -> & Hlen & Hsh & Hin' & Hch).
      exists subs, h'. split; [done|]. split; [by split|]. by split. }
    induction ys as [|y ys IHys]; intros acc h0 Hin0.
    + exists [], h0. rewrite app_nil_r. simpl.
      split; [done|]. split; [done|]. split; [constructor|].
      split; [done | lia].
    + rewrite foldM_cons. cbn [fst snd].
      destruct (IH (dict_set job (shortname k) y) ls h0)
        as (sub & h1 & -> & Hsub & Hin1 & Hch1);
        [done | done | by apply lookups_after_set | done |].
      cbn [mbind result_bind].
      destruct (IHys (acc ++ [OList sub]) h1 Hin1)
        as (subs & h' & -> & Hlen & Hsh & Hin' & Hch).
      exists (OList sub :: subs), h'. rewrite <- app_assoc.
      split; [done|]. split; [simpl; lia|]. split; [by constructor|].
      split; [done|]. fold dims in Hch1. simpl. lia.
Qed.

(** X9: a cross product over any number of keys, each of which holds a
    list.  The nested one returns one level of lists per key, the
    level of a key as long as its list; the flat one returns one
    promise per combination; either adds that many children to the
    scatter job. *)
Theorem crossproduct_scatter_shape self step cwljob kw h ks ls job :
  scatter_keys step = ks ->
  1 < length ks ->
  NoDup (shortname <$> ks) ->
  resolve_indirect cwljob = Ok job ->
  Forall2 (fun k l => dict_lookup job (shortname k) = Some (VList l)) ks ls ->
  (forall jo, exists jo', postScatterEval step jo = Ok jo') ->
  in_graph self h ->
  let dims := length <$> ls in
  (step_scatterMethod step = Some "nested_crossproduct" ->
   exists outs h',
     CWLScatter_run self step cwljob kw h = Ok (outs, h')
     /\ shaped dims outs
     /\ length (children_of self h')
        = length (children_of self h) + product dims)
  /\
  (step_scatterMethod step = Some "flat_crossproduct" ->
   exists fs h',
     CWLScatter_run self step cwljob kw h = Ok (OList (ORv <$> fs), h')
     /\ length fs = product dims
     /\ length (children_of self h')
        = length (children_of self h) + product dims).
Proof.
  intros Hks Hlen Hnd Hjob Hls Hpost Hin dims.
  assert (ks <> []) as Hne by (intros ->; simpl in Hlen; lia).
  destruct (scatter_keys_Some step ks Hks Hne) as (s & Hs & Has).
  destruct (nested_shape self step kw ks Hpost job ls h Hne Hnd Hls Hin)
    as (outs & h' & Hrun & Hsh & _ & Hch).
  assert (Nat.eqb (length ks) 1 = false) as Hmany
    by (apply Nat.eqb_neq; lia).
  unfold CWLScatter_run. rewrite Hjob, Hs. cbn [mbind result_bind].
  rewrite Has, Hmany. split; intros ->.
  - cbn [String.eqb Ascii.eqb Bool.eqb]. simpl String.eqb.
    rewrite Hrun. cbn [mbind result_bind]. by exists (OList outs), h'.
  - simpl String.eqb. rewrite flat_as_nested, Hrun. cbn [mbind result_bind].
    exists (leaves (OList outs)), h'. split; [done|]. split; [|done].
    by apply shaped_leaves.
Qed.

Lemma scatter_method_known step k ks :
  scatter_keys step = k :: ks ->
  (ks = [] \/ exists m, step_scatterMethod step = Some m
                        /\ m ∈ scatter_methods) ->
  exists m, m ∈ scatter_methods
    /\ (if Nat.eqb (length (k :: ks)) 1 then Some "dotproduct"
        else step_scatterMethod step) = Some m.
Proof.
  intros Hks [->|(m & Hm & Hin)].
  - exists "dotproduct". split; [left | done].
  - destruct ks as [|k' ks]; simpl.
    + exists "dotproduct". split; [left | done].
    + by exists m.
Qed.

(** X10: when the list of the first scattered key is empty the scatter
    makes no job and returns the empty list, whatever the method; the
    other keys are not read, so that a missing one goes unnoticed. *)
Theorem scatter_over_empty_list self step cwljob kw h k ks job :
  scatter_keys step = k :: ks ->
  (ks = [] \/ exists m, step_scatterMethod step = Some m
                        /\ m ∈ scatter_methods) ->
  resolve_indirect cwljob = Ok job ->
  dict_lookup job (shortname k) = Some (VList []) ->
  CWLScatter_run self step cwljob kw h = Ok (OList [], h).
Proof.
  intros Hks Hm Hjob Hk.
  destruct (scatter_method_known step k ks Hks Hm) as (m & Hin & Hsel).
  destruct (scatter_keys_Some step (k :: ks) Hks) as (s & Hs & Has); [done|].
  unfold CWLScatter_run. rewrite Hjob, Hs. cbn [mbind result_bind].
  rewrite Has, Hsel.
  unfold scatter_methods in Hin.
  repeat (apply elem_of_cons in Hin as [->|Hin]);
    [| | | by apply elem_of_nil in Hin]; simpl String.eqb; cbv iota;
    unfold dotproduct_scatter;
    cbn [nested_crossproduct_scatter flat_crossproduct_scatter
           mbind result_bind];
    unfold dict_getitem; rewrite Hk; done.
Qed.

(** X11: the first scattered key is read with [cwljob[key]] and
    measured with [len]: a job order without it raises [KeyError], and
    a value that has no length ([None], a boolean, a number) raises
    [TypeError], whatever the method. *)
Theorem scatter_first_key_errors self step cwljob kw h k ks job :
  scatter_keys step = k :: ks ->
  (ks = [] \/ exists m, step_scatterMethod step = Some m
                        /\ m ∈ scatter_methods) ->
  resolve_indirect cwljob = Ok job ->
  match dict_lookup job (shortname k) with
  | None => CWLScatter_run self step cwljob kw h = Raise KeyError
  | Some (VNone | VBool _ | VInt _) =>
      CWLScatter_run self step cwljob kw h = Raise TypeError
  | Some _ => True
  end.
Proof.
  intros Hks Hm Hjob.
  destruct (scatter_method_known step k ks Hks Hm) as (m & Hin & Hsel).
  destruct (scatter_keys_Some step (k :: ks) Hks) as (s & Hs & Has); [done|].
  unfold CWLScatter_run. rewrite Hjob, Hs. cbn [mbind result_bind].
  rewrite Has, Hsel.
  unfold scatter_methods in Hin.
  destruct (dict_lookup job (shortname k)) as [v|] eqn:Hk.
  - assert (Hlen : (v = VNone \/ (exists b, v = VBool b)
                    \/ (exists n, v = VInt n)) ->
                   py_len v = Raise TypeError)
      by (intros [->|[[b ->]|[n ->]]]; done).
    destruct v; try done;
      (specialize (Hlen ltac:(eauto));
       repeat (apply elem_of_cons in Hin as [->|Hin]);
       [| | | by apply elem_of_nil in Hin]; simpl String.eqb; cbv iota;
       unfold dotproduct_scatter;
       cbn [nested_crossproduct_scatter flat_crossproduct_scatter
            mbind result_bind];
       unfold dict_getitem; rewrite Hk; cbn [mbind result_bind];
       rewrite Hlen; done).
  - repeat (apply elem_of_cons in Hin as [->|Hin]);
      [| | | by apply elem_of_nil in Hin]; simpl String.eqb; cbv iota;
      unfold dotproduct_scatter;
      cbn [nested_crossproduct_scatter flat_crossproduct_scatter
           mbind result_bind];
      unfold dict_getitem; rewrite Hk; done.
Qed.

(** X12: [postScatterEval] evaluates the [valueFrom] expressions of a
    scattered job order.  A key without expression keeps its value; the
    expression of a key is evaluated with the value of the key as its
    context and with the job order as it was before any evaluation as
    its inputs.  The keys keep their order. *)
Theorem postScatterEval_values (step : Step) (io : list (string * value))
    (out : string -> value) :
  NoDup io.*1 ->
  (forall k v, (k, v) ∈ io ->
     match dict_lookup (valueFrom_of step) k with
     | Some e =>
         do_eval e (foldl (fun d kv => dict_set d (shortname kv.1) kv.2) [] io)
           (step_requirements step) v = Some (out k)
     | None => out k = v
     end) ->
  postScatterEval step io = Ok ((fun kv => (kv.1, out kv.1)) <$> io).
Proof.
  intros Hnd Hout. unfold postScatterEval.
  rewrite (foldM_ext _ (fun r kv => v ← Ok (out kv.1);
                                    Ok (dict_set r kv.1 v))).
  - by rewrite (foldM_dict_build fst (fun kv => Ok (out kv.1))
                  (fun kv => out kv.1)); [| | apply Forall_forall].
  - intros r [k v] Hin. specialize (Hout k v Hin). simpl.
    destruct (dict_lookup (valueFrom_of step) k) as [e|].
    + unfold expression_do_eval. by rewrite Hout.
    + by rewrite Hout.
Qed.
End scatter_more.

(** ** More on gather *)

Section gather_more.
Context `{Cwltool}.

Lemma allkeys_dict (d : list (string * value)) (keys : gset string) k :
  k ∈ foldl (fun keys kv => {[ kv.1 ]} ∪ keys) keys d
  <-> k ∈ keys \/ k ∈ d.*1.
Proof.
  revert keys. induction d as [|[k' v] d IH]; intros keys; csimpl.
  - set_solver.
  - rewrite IH. set_solver.
Qed.

Lemma allkeys_outputs (d : nat -> list (string * value)) (o : outputs) :
  forall (keys : gset string) k,
  k ∈ allkeys (outputs_fulfil (fun j => VDict (d j)) o) keys
  <-> k ∈ keys \/ exists j, j ∈ leaves o /\ k ∈ (d j).*1.
Proof.
  induction o as [j|l IH] using outputs_ind'; intros keys k.
  - simpl. rewrite allkeys_dict. split; intros [?|Hk]; auto.
    + right. exists j. split; [by left | done].
    + destruct Hk as (j' & ->%list_elem_of_singleton & Hk). by right.
  - simpl. revert keys. induction IH as [|o l Ho _ IHl]; intros keys.
    + simpl. split; [by left|]. intros [?|(j & ?%elem_of_nil & _)]; done.
    + simpl. rewrite IHl, Ho. csimpl. split.
      * intros [[?|(j & Hj & Hk)]|(j & Hj & Hk)]; [by left| |];
          right; exists j; (split; [|done]); apply elem_of_app; auto.
      * intros [?|(j & [Hj|Hj]%elem_of_app & Hk)]; [by left; left| |];
          [left; right | right]; by exists j.
Qed.

Lemma outputs_fulfil_ext (f g : nat -> value) (o : outputs) :
  (forall j, j ∈ leaves o -> f j = g j) ->
  outputs_fulfil f o = outputs_fulfil g o.
Proof.
  induction o as [j|l IH] using outputs_ind'; intros Hfg; simpl.
  - apply Hfg. by left.
  - f_equal. induction IH as [|o l Ho _ IHl]; [done|]. csimpl in *.
    rewrite Ho, IHl; [done | |]; intros j Hj; apply Hfg, elem_of_app; auto.
Qed.

(** X13: on the results of a scatter, [allkeys] adds exactly the keys
    of the results of the jobs; and for a key that is not among them
    [extract] gives [None] at every position, in the shape of the
    results. *)
Theorem allkeys_collects_result_keys (d : nat -> list (string * value))
    (o : outputs) (k : string) :
  (k ∈ allkeys (outputs_fulfil (fun j => VDict (d j)) o) ∅
   <-> exists j, j ∈ leaves o /\ k ∈ (d j).*1)
  /\ (k ∈ allkeys (outputs_fulfil (fun j => VDict (d j)) o) ∅
      \/ extract (outputs_fulfil (fun j => VDict (d j)) o) k
         = outputs_fulfil (fun _ => VNone) o).
Proof.
  split.
  - rewrite allkeys_outputs. set_solver.
  - destruct (decide (k ∈ allkeys (outputs_fulfil (fun j => VDict (d j)) o)
                          ∅)) as [Hk|Hk]; [by left | right].
    rewrite extract_outputs_fulfil.
    apply outputs_fulfil_ext. intros j Hj.
    destruct (dict_lookup (d j) k) as [v|] eqn:Hv; [|done].
    destruct Hk. apply allkeys_outputs. right. exists j. split; [done|].
    destruct (decide (k ∈ (d j).*1)) as [|Hn]; [done|].
    apply dict_lookup_None in Hn. congruence.
Qed.
End gather_more.

(** ** The graph during scheduling *)

Lemma extends_refl h : extends h h.
Proof. intros i n Hn. exists n. by repeat split. Qed.

Lemma extends_trans h1 h2 h3 : extends h1 h2 -> extends h2 h3 -> extends h1 h3.
Proof.
  intros H12 H23 i n Hn.
  destruct (H12 i n Hn) as (n2 & Hn2 & Hb & Hc & Hm & Hd & Hch).
  destruct (H23 i n2 Hn2) as (n3 & Hn3 & Hb' & Hc' & Hm' & Hd' & Hch').
  exists n3. repeat split; try congruence. by etrans.
Qed.

Lemma extends_app h l : extends h (h ++ l).
Proof.
  intros i n Hn. exists n. rewrite lookup_app_l by (by eapply lookup_lt_Some).
  by repeat split.
Qed.

Lemma extends_addChild p c h : extends h (addChild p c h).
Proof.
  intros i n Hn. unfold addChild.
  destruct (decide (i = p)) as [->|Hne].
  - eexists. split; [rewrite list_lookup_alter_eq, Hn; reflexivity|].
    simpl. repeat split; try done. by apply prefix_app_r.
  - exists n. rewrite list_lookup_alter_ne by done. by repeat split.
Qed.

Lemma extends_addFollowOn p c h : extends h (addFollowOn p c h).
Proof.
  intros i n Hn. unfold addFollowOn.
  destruct (decide (i = p)) as [->|Hne].
  - eexists. split; [rewrite list_lookup_alter_eq, Hn; reflexivity|].
    by repeat split.
  - exists n. rewrite list_lookup_alter_ne by done. by repeat split.
Qed.

Lemma extends_length h h' : extends h h' -> length h <= length h'.
Proof.
  intros Hext. destruct (decide (length h = 0)) as [|Hpos]; [lia|].
  destruct (lookup_lt_is_Some_2 h (length h - 1)) as [n Hn]; [lia|].
  destruct (Hext _ _ Hn) as (n' & Hn' & _).
  apply lookup_lt_Some in Hn'. lia.
Qed.

Lemma extends_hasChild h h' p c :
  extends h h' -> hasChild p c h = true -> hasChild p c h' = true.
Proof.
  unfold hasChild. intros Hext.
  destruct (h !! p) as [n|] eqn:Hn; [|done].
  destruct (Hext _ _ Hn) as (n' & -> & _ & _ & _ & _ & [l ->]).
  rewrite !bool_decide_eq_true. set_solver.
Qed.

Lemma hasChild_addChild p c h :
  p < length h -> hasChild p c (addChild p c h) = true.
Proof.
  intros [n Hn]%lookup_lt_is_Some_2. unfold hasChild, addChild.
  rewrite list_lookup_alter_eq, Hn. simpl. apply bool_decide_eq_true. set_solver.
Qed.

Lemma input_at_addFollowOn (p c : nat) (h : list JobNode) (x : nat) :
  input_at (addFollowOn p c h) x = input_at h x.
Proof.
  unfold input_at, addFollowOn.
  destruct (decide (x = p)) as [->|Hne].
  - rewrite list_lookup_alter_eq. by destruct (h !! p).
  - by rewrite list_lookup_alter_ne.
Qed.

Lemma extends_input_at h h' c jo :
  extends h h' -> input_at h c = Some jo -> input_at h' c = Some jo.
Proof.
  unfold input_at. intros Hext. destruct (h !! c) as [n|] eqn:Hn; [|done].
  destruct (Hext _ _ Hn) as (n' & -> & Hb & _). simpl. by rewrite Hb.
Qed.

Lemma length_addFollowOn (p c : nat) (h : list JobNode) :
  length (addFollowOn p c h) = length h.
Proof. apply length_alter. Qed.

(** What [makeJob] does to the graph. *)
Lemma makeJob_extends tool jo kw h :
  exists h',
    (makeJob tool jo kw h).2 = h'
    /\ (makeJob tool jo kw h).1.1 = length h
    /\ (makeJob tool jo kw h).1.2 < length h'
    /\ extends h h' /\ input_at h' (length h) = Some jo.
Proof.
  unfold makeJob, new_job.
  destruct (String.eqb (tool_class tool) "Workflow").
  - eexists. split; [done|]. cbn [fst snd]. split; [done|].
    rewrite length_addFollowOn, !length_app. simpl.
    split; [lia|]. split.
    + eapply extends_trans; [|apply extends_addFollowOn].
      rewrite <- app_assoc. apply extends_app.
    + rewrite input_at_addFollowOn. unfold input_at.
      rewrite <- app_assoc, lookup_app_r, Nat.sub_diag by done. done.
  - destruct (dynamic_resources tool); eexists; (split; [done|]); simpl;
      rewrite length_app; simpl; (split; [done|]); (split; [lia|]);
      (split; [apply extends_app|]); unfold input_at;
      rewrite lookup_app_r, Nat.sub_diag by done; done.
Qed.

Lemma grows_under_refl self h : grows_under self h h.
Proof. split; [apply extends_refl | done]. Qed.

Lemma grows_under_trans self h1 h2 h3 :
  grows_under self h1 h2 -> grows_under self h2 h3 -> grows_under self h1 h3.
Proof.
  intros [He1 Hc1] [He2 Hc2]. split; [by apply (extends_trans _ h2)|].
  intros i Hi Hne. pose proof (extends_length _ _ He1).
  rewrite Hc2 by (done || lia). by apply Hc1.
Qed.

Lemma children_of_addChild_ne (p c i : nat) (h : list JobNode) :
  i <> p -> children_of i (addChild p c h) = children_of i h.
Proof.
  intros Hne. unfold children_of, addChild.
  by rewrite list_lookup_alter_ne.
Qed.

Lemma grows_under_addChild self c h : grows_under self h (addChild self c h).
Proof.
  split; [apply extends_addChild|].
  intros i _ Hne. by apply children_of_addChild_ne.
Qed.

Lemma grows_under_makeJob self tool jo kw h :
  grows_under self h (makeJob tool jo kw h).2
  /\ length h <= (makeJob tool jo kw h).1.2 < length (makeJob tool jo kw h).2.
Proof.
  destruct (makeJob_spec tool jo kw h) as (node & rest & -> & Hrest & _).
  pose proof (njobs_pos tool). simpl. rewrite length_app. simpl.
  split; [|lia]. split; [apply extends_app|].
  intros i Hi _. by apply children_of_app_l.
Qed.

Section scatter_graph.
Context `{Cwltool}.

Lemma made_between_mono (h hc hc' : list JobNode) (outs : list outputs) :
  length hc <= length hc' ->
  Forall (made_between h hc) outs -> Forall (made_between h hc') outs.
Proof.
  intros Hle Hall. eapply Forall_impl; [exact Hall|].
  intros o Ho. unfold made_between in *. eapply Forall_impl; [exact Ho|].
  intros j Hj. simpl in *. lia.
Qed.

Lemma scatter_child_grows self step kw jo h outs hc outs' hc' :
  scatter_child self step kw jo (outs, hc) = Ok (outs', hc') ->
  grows_under self h hc -> Forall (made_between h hc) outs ->
  grows_under self h hc' /\ Forall (made_between h hc') outs'.
Proof.
  unfold scatter_child. destruct (postScatterEval step jo) as [jo'|];
    cbn [mbind result_bind]; [|done].
  cbn [fst snd].
  destruct (grows_under_makeJob self (embedded_tool step) (PlainDict jo') kw hc)
    as [Hg Hfo].
  destruct (makeJob _ _ _ _) as [[subjob followOn] h1]. simpl in Hg, Hfo.
  intros [= <- <-] Hgrow Hfresh.
  pose proof (extends_length _ _ (proj1 Hgrow)) as Hle.
  pose proof (extends_length _ _ (proj1 Hg)) as Hle1.
  split.
  - apply (grows_under_trans _ _ hc); [done|].
    apply (grows_under_trans _ _ h1); [done | apply grows_under_addChild].
  - apply Forall_app. split.
    + apply (made_between_mono h hc); [|done].
      rewrite length_addChild. lia.
    + constructor; [|constructor]. unfold made_between. simpl.
      constructor; [|constructor]. rewrite length_addChild. lia.
Qed.

Lemma nested_grows self step kw ks :
  forall jo h0 h outs h',
  nested_crossproduct_scatter self step kw jo ks h = Ok (outs, h') ->
  grows_under self h0 h ->
  grows_under self h0 h' /\ Forall (made_between h0 h') outs.
Proof.
  induction ks as [|k rest IH]; intros jo h0 h outs h'; [done|].
  cbn [nested_crossproduct_scatter].
  destruct (dict_getitem jo (shortname k)) as [v|]; cbn [mbind result_bind];
    [|done].
  destruct (py_len v) as [l|]; cbn [mbind result_bind]; [|done].
  intros Hrun Hgrow.
  revert Hrun.
  apply (foldM_invariant
           (fun acc : list outputs * list JobNode =>
              grows_under self h0 acc.2 /\ Forall (made_between h0 acc.2) acc.1)).
  { split; [done | constructor]. }
  intros [outs1 h1] n [outs2 h2] [Hg1 Hf1]. simpl in Hg1, Hf1.
  destruct (py_index v n) as [x|]; cbn [mbind result_bind]; [|done].
  destruct rest as [|k' rest'].
  - intros Hc. by apply (scatter_child_grows _ _ _ _ _ _ _ _ _ Hc).
  - cbn [fst snd].
    destruct (nested_crossproduct_scatter _ _ _ _ _ _) as [[sub h3]|] eqn:Hsub;
      cbn [mbind result_bind]; [|done].
    intros [= <- <-]. simpl.
    destruct (IH _ h0 _ _ _ Hsub Hg1) as [Hg3 Hf3]. split; [done|].
    apply Forall_app. split.
    + apply (made_between_mono h0 h1); [|done].
      apply extends_length. clear -Hsub IH.
      destruct (IH _ h1 _ _ _ Hsub (grows_under_refl _ _)) as [[He _] _].
      done.
    + constructor; [|constructor]. simpl.
      apply Forall_bind. exact Hf3.
Qed.

(** X14: a scatter adds to the graph under itself.  When
    [CWLScatter.run] returns, the nodes that were there keep their jobs
    and resources, none of them but the scatter job has got a child,
    and every promise it returns is of a node that the run has made. *)
Theorem scatter_run_grows_under_itself self step cwljob kw h o h' :
  CWLScatter_run self step cwljob kw h = Ok (o, h') ->
  grows_under self h h'
  /\ made_between h h' o.
Proof.
  unfold CWLScatter_run.
  destruct (resolve_indirect cwljob) as [job|]; cbn [mbind result_bind];
    [|done].
  destruct (step_scatter step) as [s|]; cbn [mbind result_bind]; [|done].
  set (method := if Nat.eqb (length (aslist s)) 1 then _ else _).
  enough (Hall : forall outs h1,
            match method with
            | Some m =>
                if String.eqb m "dotproduct" then
                  dotproduct_scatter self step kw job (aslist s) h
                else if String.eqb m "nested_crossproduct" then
                  nested_crossproduct_scatter self step kw job (aslist s) h
                else if String.eqb m "flat_crossproduct" then
                  flat_crossproduct_scatter self step kw job (aslist s) ([], h)
                else if String.eqb m EmptyString then
                  Raise (ValidationException
                    "Must provide scatterMethod to scatter over multiple inputs")
                else
                  Raise (ValidationException
                    ("Unsupported complex scatter type '" +:+ m +:+ "'"))
            | None =>
                Raise (ValidationException
                  "Must provide scatterMethod to scatter over multiple inputs")
            end = Ok (outs, h1) ->
            grows_under self h h1 /\ Forall (made_between h h1) outs).
  { destruct (match method with Some _ => _ | None => _ end)
      as [[outs h1]|]; cbn [mbind result_bind]; [|done].
    intros [= <- <-]. destruct (Hall outs h1 eq_refl) as [Hg Hf].
    split; [done|]. simpl. by apply Forall_bind. }
  intros outs h1. destruct method as [m|]; [|done].
  destruct (String.eqb m "dotproduct").
  { unfold dotproduct_scatter.
    destruct (match aslist s with [] => _ | _ => _ end) as [k0|];
      cbn [mbind result_bind]; [|done].
    destruct (dict_getitem job (shortname k0)) as [v0|];
      cbn [mbind result_bind]; [|done].
    destruct (py_len v0) as [l|]; cbn [mbind result_bind]; [|done].
    apply (foldM_invariant
             (fun acc : list outputs * list JobNode =>
                grows_under self h acc.2 /\ Forall (made_between h acc.2) acc.1)).
    { split; [apply grows_under_refl | constructor]. }
    intros [outs1 h2] i [outs2 h3] [Hg1 Hf1]. simpl in Hg1, Hf1.
    destruct (foldM _ job _) as [copyjob|]; cbn [mbind result_bind]; [|done].
    intros Hc. by apply (scatter_child_grows _ _ _ _ _ _ _ _ _ Hc). }
  destruct (String.eqb m "nested_crossproduct").
  { intros Hrun. apply (nested_grows _ _ _ _ _ _ _ _ _ Hrun).
    apply grows_under_refl. }
  destruct (String.eqb m "flat_crossproduct").
  { rewrite flat_as_nested.
    destruct (nested_crossproduct_scatter _ _ _ _ _ _) as [[sub h2]|] eqn:Hsub;
      cbn [mbind result_bind]; [|done].
    intros [= <- <-].
    destruct (nested_grows _ _ _ _ _ _ _ _ _ Hsub (grows_under_refl _ _))
      as [Hg Hf].
    split; [done|]. simpl. apply Forall_fmap, Forall_forall.
    intros j Hj. constructor; [|constructor].
    assert (Hall : Forall (fun j => length h <= j < length h2)
                     (sub ≫= leaves)) by (by apply Forall_bind).
    by apply (proj1 (Forall_forall _ _) Hall). }
  by destruct (String.eqb m EmptyString).
Qed.
End scatter_graph.

Section scheduling_more.
Context `{Cwltool}.

Lemma connect_edges pr wfjob l :
  forall c0 h c h',
  foldM (fun acc s =>
           p ← promise_of pr s;
           if hasChild (p_job p) wfjob acc.2 then Ok acc
           else Ok (true, addChild (p_job p) wfjob acc.2))
    (c0, h) l = Ok (c, h') ->
  (forall s p, pr !! s = Some p -> p_job p < length h) ->
  extends h h'
  /\ length h' = length h
  /\ (forall s, s ∈ l ->
        exists p, pr !! s = Some p /\ hasChild (p_job p) wfjob h' = true)
  /\ (c = true -> c0 = true \/ l <> []).
Proof.
  induction l as [|s l IH]; intros c0 h c h'.
  - simpl. intros [= <- <-] _. split; [apply extends_refl|].
    split; [done|]. split; [by intros s ?%elem_of_nil | intros ?; by left].
  - rewrite foldM_cons.
    destruct (promise_of pr s) as [p|] eqn:Hp; cbn [mbind result_bind];
      [|done].
    unfold promise_of in Hp.
    destruct (pr !! s) as [p'|] eqn:Hp'; [|done]. injection Hp as ->.
    cbn [snd]. intros Hrun Hvalid.
    destruct (hasChild (p_job p) wfjob h) eqn:Hhas.
    + destruct (IH _ _ _ _ Hrun Hvalid) as (Hext & Hlen & Hedges & Hc).
      split; [done|]. split; [done|]. split; [|intros _; by right].
      intros s' [->|Hs']%elem_of_cons; [|by apply Hedges].
      exists p. split; [done|]. by apply (extends_hasChild h).
    + destruct (IH _ _ _ _ Hrun) as (Hext & Hlen & Hedges & Hc).
      { intros s' q Hq. rewrite length_addChild. by apply (Hvalid s'). }
      rewrite length_addChild in Hlen.
      split; [by eapply extends_trans; [apply extends_addChild|]|].
      split; [done|]. split; [|intros _; by right].
      intros s' [->|Hs']%elem_of_cons; [|by apply Hedges].
      exists p. split; [done|].
      apply (extends_hasChild (addChild (p_job p) wfjob h)); [done|].
      apply hasChild_addChild. by apply (Hvalid s).
Qed.

(** What scheduling a step does to the graph. *)
Lemma schedule_step_graph self cwlwf kw step st h st1 h1 :
  schedule_step self cwlwf kw step st h = Ok (st1, h1) ->
  self < length h ->
  (forall s p, promises st !! s = Some p -> p_job p < length h) ->
  exists jobobj fo,
    foldM (build_input (promises st)
             (bool_decide (is_Some (step_scatter step)))
             (tool_requirements cwlwf)) [] (step_inputs step) = Ok jobobj
    /\ jobs st1 = <[step_id step := fo]> (jobs st)
    /\ promises st1 = publish (promises st) fo (step_outputs step)
    /\ fo < length h1
    /\ extends h h1
    /\ input_at h1 (length h) = Some (IndirectDict jobobj)
    /\ (forall s, s ∈ step_inputs step ≫= sources_of ->
          exists p, promises st !! s = Some p
                    /\ hasChild (p_job p) (length h) h1 = true)
    /\ (step_inputs step ≫= sources_of = [] ->
        hasChild self (length h) h1 = true)
    /\ (exists p, p < length h /\ hasChild p (length h) h1 = true).
Proof.
  unfold schedule_step. intros Hrun Hself Hvalid.
  destruct (foldM _ _ _) as [jobobj|]; cbn [mbind result_bind] in Hrun;
    [|done].
  exists jobobj.
  set (made := if bool_decide (is_Some (step_scatter step)) then _ else _)
    in Hrun.
  assert (Hmade : made.1.1 = length h /\ made.1.2 < length made.2
                  /\ extends h made.2
                  /\ input_at made.2 (length h) = Some (IndirectDict jobobj)).
  { unfold made. destruct (bool_decide (is_Some (step_scatter step))).
    - unfold new_job. cbn [fst snd]. split; [done|].
      rewrite length_addFollowOn, !length_app. simpl.
      split; [lia|]. split.
      + eapply extends_trans; [|apply extends_addFollowOn].
        rewrite <- app_assoc. apply extends_app.
      + rewrite input_at_addFollowOn. unfold input_at.
        rewrite <- app_assoc, lookup_app_r, Nat.sub_diag by done. done.
    - destruct (makeJob_extends (embedded_tool step) (IndirectDict jobobj)
                  (with_step_inputs (step_inputs step) kw) h)
        as (h' & <- & Hw & Hf & Hext & Hin). done. }
  destruct made as [[wfjob followOn] hm]. simpl in Hmade.
  destruct Hmade as (-> & Hfo & Hext & Hin).
  destruct (connect _ _ _ _) as [[c h2]|] eqn:Hc; cbn [mbind result_bind] in Hrun;
    [|done].
  injection Hrun as <- <-. exists followOn. simpl.
  unfold connect in Hc. apply connect_edges in Hc
    as (Hext2 & Hlen2 & Hedges & Hflag); cycle 1.
  { intros s p Hp. apply extends_length in Hext.
    specialize (Hvalid s p Hp). lia. }
  pose proof (extends_length _ _ Hext) as Hle.
  assert (Hext3 : extends h2 (if c then h2 else addChild self (length h) h2))
    by (destruct c; [apply extends_refl | apply extends_addChild]).
  assert (Hlen3 : length (if c then h2 else addChild self (length h) h2)
                  = length h2)
    by (destruct c; [done | apply length_addChild]).
  split; [done|]. split; [done|]. split; [done|].
  split; [rewrite Hlen3; lia|].
  assert (Hext4 : extends hm (if c then h2 else addChild self (length h) h2))
    by (by apply (extends_trans _ h2)).
  split; [by apply (extends_trans _ hm)|].
  split; [by apply (extends_input_at hm)|].
  split.
  { intros s Hs. destruct (Hedges s Hs) as (p & Hp & Hhas).
    exists p. split; [done|]. by apply (extends_hasChild h2). }
  assert (Hself' : c = false ->
            hasChild self (length h)
              (if c then h2 else addChild self (length h) h2) = true).
  { intros ->. apply hasChild_addChild. lia. }
  split.
  { intros Hnil. apply Hself'. destruct c; [|done].
    destruct Hflag as [?|?]; done. }
  destruct c.
  - destruct Hflag as [?|Hne]; [done | done |].
    destruct (step_inputs step ≫= sources_of) as [|s l] eqn:Hl; [done|].
    destruct (Hedges s) as (p & Hp & Hhas); [left|].
    exists (p_job p). split; [by apply (Hvalid s)|done].
  - exists self. split; [done | by apply Hself'].
Qed.

(** X15: scheduling a step wires its job into the graph.  The new job
    is made a child of the producer of every source of the step; a step
    without sources is made a child of the workflow job; so the new job
    always has a parent among the nodes that were there, and these keep
    their jobs, their resources and their children. *)
Theorem scheduled_step_follows_its_sources self cwlwf kw step st h st1 h1 :
  schedule_step self cwlwf kw step st h = Ok (st1, h1) ->
  self < length h ->
  (forall s p, promises st !! s = Some p -> p_job p < length h) ->
  (forall inp s, inp ∈ step_inputs step -> s ∈ sources_of inp ->
     exists p, promises st !! s = Some p
               /\ hasChild (p_job p) (length h) h1 = true)
  /\ ((forall inp, inp ∈ step_inputs step -> sources_of inp = []) ->
      hasChild self (length h) h1 = true)
  /\ (exists p, p < length h /\ hasChild p (length h) h1 = true)
  /\ extends h h1.
Proof.
  intros Hrun Hself Hvalid.
  destruct (schedule_step_graph _ _ _ _ _ _ _ _ Hrun Hself Hvalid)
    as (jobobj & fo & _ & _ & _ & _ & Hext & _ & Hedges & Hnone & Hparent).
  split.
  { intros inp s Hinp Hs. apply Hedges, list_elem_of_bind. eauto. }
  split; [|by split].
  intros Hnil. apply Hnone. clear -Hnil.
  induction (step_inputs step) as [|inp l IH]; [done|]. csimpl.
  rewrite (Hnil inp) by left. apply IH. intros i Hi. apply Hnil. by right.
Qed.


Lemma publish_lookup_in pr fo outs out :
  out ∈ outs -> publish pr fo outs !! out = Some (job_producer fo).
Proof.
  unfold publish. revert pr. induction outs as [|o outs IH]; intros pr Hin.
  - by apply elem_of_nil in Hin.
  - simpl. destruct (decide (out ∈ outs)) as [Hin'|Hnot]; [by apply IH|].
    apply elem_of_cons in Hin as [->|Hin]; [|done].
    clear IH. revert pr. induction outs as [|o' outs IH]; intros pr; simpl.
    + by rewrite lookup_insert_eq.
    + apply not_elem_of_cons in Hnot as [Hne Hnot].
      rewrite insert_insert_ne by done. by apply IH.
Qed.

Lemma publish_lookup_notin pr fo outs s :
  s ∉ outs -> publish pr fo outs !! s = pr !! s.
Proof.
  unfold publish. revert pr. induction outs as [|o outs IH]; intros pr Hnot;
    [done|].
  apply not_elem_of_cons in Hnot as [Hne Hnot]. simpl.
  rewrite IH by done. by rewrite lookup_insert_ne.
Qed.

Lemma connect_extends pr wfjob step h c h' :
  connect pr wfjob step h = Ok (c, h') -> extends h h'.
Proof.
  unfold connect. generalize (step_inputs step ≫= sources_of).
  intros l. revert h. generalize false.
  induction l as [|s l IH]; intros c0 h; simpl.
  - intros [= _ <-]. apply extends_refl.
  - destruct (promise_of pr s) as [p|]; cbn [mbind result_bind]; [|done].
    destruct (hasChild (p_job p) wfjob h); [apply IH|].
    intros Hrun%IH. eapply extends_trans; [apply extends_addChild | done].
Qed.

(** X17: what scheduling a step registers.  The step is entered in
    [jobs] with its follow-on, and every output of the step is promised
    by that follow-on, whatever promised it before; no other promise
    changes.  The follow-on is the gather job of a scattered step, the
    [ResolveIndirect] job of a step that runs a workflow, and the job
    itself otherwise; the first two hold the promise of the job that is
    wired under the producers. *)
Theorem scheduled_step_publishes_follow_on self cwlwf kw step st h st1 h1 :
  schedule_step self cwlwf kw step st h = Ok (st1, h1) ->
  exists fo node,
    jobs st1 = <[step_id step := fo]> (jobs st)
    /\ (forall out, out ∈ step_outputs step ->
          promises st1 !! out = Some (job_producer fo))
    /\ (forall s, s ∉ step_outputs step ->
          promises st1 !! s = promises st !! s)
    /\ h1 !! fo = Some node
    /\ match step_scatter step with
       | Some _ =>
           fo = length h + 1 /\ body node = CWLGather step (Rv (length h))
       | None =>
           if String.eqb (tool_class (embedded_tool step)) "Workflow" then
             fo = length h + 1
             /\ body node = ResolveIndirect (Rv (length h))
           else
             fo = length h
             /\ exists jobobj,
                  cwljob_of (body node) = Some (IndirectDict jobobj)
       end.
Proof.
  unfold schedule_step.
  destruct (foldM _ _ _) as [jobobj|]; cbn [mbind result_bind]; [|done].
  set (made := if bool_decide (is_Some (step_scatter step)) then _ else _).
  assert (Hmade : exists node,
            made.2 !! made.1.2 = Some node
            /\ match step_scatter step with
               | Some _ =>
                   made.1.2 = length h + 1
                   /\ body node = CWLGather step (Rv (length h))
               | None =>
                   if String.eqb (tool_class (embedded_tool step)) "Workflow"
                   then made.1.2 = length h + 1
                        /\ body node = ResolveIndirect (Rv (length h))
                   else made.1.2 = length h
                        /\ exists jobobj,
                             cwljob_of (body node)
                             = Some (IndirectDict jobobj)
               end).
  { unfold made. destruct (step_scatter step) as [s|].
    - rewrite bool_decide_eq_true_2 by eauto. unfold new_job. cbn [fst snd].
      eexists. split.
      + unfold addFollowOn. rewrite list_lookup_alter_ne
          by (rewrite length_app; simpl; lia).
        rewrite lookup_app_r by done. by rewrite Nat.sub_diag.
      + split; [rewrite length_app; simpl; lia | done].
    - rewrite bool_decide_eq_false_2 by (by intros [? ?]).
      unfold makeJob, new_job.
      destruct (String.eqb (tool_class (embedded_tool step)) "Workflow").
      + cbn [fst snd]. eexists. split.
        * unfold addFollowOn. rewrite list_lookup_alter_ne
            by (rewrite length_app; simpl; lia).
          rewrite lookup_app_r by done. by rewrite Nat.sub_diag.
        * split; [rewrite length_app; simpl; lia | done].
      + destruct (dynamic_resources (embedded_tool step)); cbn [fst snd];
          (eexists; split;
           [rewrite lookup_app_r by done; by rewrite Nat.sub_diag|]);
          (split; [done|]); by eexists. }
  destruct made as [[wfjob followOn] hm]. simpl in Hmade.
  destruct Hmade as (node & Hnode & Hkind).
  destruct (connect _ _ _ _) as [[c h2]|] eqn:Hc; cbn [mbind result_bind];
    [|done].
  intros [= <- <-]. simpl.
  assert (Hext : extends hm (if c then h2 else addChild self wfjob h2)).
  { apply (extends_trans _ h2); [by apply connect_extends in Hc|].
    destruct c; [apply extends_refl | apply extends_addChild]. }
  destruct (Hext _ _ Hnode) as (node' & Hnode' & Hbody & _).
  exists followOn, node'. split; [done|].
  split; [intros out Hout; by apply publish_lookup_in|].
  split; [intros s Hs; by apply publish_lookup_notin|].
  split; [done|]. by rewrite Hbody.
Qed.

Lemma publish_lookup pr fo outs s p :
  publish pr fo outs !! s = Some p -> pr !! s = Some p \/ p = job_producer fo.
Proof.
  unfold publish. revert pr. induction outs as [|o outs IH]; intros pr; simpl.
  - by left.
  - intros [Hp|Hp]%IH; [|by right].
    destruct (decide (o = s)) as [->|Hne].
    + rewrite lookup_insert_eq in Hp. injection Hp as <-. by right.
    + rewrite lookup_insert_ne in Hp by done. by left.
Qed.

Lemma handles_valid self cwljob st h :
  handles_in_graph self cwljob st h ->
  forall s p, promises st !! s = Some p -> p_job p < length h.
Proof.
  intros (Hself & Hpr & _) s p [->|(j & -> & Hj)]%Hpr; done.
Qed.

Lemma visit_step_graph self cwljob cwlwf kw f st h step f' st1 h1 :
  visit_step self cwlwf kw (f, st, h) step = Ok (f', st1, h1) ->
  handles_in_graph self cwljob st h ->
  handles_in_graph self cwljob st1 h1
  /\ extends h h1
  /\ jobs st ⊆ jobs st1.
Proof.
  unfold visit_step. destruct (ready st step) eqn:Hr; cycle 1.
  { simpl. intros [= _ <- <-] Hinv. split; [done|].
    split; [apply extends_refl | done]. }
  destruct (schedule_step _ _ _ _ _ _) as [[st2 h2]|] eqn:Hs;
    cbn [mbind result_bind]; [|done].
  intros [= _ <- <-] Hinv.
  pose proof (handles_valid _ _ _ _ Hinv) as Hvalid.
  destruct Hinv as (Hself & Hpr & Hjobs).
  destruct (schedule_step_graph _ _ _ _ _ _ _ _ Hs Hself Hvalid)
    as (jobobj & fo & _ & Hj & Hp & Hfo & Hext & _).
  pose proof (extends_length _ _ Hext) as Hle.
  apply ready_true in Hr as [Hnew _]. apply not_elem_of_dom in Hnew.
  split; [|split; [done|]].
  - split; [lia|]. split.
    + intros s p. rewrite Hp. intros [Hold| ->]%publish_lookup.
      * destruct (Hpr s p Hold) as [->|(j & -> & Hlt)]; [by left|].
        right. exists j. split; [done | lia].
      * right. by exists fo.
    + intros id j. rewrite Hj.
      destruct (decide (step_id step = id)) as [<-|Hne].
      * rewrite lookup_insert_eq. by intros [= <-].
      * rewrite lookup_insert_ne by done. intros Hold%Hjobs. lia.
  - rewrite Hj. by apply insert_subseteq.
Qed.

Lemma visit_all_graph self cwljob cwlwf kw l f st h f' st' h' :
  foldM (visit_step self cwlwf kw) (f, st, h) l = Ok (f', st', h') ->
  handles_in_graph self cwljob st h ->
  handles_in_graph self cwljob st' h'
  /\ extends h h'
  /\ jobs st ⊆ jobs st'.
Proof.
  revert f st h. induction l as [|x l IH]; intros f st h.
  - simpl. intros [= _ <- <-] Hinv. split; [done|].
    split; [apply extends_refl | done].
  - rewrite foldM_cons.
    destruct (visit_step self cwlwf kw (f, st, h) x)
      as [[[f1 st1] h1]|] eqn:Hx; cbn [mbind result_bind]; [|done].
    intros Hrest Hinv.
    destruct (visit_step_graph _ cwljob _ _ _ _ _ _ _ _ _ Hx Hinv)
      as (Hinv1 & Hext1 & Hj1).
    destruct (IH _ _ _ Hrest Hinv1) as (Hinv' & Hext' & Hj').
    split; [done|]. split; [by apply (extends_trans _ h1)|].
    by etrans.
Qed.

Lemma schedule_graph fuel self cwljob cwlwf kw st h st' h' :
  schedule fuel self cwlwf kw st h = Some (Ok (st', h')) ->
  handles_in_graph self cwljob st h ->
  handles_in_graph self cwljob st' h'
  /\ extends h h'
  /\ jobs st ⊆ jobs st'.
Proof.
  revert st h. induction fuel as [|fuel IH]; intros st h; simpl; [done|].
  unfold pass.
  destruct (foldM _ _ _) as [[[f1 st1] h1]|] eqn:Hfold;
    cbn [mbind result_bind]; [|done].
  intros Hrun Hinv.
  destruct (visit_all_graph _ cwljob _ _ _ _ _ _ _ _ _ Hfold Hinv)
    as (Hinv1 & Hext1 & Hj1).
  destruct (f1 && outputs_promised (promises st1) (tool_outputs cwlwf)).
  - by injection Hrun as <- <-.
  - destruct (IH _ _ Hrun Hinv1) as (Hinv' & Hext' & Hj').
    split; [done|]. split; [by apply (extends_trans _ h1)|].
    by etrans.
Qed.

(** X18: the loop only adds to what it is given.  When it ends, the
    nodes of the graph it began with are still there with their jobs,
    resources and children, a step that was registered keeps its job,
    and every promise and every registered job is a node of the
    graph. *)
Theorem schedule_only_extends fuel self cwljob cwlwf kw st h st' h' :
  schedule fuel self cwlwf kw st h = Some (Ok (st', h')) ->
  handles_in_graph self cwljob st h ->
  handles_in_graph self cwljob st' h'
  /\ extends h h'
  /\ jobs st ⊆ jobs st'.
Proof. apply schedule_graph. Qed.

Lemma initial_promises_lookup self cwlwf cwljob s p :
  initial_promises self cwlwf cwljob !! s = Some p -> p = SelfJob self cwljob.
Proof.
  unfold initial_promises.
  enough (forall l (pr : gmap string producer),
    foldl (fun pr inp => <[inp_id inp := SelfJob self cwljob]> pr) pr l !! s
    = Some p ->
    pr !! s = Some p \/ p = SelfJob self cwljob) as Hgen.
  { intros [Hp| ->]%Hgen; [by rewrite lookup_empty in Hp | done]. }
  induction l as [|inp l IH]; intros pr; simpl; [by left|].
  intros [Hp|Hp]%IH; [|by right].
  destruct (decide (inp_id inp = s)) as [Heq|Hne].
  - rewrite Heq, lookup_insert_eq in Hp. injection Hp as <-. by right.
  - rewrite lookup_insert_ne in Hp by done. by left.
Qed.

Lemma initial_handles self cwlwf cwljob h :
  self < length h ->
  handles_in_graph self cwljob
    {| promises := initial_promises self cwlwf cwljob; jobs := ∅ |} h.
Proof.
  intros Hself. split; [done|]. split; simpl.
  - intros s p ->%initial_promises_lookup. by left.
  - intros id j. by rewrite lookup_empty.
Qed.

Lemma foldM_dict_build_Forall2 {A B : Type} (f : A -> result B)
    (l : list (string * A)) (res d : list (string * B)) :
  NoDup (d.*1 ++ l.*1) ->
  Forall2 (fun kv kv' => kv.1 = kv'.1 /\ f kv.2 = Ok kv'.2) l res ->
  foldM (fun r kv => x ← f kv.2; Ok (dict_set r kv.1 x)) d l = Ok (d ++ res).
Proof.
  intros Hnd Hall. revert d Hnd.
  induction Hall as [|[k a] [k' b] l res [Hk Hf] _ IH]; intros d Hnd; simpl.
  - by rewrite app_nil_r.
  - simpl in Hk, Hf. subst k'. rewrite Hf. simpl.
    csimpl in Hnd. apply NoDup_app in Hnd as (Hd & Hdis & Hl).
    apply NoDup_cons in Hl as [Hk Hl].
    rewrite dict_set_fresh by (intros Hin; apply (Hdis k Hin); left).
    rewrite IH.
    + by rewrite <- app_assoc.
    + rewrite fmap_app. simpl. rewrite <- app_assoc. simpl.
      apply NoDup_app. split; [done|]. split.
      * intros x Hx [->|Hx']%elem_of_cons; [|by apply (Hdis x Hx); right].
        apply (Hdis k Hx). left.
      * by apply NoDup_cons.
Qed.

(** A dict without [StepValueFrom] resolves to the values of its
    entries. *)
Lemma resolve_indirect_values (items : list (string * entry value))
    (res : list (string * value)) :
  NoDup items.*1 ->
  Forall2 (fun kv kv' => kv.1 = kv'.1 /\ is_StepValueFrom kv.2 = false
                         /\ resolve_entry kv.2 = Ok kv'.2) items res ->
  resolve_indirect (IndirectDict items) = Ok res.
Proof.
  intros Hnd Hall. unfold resolve_indirect. rewrite inner_dict by done.
  replace ((fun kv => (kv.1, inner_of kv.2)) <$> items) with items; cycle 1.
  { clear Hnd. induction Hall as [|[k e] kv' l res (_ & He & _) _ IH];
      [done|]. csimpl. rewrite <- IH. by destruct e. }
  replace (existsb _ items) with false; cycle 1.
  { clear Hnd. induction Hall as [|[k e] kv' l res (_ & He & _) _ IH];
      [done|]. simpl in *. by rewrite He. }
  unfold _resolve_indirect_inner.
  rewrite (foldM_dict_build_Forall2 resolve_entry items res []);
    [done | done |].
  eapply Forall2_impl; [exact Hall|]. by intros kv kv' (? & _ & ?).
Qed.

Lemma build_input_plain pr scattered req jobobj inp :
  plain_port inp = true ->
  build_input pr scattered req jobobj inp
  = match inp_source inp with
    | Some (SrcStr s) =>
        p ← promise_of pr s;
        Ok (dict_set jobobj (shortname (inp_id inp))
              (Tagged (shortname s) (p_rv p)))
    | Some (SrcList _) => Raise AttributeError
    | None =>
        match inp_default inp with
        | Some d =>
            Ok (dict_set jobobj (shortname (inp_id inp))
                  (Tagged "default" (Held (VDict [("default", d)]))))
        | None => Ok jobobj
        end
    end.
Proof.
  unfold plain_port, build_input.
  intros [[Hm Hs]%andb_prop Hv]%andb_prop.
  apply negb_true_iff in Hm. rewrite Hm.
  destruct (inp_valueFrom inp); [done|].
  destruct (inp_source inp) as [[s|l]|]; [|done|].
  - simpl. by destruct (promise_of pr s).
  - by destruct (inp_default inp).
Qed.

Lemma build_plain_inputs pr rets scattered req inps :
  (forall inp, inp ∈ inps -> plain_port inp = true) ->
  (forall s p, pr !! s = Some p -> exists d, fulfil rets (p_rv p) = VDict d) ->
  forall acc accv jobobj,
  NoDup (acc.*1 ++ (shortname ∘ inp_id <$> inps)) ->
  Forall2 (fun (kv : string * entry handle) (kv' : string * value) =>
             kv.1 = kv'.1 /\ is_StepValueFrom kv.2 = false
             /\ resolve_entry (entry_map (fulfil rets) kv.2) = Ok kv'.2)
    acc accv ->
  foldM (build_input pr scattered req) acc inps = Ok jobobj ->
  NoDup jobobj.*1
  /\ Forall2 (fun (kv : string * entry handle) (kv' : string * value) =>
                kv.1 = kv'.1 /\ is_StepValueFrom kv.2 = false
                /\ resolve_entry (entry_map (fulfil rets) kv.2) = Ok kv'.2)
       jobobj
       (accv ++ omap (fun inp => v ← port_value pr rets inp;
                                 Some (shortname (inp_id inp), v)) inps).
Proof.
  intros Hplain Hdict. induction inps as [|inp inps IH];
    intros acc accv jobobj Hnd Hacc.
  - simpl. intros [= <-]. rewrite !app_nil_r in *. done.
  - rewrite foldM_cons, build_input_plain by (apply Hplain; left).
    csimpl in Hnd.
    assert (Hfresh : shortname (inp_id inp) ∉ acc.*1).
    { apply NoDup_app in Hnd as (_ & Hdis & _). intros Hin.
      apply (Hdis _ Hin). left. }
    assert (Hnd' : forall e : entry handle,
              NoDup ((acc ++ [(shortname (inp_id inp), e)]).*1
                     ++ (shortname ∘ inp_id <$> inps))).
    { intros e. rewrite fmap_app, <- app_assoc. done. }
    assert (Hrest : forall i, i ∈ inps -> plain_port i = true)
      by (intros i Hi; apply Hplain; by right).
    cbn [omap list_omap]. unfold port_value at 1.
    destruct (inp_source inp) as [[s|l]|].
    + unfold promise_of.
      destruct (pr !! s) as [p|] eqn:Hp; cbn [mbind result_bind option_bind];
        [|done].
      destruct (Hdict s p Hp) as [d Hd]. rewrite Hd.
      rewrite dict_set_fresh by done. intros Hrun.
      cbn [mbind option_bind].
      rewrite (cons_middle _ accv), app_assoc.
      refine (IH Hrest _ _ _ (Hnd' _) _ Hrun).
      apply Forall2_app; [done|]. constructor; [|constructor].
      simpl. by rewrite Hd.
    + done.
    + destruct (inp_default inp) as [d|]; cbn [mbind result_bind option_bind].
      * rewrite dict_set_fresh by done. intros Hrun.
        rewrite (cons_middle _ accv), app_assoc.
        refine (IH Hrest _ _ _ (Hnd' _) _ Hrun).
        apply Forall2_app; [done|]. constructor; [|constructor]. done.
      * intros Hrun. refine (IH Hrest _ _ _ _ Hacc Hrun).
        apply NoDup_app in Hnd as (Ha & Hdis & Hl).
        apply NoDup_cons in Hl as [_ Hl].
        apply NoDup_app. split; [done|]. split; [|done].
        intros x Hx Hx'. apply (Hdis x Hx). by right.
Qed.

(** The inputs that the job of a step with plain ports resolves to. *)
Lemma plain_inputs_resolve pr rets scattered req inps jobobj :
  (forall inp, inp ∈ inps -> plain_port inp = true) ->
  NoDup (shortname ∘ inp_id <$> inps) ->
  (forall s p, pr !! s = Some p -> exists d, fulfil rets (p_rv p) = VDict d) ->
  foldM (build_input pr scattered req) [] inps = Ok jobobj ->
  resolve_indirect (jobobj_map (fulfil rets) (IndirectDict jobobj))
  = Ok (omap (fun inp => v ← port_value pr rets inp;
                         Some (shortname (inp_id inp), v)) inps).
Proof.
  intros Hplain Hnd Hdict Hbuild.
  destruct (build_plain_inputs pr rets _ _ _ Hplain Hdict
              [] [] jobobj Hnd (Forall2_nil_2 _ _ _) Hbuild) as [Hnd' Hall].
  simpl. apply resolve_indirect_values.
  - rewrite <- list_fmap_compose.
    replace (fst ∘ prod_map id (entry_map (fulfil rets)) <$> jobobj)
      with jobobj.*1; [done|].
    apply list_fmap_ext. by intros _ [k e] _.
  - apply Forall2_fmap_l. eapply Forall2_impl; [exact Hall|].
    intros [k e] kv' (Hk & He & Hr). simpl in *. split; [done|].
    split; [by destruct e | done].
Qed.

(** X19: the job of a scheduled step holds the inputs of the step.  For
    a step whose ports have no merge and no expression, the job object
    of the new job resolves, once the promises are fulfilled, to a dict
    with a key per port that has a source or a default, in the order of
    the ports: a port with a source gets what the result of the
    producer holds under the short name of the source, a port without
    source its default. *)
Theorem scheduled_step_inputs self cwlwf kw step st h st1 h1
    (rets : nat -> value) :
  schedule_step self cwlwf kw step st h = Ok (st1, h1) ->
  self < length h ->
  (forall s p, promises st !! s = Some p -> p_job p < length h) ->
  (forall inp, inp ∈ step_inputs step -> plain_port inp = true) ->
  NoDup (shortname ∘ inp_id <$> step_inputs step) ->
  (forall s p, promises st !! s = Some p ->
     exists d, fulfil rets (p_rv p) = VDict d) ->
  exists jobobj,
    input_at h1 (length h) = Some jobobj
    /\ resolve_indirect (jobobj_map (fulfil rets) jobobj)
       = Ok (omap (fun inp => v ← port_value (promises st) rets inp;
                              Some (shortname (inp_id inp), v))
               (step_inputs step)).
Proof.
  intros Hrun Hself Hvalid Hplain Hnd Hdict.
  destruct (schedule_step_graph _ _ _ _ _ _ _ _ Hrun Hself Hvalid)
    as (jobobj & fo & Hbuild & _ & _ & _ & _ & Hin & _).
  exists (IndirectDict jobobj). split; [done|].
  by apply (plain_inputs_resolve _ _ _ _ _ _ Hplain Hnd Hdict Hbuild).
Qed.

(** The job that scheduling makes for a step that is not scattered. *)
Lemma schedule_step_job self cwlwf kw step st h st1 h1 :
  schedule_step self cwlwf kw step st h = Ok (st1, h1) ->
  step_scatter step = None ->
  exists jobobj node,
    foldM (build_input (promises st) false (tool_requirements cwlwf)) []
      (step_inputs step) = Ok jobobj
    /\ h1 !! length h = Some node
    /\ body node
       = body (default (plain_job (ResolveIndirect (Rv 0)))
                 ((makeJob (embedded_tool step) (IndirectDict jobobj)
                     (with_step_inputs (step_inputs step) kw) []).2 !! 0)).
Proof.
  unfold schedule_step. intros Hrun Hscatter. rewrite Hscatter in Hrun.
  rewrite bool_decide_eq_false_2 in Hrun by (by intros [? ?]).
  destruct (foldM _ _ _) as [jobobj|]; cbn [mbind result_bind] in Hrun;
    [|done].
  exists jobobj.
  set (made := makeJob _ _ _ h) in Hrun.
  assert (Hmade : exists node,
            made.2 !! length h = Some node
            /\ body node
               = body (default (plain_job (ResolveIndirect (Rv 0)))
                         ((makeJob (embedded_tool step) (IndirectDict jobobj)
                             (with_step_inputs (step_inputs step) kw) []).2
                          !! 0))).
  { unfold made, makeJob, new_job.
    destruct (String.eqb (tool_class (embedded_tool step)) "Workflow").
    - cbn [fst snd]. eexists. split.
      + unfold addFollowOn at 1. rewrite list_lookup_alter_eq.
        rewrite <- app_assoc, lookup_app_r, Nat.sub_diag by done.
        reflexivity.
      + reflexivity.
    - destruct (dynamic_resources (embedded_tool step)); cbn [fst snd];
        (eexists; split;
         [rewrite lookup_app_r by done; by rewrite Nat.sub_diag | done]). }
  destruct made as [[wfjob followOn] hm]. simpl in Hmade.
  destruct Hmade as (node & Hnode & Hbody).
  destruct (connect _ _ _ _) as [[c h2]|] eqn:Hc;
    cbn [mbind result_bind] in Hrun; [|done].
  injection Hrun as <- <-.
  assert (Hext : extends hm (if c then h2 else addChild self wfjob h2)).
  { apply (extends_trans _ h2); [by apply connect_extends in Hc|].
    destruct c; [apply extends_refl | apply extends_addChild]. }
  destruct (Hext _ _ Hnode) as (node' & Hnode' & Hbody' & _).
  exists node'. split; [done|]. split; [done|]. by rewrite Hbody'.
Qed.

(** X23: dynamic resources, end to end.  For a step that is not
    scattered, whose tool is no workflow and has an expression among its
    resource fields, scheduling makes a [CWLJobWrapper] that holds the
    inputs of the step; when the wrapper runs with its promises
    fulfilled, it makes the real [CWLJob] as its child, with the
    resources that the tool evaluates on the resolved inputs of the step
    and with the input ports of the step. *)
Theorem dynamic_step_resources self cwlwf kw step st h st1 h1
    (rets : nat -> value) :
  schedule_step self cwlwf kw step st h = Ok (st1, h1) ->
  step_scatter step = None ->
  tool_class (embedded_tool step) <> "Workflow" ->
  dynamic_resources (embedded_tool step) = true ->
  kw_builder kw = None ->
  (forall inp, inp ∈ step_inputs step -> plain_port inp = true) ->
  NoDup (shortname ∘ inp_id <$> step_inputs step) ->
  (forall s p, promises st !! s = Some p ->
     exists d, fulfil rets (p_rv p) = VDict d) ->
  let tool := embedded_tool step in
  let inputs :=
    omap (fun inp => v ← port_value (promises st) rets inp;
                     Some (shortname (inp_id inp), v)) (step_inputs step) in
  let req := evalResources tool {| builder_job := inputs |} in
  exists jobobj node,
    h1 !! length h = Some node
    /\ body node = CWLJobWrapper tool jobobj
                     (with_step_inputs (step_inputs step) kw)
    /\ forall (w : nat) (h2 : list JobNode),
       exists real,
         CWLJobWrapper_run w tool (jobobj_map (fulfil rets) jobobj)
           (with_step_inputs (step_inputs step) kw) h2
         = Ok (Rv (length h2), addChild w (length h2) (h2 ++ [real]))
         /\ cores real = Some (inject_Z (res_cores req))
         /\ memory real = Some (res_ram req * 1024 * 1024)%Z
         /\ disk real = Some (res_tmpdirSize req * 1024 * 1024
                              + res_outdirSize req * 1024 * 1024)%Z
         /\ exists cwljob opts,
              body real = CWLJob tool cwljob (step_inputs step) opts.
Proof.
  intros Hrun Hscatter Hleaf Hdyn Hkw Hplain Hnd Hdict tool inputs req.
  destruct (schedule_step_job _ _ _ _ _ _ _ _ Hrun Hscatter)
    as (jobobj & node & Hbuild & Hnode & Hbody).
  exists (IndirectDict jobobj), node. split; [done|].
  unfold makeJob in Hbody.
  apply String.eqb_neq in Hleaf. fold tool in Hbody, Hleaf.
  rewrite Hleaf in Hbody. fold tool in Hdyn. rewrite Hdyn in Hbody.
  split; [exact Hbody|].
  intros w h2. unfold CWLJobWrapper_run.
  rewrite (plain_inputs_resolve _ _ _ _ _ _ Hplain Hnd Hdict Hbuild).
  cbn [mbind result_bind]. simpl kw_builder. rewrite Hkw.
  unfold new_job. eexists. split; [reflexivity|].
  repeat split. by eexists _, _.
Qed.

Lemma dict_lookup_fmap_NoDup {A B : Type} (key : A -> string) (val : A -> B)
    (l : list A) (x : A) :
  NoDup (key <$> l) -> x ∈ l ->
  dict_lookup ((fun x => (key x, val x)) <$> l) (key x) = Some (val x).
Proof.
  induction l as [|y l IH]; csimpl; intros Hnd Hx.
  - by apply elem_of_nil in Hx.
  - apply NoDup_cons in Hnd as [Hy Hnd].
    destruct (String.eqb_spec (key y) (key x)) as [Heq|Hne].
    + apply elem_of_cons in Hx as [->|Hx]; [done|].
      destruct Hy. rewrite Heq. by apply list_elem_of_fmap_2.
    + apply elem_of_cons in Hx as [->|Hx]; [done | by apply IH].
Qed.

(** The output object of a workflow whose [outputSource]s are
    promised. *)
Lemma output_object_ok pr outs :
  (forall out, out ∈ outs ->
     exists s p, out_outputSource out = Some s /\ pr !! s = Some p) ->
  NoDup (shortname ∘ out_id <$> outs) ->
  exists outobj,
    output_object pr outs = Ok outobj
    /\ Forall2 (fun out (kv : string * entry handle) =>
                  kv.1 = shortname (out_id out)
                  /\ exists s p, out_outputSource out = Some s
                                 /\ pr !! s = Some p
                                 /\ kv.2 = Tagged (shortname s) (p_rv p))
         outs outobj.
Proof.
  intros Hall Hnd.
  set (val := fun out =>
         match out_outputSource out with
         | Some s => Tagged (shortname s)
                       (match pr !! s with
                        | Some p => p_rv p
                        | None => Held VNone
                        end)
         | None => Tagged EmptyString (Held VNone)
         end).
  exists ((fun out => ((shortname ∘ out_id) out, val out)) <$> outs).
  split.
  - unfold output_object.
    rewrite (foldM_ext _ (fun outobj out =>
               v ← Ok (val out);
               Ok (dict_set outobj ((shortname ∘ out_id) out) v))).
    + by rewrite (foldM_dict_build (shortname ∘ out_id)
                    (fun out => Ok (val out)) val);
        [| | apply Forall_forall].
    + intros outobj out Hout.
      destruct (Hall out Hout) as (s & p & Hs & Hp).
      unfold val, promise_of. rewrite Hs. cbn [mbind result_bind].
      by rewrite Hp.
  - apply Forall2_fmap_r, Forall_Forall2_diag, Forall_forall.
    intros out Hout. split; [done|].
    destruct (Hall out Hout) as (s & p & Hs & Hp).
    exists s, p. unfold val. simpl. by rewrite Hs, Hp.
Qed.

Lemma Forall2_keys {A B : Type} (R : A -> string * B -> Prop)
    (key : A -> string) (l : list A) (d : list (string * B)) :
  Forall2 (fun x kv => kv.1 = key x /\ R x kv) l d -> d.*1 = key <$> l.
Proof.
  induction 1 as [|x kv l d [Hk _] _ IH]; csimpl; [done|]. by rewrite Hk, IH.
Qed.

Lemma Forall2_dict_lookup {A B : Type} (R : A -> string * B -> Prop)
    (key : A -> string) (l : list A) (d : list (string * B)) (x : A) :
  Forall2 (fun x kv => kv.1 = key x /\ R x kv) l d ->
  NoDup (key <$> l) -> x ∈ l ->
  exists v, dict_lookup d (key x) = Some v /\ R x (key x, v).
Proof.
  induction 1 as [|y [k v] l d [Hk Hr] Hall IH]; csimpl; intros Hnd Hx.
  - by apply elem_of_nil in Hx.
  - simpl in Hk. subst k. apply NoDup_cons in Hnd as [Hy Hnd].
    destruct (String.eqb_spec (key y) (key x)) as [Heq|Hne].
    + apply elem_of_cons in Hx as [->|Hx]; [by exists v|].
      destruct Hy. rewrite Heq. by apply list_elem_of_fmap_2.
    + apply elem_of_cons in Hx as [->|Hx]; [done | by apply IH].
Qed.

(** X20: building the output object raises nothing but [KeyError], and
    raises it exactly when some workflow output has no [outputSource]
    or one that is not promised; the key [source], which the loop
    tests, plays no part. *)
Theorem output_object_KeyError pr outs :
  match output_object pr outs with
  | Ok _ =>
      Forall (fun out => exists s, out_outputSource out = Some s
                                   /\ is_Some (pr !! s)) outs
  | Raise e =>
      e = KeyError
      /\ Exists (fun out => forall s, out_outputSource out = Some s ->
                                      pr !! s = None) outs
  end.
Proof.
  unfold output_object. generalize (@nil (string * entry handle)).
  induction outs as [|out outs IH]; intros acc; [by constructor|].
  rewrite foldM_cons.
  destruct (out_outputSource out) as [s|] eqn:Hs; cbn [mbind result_bind];
    cycle 1.
  { split; [done|]. apply Exists_cons_hd. by rewrite Hs. }
  unfold promise_of.
  destruct (pr !! s) as [p|] eqn:Hp; cbn [mbind result_bind]; cycle 1.
  { split; [done|]. apply Exists_cons_hd. rewrite Hs. by intros ? [= <-]. }
  specialize (IH (dict_set acc (shortname (out_id out))
                    (Tagged (shortname s) (p_rv p)))).
  destruct (foldM _ _ outs) as [outobj|e].
  - constructor; [|done]. exists s. by rewrite Hs, Hp.
  - destruct IH as [-> Hex]. split; [done|]. by apply Exists_cons_tl.
Qed.

(** The loop on a well-formed workflow whose outputs have produced
    [outputSource]s. *)
Lemma workflow_run_spec self cwlwf kw h job :
  well_formed cwlwf ->
  self < length h ->
  (forall out, out ∈ tool_outputs cwlwf ->
     exists s, out_outputSource out = Some s /\ produced cwlwf s) ->
  NoDup (shortname ∘ out_id <$> tool_outputs cwlwf) ->
  exists st' h' outobj,
    (forall fuel, length (steps cwlwf) < fuel ->
       schedule fuel self cwlwf kw
         {| promises := initial_promises self cwlwf job; jobs := ∅ |} h
       = Some (Ok (st', h')))
    /\ output_object (promises st') (tool_outputs cwlwf) = Ok outobj
    /\ extends h h'
    /\ Forall2 (fun out (kv : string * entry handle) =>
                  kv.1 = shortname (out_id out)
                  /\ exists s hd,
                       out_outputSource out = Some s
                       /\ kv.2 = Tagged (shortname s) hd
                       /\ (hd = Held (VDict job)
                           \/ exists j, hd = Rv j /\ j < length h'))
         (tool_outputs cwlwf) outobj.
Proof.
  intros WF Hself Houts Hnd.
  set (st0 := {| promises := initial_promises self cwlwf job; jobs := ∅ |}).
  assert (Hinv0 : sched_inv cwlwf h st0 h).
  { split; simpl.
    - intros inp Hinp. rewrite dom_initial_promises.
      by apply elem_of_list_to_set, list_elem_of_fmap_2.
    - intros step out _ Hreg. rewrite dom_empty_L in Hreg. set_solver.
    - rewrite dom_empty_L. set_solver.
    - unfold constructed.
      enough (forall l : list Step,
        sum_list ((fun step =>
                     if bool_decide (is_Some ((∅ : gmap string nat)
                                                !! step_id step))
                     then jobs_for step else 0) <$> l) = 0) as -> by lia.
      induction l as [|x l IH]; csimpl; [done|].
      rewrite lookup_empty, IH.
      by rewrite bool_decide_eq_false_2 by (by intros [? ?]). }
  destruct (schedule_terminates self cwlwf kw h WF (length (steps cwlwf))
              st0 h Hinv0) as (st' & h' & Hrun & Hinv' & Hall); [lia|].
  assert (Hprom : forall s, produced cwlwf s -> s ∈ dom (promises st')).
  { intros s. apply (produced_promised cwlwf h st' h'); [done|].
    intros x Hx. by apply ready_false_registered, Hall. }
  destruct (schedule_graph (S (length (steps cwlwf))) self job cwlwf kw
              st0 h st' h') as ((_ & Hpr & _) & Hext & _).
  { apply Hrun. lia. }
  { by apply initial_handles. }
  destruct (output_object_ok (promises st') (tool_outputs cwlwf))
    as (outobj & Hobj & Hentries); [|done|].
  { intros out Hout. destruct (Houts out Hout) as (s & Hs & Hprod).
    apply Hprom, elem_of_dom in Hprod as [p Hp]. eauto. }
  exists st', h', outobj. split; [done|]. split; [done|]. split; [done|].
  eapply Forall2_impl; [exact Hentries|].
  intros out kv (Hk & s & p & Hs & Hp & Hkv). split; [done|].
  exists s, (p_rv p). split; [done|]. split; [done|].
  destruct (Hpr s p Hp) as [->|(j & -> & Hj)]; [by left|].
  right. by exists j.
Qed.

(** X21: on a well-formed workflow every output of which has an
    [outputSource] that is produced, [CWLWorkflow.run] returns, within
    one pass more than there are steps.  It returns an [IndirectDict]
    with one entry per workflow output, under the short name of the
    output: a tuple of the short name of its [outputSource] and of the
    job order of the workflow or the promise of a node of the graph.
    The graph it was given is extended. *)
Theorem workflow_run_output_object self cwlwf cwljob kw h job :
  well_formed cwlwf ->
  resolve_indirect cwljob = Ok job ->
  self < length h ->
  (forall out, out ∈ tool_outputs cwlwf ->
     exists s, out_outputSource out = Some s /\ produced cwlwf s) ->
  NoDup (shortname ∘ out_id <$> tool_outputs cwlwf) ->
  exists outobj h',
    (forall fuel, length (steps cwlwf) < fuel ->
       CWLWorkflow_run fuel self cwlwf cwljob kw h
       = Some (Ok (IndirectDict outobj, h')))
    /\ outobj.*1 = (shortname ∘ out_id <$> tool_outputs cwlwf)
    /\ (forall out s, out ∈ tool_outputs cwlwf ->
          out_outputSource out = Some s ->
          exists hd,
            dict_lookup outobj (shortname (out_id out))
            = Some (Tagged (shortname s) hd)
            /\ (hd = Held (VDict job)
                \/ exists j, hd = Rv j /\ j < length h'))
    /\ extends h h'.
Proof.
  intros WF Hjob Hself Houts Hnd.
  destruct (workflow_run_spec self cwlwf kw h job WF Hself Houts Hnd)
    as (st' & h' & outobj & Hrun & Hobj & Hext & Hentries).
  exists outobj, h'. split; [|split; [|split; [|done]]].
  - intros fuel Hfuel. unfold CWLWorkflow_run.
    by rewrite Hjob, (Hrun fuel Hfuel), Hobj.
  - exact (Forall2_keys _ (shortname ∘ out_id) _ _ Hentries).
  - intros out s Hout Hs.
    destruct (Forall2_dict_lookup _ (shortname ∘ out_id) _ _ out
                Hentries Hnd Hout) as (e & He & s' & hd & Hs' & Hkv & Hhd).
    simpl in He, Hkv. subst e. exists hd. split; [|done]. congruence.
Qed.

End scheduling_more.

(** ** The properties on the sample documents *)

#[local] Existing Instance sample_cwltool.

(** C5 on the merge of the sources [[1, 2], 3]: nested gives
    [[[1, 2], 3]], flattened gives [[1, 2, 3]]. *)
Lemma merge_resolve_in_source_order_witness :
  Forall2 (fun src v => py_getitem src.2 src.1 = Ok v) sample_sources
    [VList [VInt 1; VInt 2]; VInt 3]
  /\ resolve_entry (MergeInputsNested sample_sources)
     = Ok (VList [VList [VInt 1; VInt 2]; VInt 3])
  /\ resolve_entry (MergeInputsFlattened sample_sources)
     = Ok (VList [VInt 1; VInt 2; VInt 3])
  /\ resolve_indirect
       (IndirectDict [("merged", MergeInputsNested sample_sources)])
     = Ok [("merged", VList [VList [VInt 1; VInt 2]; VInt 3])]
  /\ resolve_indirect
       (IndirectDict [("merged", MergeInputsFlattened sample_sources)])
     = Ok [("merged", VList [VInt 1; VInt 2; VInt 3])].
Proof.
  assert (Hs : Forall2 (fun src v => py_getitem src.2 src.1 = Ok v)
                 sample_sources [VList [VInt 1; VInt 2]; VInt 3])
    by (repeat constructor).
  split; [exact Hs|].
  exact (merge_resolve_in_source_order sample_sources _ "merged" Hs).
Defined.

(** C3 as stated fails: the producer's result has no key [out], and the
    input resolves to [None] instead of raising. *)
Lemma resolve_missing_key_gives_none :
  dict_lookup [("other", VInt 1)] "out" = None
  /\ resolve_indirect
       (IndirectDict [("x", Tagged "out" (VDict [("other", VInt 1)]))])
     = Ok [("x", VNone)]
  /\ ~ (exists e,
          resolve_indirect
            (IndirectDict [("x", Tagged "out" (VDict [("other", VInt 1)]))])
          = Raise e).
Proof.
  split; [reflexivity|]. split; [reflexivity|].
  intros [e He]. discriminate He.
Qed.

Lemma resolve_tagged_get_witness :
  NoDup ["x"; "y"]
  /\ resolve_indirect
       (IndirectDict [("x", Tagged "out" (VDict [("out", VInt 7)]));
                      ("y", Tagged "out" (VDict [("other", VInt 1)]))])
     = Ok [("x", VInt 7); ("y", VNone)].
Proof.
  assert (Hnd : NoDup ["x"; "y"]) by (by apply (bool_decide_unpack _)).
  split; [exact Hnd|].
  exact (resolve_tagged_get
           [("x", ("out", [("out", VInt 7)]));
            ("y", ("out", [("other", VInt 1)]))] Hnd).
Defined.

Lemma resolve_plain_unchanged_witness :
  NoDup (job_2_3.*1)
  /\ resolve_indirect (PlainDict job_2_3) = Ok job_2_3.
Proof.
  assert (Hnd : NoDup (job_2_3.*1)) by (by apply (bool_decide_unpack _)).
  split; [exact Hnd|].
  exact (resolve_plain_unchanged job_2_3 Hnd).
Defined.


Lemma scatter_graph_in_graph step job : in_graph 0 (scatter_graph step job).
Proof. split; [simpl; lia | constructor]. Qed.

(** C4 as stated fails: the lists have lengths 2 and 3, and the
    dotproduct scatter returns two promises instead of raising. *)
Lemma dotproduct_unequal_lengths_no_error :
  dict_lookup job_2_3 "a" = Some (VList [VInt 1; VInt 2])
  /\ dict_lookup job_2_3 "b" = Some (VList [VInt 10; VInt 20; VInt 30])
  /\ (exists h',
        CWLScatter_run 0 (scatter_step two_keys (Some "dotproduct"))
          (PlainDict job_2_3) sample_kwargs
          (scatter_graph (scatter_step two_keys (Some "dotproduct")) job_2_3)
        = Ok (OList [ORv 1; ORv 2], h'))
  /\ ~ (exists e,
          CWLScatter_run 0 (scatter_step two_keys (Some "dotproduct"))
            (PlainDict job_2_3) sample_kwargs
            (scatter_graph (scatter_step two_keys (Some "dotproduct"))
               job_2_3)
          = Raise e).
Proof.
  split; [reflexivity|]. split; [reflexivity|]. split.
  - eexists. vm_compute. reflexivity.
  - intros [e He]. vm_compute in He. discriminate He.
Qed.

Lemma dotproduct_scatter_two_keys_witness :
  length [VInt 1; VInt 2; VInt 3] <= length [VInt 10; VInt 20; VInt 30]
  /\ (exists fs h',
        CWLScatter_run 0 (scatter_step two_keys (Some "dotproduct"))
          (PlainDict job_3_3) sample_kwargs
          (scatter_graph (scatter_step two_keys (Some "dotproduct")) job_3_3)
        = Ok (OList (ORv <$> fs), h')
        /\ length fs = 3
        /\ child_inputs 0 h'
           = [Some (PlainDict (pair_order (VInt 1) (VInt 10)));
              Some (PlainDict (pair_order (VInt 2) (VInt 20)));
              Some (PlainDict (pair_order (VInt 3) (VInt 30)))])
  /\ CWLScatter_run 0 (scatter_step two_keys (Some "dotproduct"))
       (PlainDict job_3_2) sample_kwargs
       (scatter_graph (scatter_step two_keys (Some "dotproduct")) job_3_2)
     = Raise IndexError.
Proof.
  assert (Hlen : length [VInt 1; VInt 2; VInt 3]
                 <= length [VInt 10; VInt 20; VInt 30]) by (simpl; lia).
  assert (Hshort : length [VInt 10; VInt 20]
                   < length [VInt 1; VInt 2; VInt 3]) by (simpl; lia).
  split; [exact Hlen|]. split; cycle 1.
  { exact (proj2 (dotproduct_scatter_two_keys 0
                    (scatter_step two_keys (Some "dotproduct"))
                    (PlainDict job_3_2) sample_kwargs
                    (scatter_graph (scatter_step two_keys (Some "dotproduct"))
                       job_3_2)
                    "#main/step/a" "#main/step/b" job_3_2
                    [VInt 1; VInt 2; VInt 3] [VInt 10; VInt 20]
                    (fun x y => [("a", x); ("b", y)])
                    eq_refl eq_refl eq_refl eq_refl eq_refl
                    (fun i x y _ _ => eq_refl)
                    (scatter_graph_in_graph _ _)) Hshort). }
  exact (proj1 (dotproduct_scatter_two_keys 0
                  (scatter_step two_keys (Some "dotproduct"))
                  (PlainDict job_3_3) sample_kwargs
                  (scatter_graph (scatter_step two_keys (Some "dotproduct"))
                     job_3_3)
                  "#main/step/a" "#main/step/b" job_3_3
                  [VInt 1; VInt 2; VInt 3] [VInt 10; VInt 20; VInt 30]
                  pair_order eq_refl eq_refl eq_refl eq_refl eq_refl
                  (fun i x y _ _ => eq_refl)
                  (scatter_graph_in_graph _ _)) Hlen).
Defined.


(** The last sentence of C10 as stated fails: with no scattered key at
    all the run raises both errors about the scatter method. *)
Lemma scatter_method_errors_without_keys :
  scatter_keys (scatter_step (SrcList []) None) = []
  /\ ~ (1 < length (scatter_keys (scatter_step (SrcList []) None)))
  /\ CWLScatter_run 0 (scatter_step (SrcList []) None)
       (PlainDict job_2_3) sample_kwargs
       (scatter_graph (scatter_step (SrcList []) None) job_2_3)
     = Raise (ValidationException
                "Must provide scatterMethod to scatter over multiple inputs")
  /\ CWLScatter_run 0 (scatter_step (SrcList []) (Some "zipped"))
       (PlainDict job_2_3) sample_kwargs
       (scatter_graph (scatter_step (SrcList []) (Some "zipped")) job_2_3)
     = Raise (ValidationException
                "Unsupported complex scatter type 'zipped'").
Proof.
  split; [reflexivity|]. split; [simpl; lia|]. split; reflexivity.
Qed.

Lemma single_key_forces_dotproduct_witness :
  scatter_keys (scatter_step (SrcStr "#main/step/a")
                  (Some "nested_crossproduct")) = ["#main/step/a"]
  /\ exists fs h',
       CWLScatter_run 0
         (scatter_step (SrcStr "#main/step/a") (Some "nested_crossproduct"))
         (PlainDict job_2_3) sample_kwargs
         (scatter_graph
            (scatter_step (SrcStr "#main/step/a")
               (Some "nested_crossproduct")) job_2_3)
       = Ok (OList (ORv <$> fs), h')
       /\ length fs = 2
       /\ child_inputs 0 h'
          = [Some (PlainDict
                     (pair_order (VInt 1)
                        (VList [VInt 10; VInt 20; VInt 30])));
             Some (PlainDict
                     (pair_order (VInt 2)
                        (VList [VInt 10; VInt 20; VInt 30])))].
Proof.
  split; [reflexivity|].
  exact (proj2 (proj2 (single_key_forces_dotproduct 0
                         (scatter_step (SrcStr "#main/step/a")
                            (Some "nested_crossproduct"))
                         (PlainDict job_2_3) sample_kwargs
                         (scatter_graph
                            (scatter_step (SrcStr "#main/step/a")
                               (Some "nested_crossproduct")) job_2_3)
                         "#main/step/a" eq_refl))
           job_2_3 [VInt 1; VInt 2]
           (fun x => pair_order x (VList [VInt 10; VInt 20; VInt 30]))
           eq_refl eq_refl (fun x _ => eq_refl)
           (scatter_graph_in_graph _ _)).
Defined.

Lemma gather_reconstructs_shape_witness :
  OutStr "#main/step/out"
    ∈ step_out (scatter_step two_keys (Some "nested_crossproduct"))
  /\ dict_lookup
       (CWLGather_run (scatter_step two_keys (Some "nested_crossproduct"))
          (outputs_fulfil (fun j => VDict (sample_results j)) sample_outputs))
       "out"
     = Some (VList [VList [VInt 1; VInt 2]; VList [VInt 3; VInt 4]]).
Proof.
  assert (Hin : OutStr "#main/step/out"
                  ∈ step_out (scatter_step two_keys
                                (Some "nested_crossproduct")))
    by (simpl; left).
  split; [exact Hin|].
  exact (proj1 (gather_reconstructs_shape
                  (scatter_step two_keys (Some "nested_crossproduct"))
                  sample_outputs sample_results (OutStr "#main/step/out")
                  Hin)).
Defined.

Lemma chain_workflow_well_formed : well_formed chain_workflow.
Proof.
  assert (Hin : produced chain_workflow "#main/in").
  { apply (produced_input chain_workflow (sample_port "#main/in" None)).
    simpl; left. }
  assert (Hfirst : produced chain_workflow "#main/first/out").
  { apply (produced_output chain_workflow
             (leaf_step "#main/first" "#main/in")).
    - simpl. right. left.
    - simpl. left.
    - intros inp s Hinp Hs. simpl in Hinp.
      apply list_elem_of_singleton in Hinp as ->.
      simpl in Hs. by apply list_elem_of_singleton in Hs as ->. }
  assert (Hsecond : produced chain_workflow "#main/second/out").
  { apply (produced_output chain_workflow
             (leaf_step "#main/second" "#main/first/out")).
    - simpl. left.
    - simpl. left.
    - intros inp s Hinp Hs. simpl in Hinp.
      apply list_elem_of_singleton in Hinp as ->.
      simpl in Hs. by apply list_elem_of_singleton in Hs as ->. }
  split.
  - by apply (bool_decide_unpack _).
  - intros step inp Hstep Hinp. simpl in Hstep.
    apply elem_of_cons in Hstep as [->|Hstep];
      [|apply list_elem_of_singleton in Hstep as ->];
      simpl in Hinp; by apply list_elem_of_singleton in Hinp as ->.
  - intros step inp s Hstep Hinp Hs. simpl in Hstep.
    apply elem_of_cons in Hstep as [->|Hstep];
      [|apply list_elem_of_singleton in Hstep as ->];
      simpl in Hinp; apply list_elem_of_singleton in Hinp as ->;
      simpl in Hs; by apply list_elem_of_singleton in Hs as ->.
  - intros out s Hout Hs. simpl in Hout.
    apply list_elem_of_singleton in Hout as ->. simpl in Hs.
    by injection Hs as <-.
Defined.


(** C1 as stated fails: on a workflow whose only step has a source that
    nothing produces, the first pass inserts nothing and leaves
    [alloutputs_fufilled] false, and the run neither returns nor raises
    within any number of passes. *)
Lemma unsatisfiable_workflow_never_ends :
  pass 0 stalled_workflow sample_kwargs (initial_sched stalled_workflow)
    (workflow_graph stalled_workflow)
  = Ok (false, initial_sched stalled_workflow,
        workflow_graph stalled_workflow)
  /\ ~ (exists fuel r,
          CWLWorkflow_run fuel 0 stalled_workflow (PlainDict [])
            sample_kwargs (workflow_graph stalled_workflow) = Some r).
Proof.
  assert (Hpass :
    pass 0 stalled_workflow sample_kwargs (initial_sched stalled_workflow)
      (workflow_graph stalled_workflow)
    = Ok (false, initial_sched stalled_workflow,
          workflow_graph stalled_workflow)) by (vm_compute; reflexivity).
  split; [exact Hpass|].
  intros (fuel & r & Hrun). unfold CWLWorkflow_run in Hrun. simpl in Hrun.
  change {| promises := initial_promises 0 stalled_workflow []; jobs := ∅ |}
    with (initial_sched stalled_workflow) in Hrun.
  by rewrite (schedule_stuck _ _ _ _ _ Hpass) in Hrun.
Qed.

(** A workflow output whose [outputSource] nothing produces does not
    keep the loop running: the loop ends once the steps are scheduled,
    and building the output object raises [KeyError]. *)
Lemma dangling_output_raises_KeyError :
  CWLWorkflow_run 1 0 dangling_workflow (PlainDict []) sample_kwargs
    (workflow_graph dangling_workflow)
  = Some (Raise KeyError).
Proof. vm_compute. reflexivity. Qed.

Lemma stalled_pass_repeats_forever_witness :
  pass 0 stalled_workflow sample_kwargs (initial_sched stalled_workflow)
    (workflow_graph stalled_workflow)
  = Ok (false, initial_sched stalled_workflow,
        workflow_graph stalled_workflow)
  /\ forall fuel,
       schedule fuel 0 stalled_workflow sample_kwargs
         (initial_sched stalled_workflow) (workflow_graph stalled_workflow)
       = None.
Proof.
  assert (Hpass :
    pass 0 stalled_workflow sample_kwargs (initial_sched stalled_workflow)
      (workflow_graph stalled_workflow)
    = Ok (false, initial_sched stalled_workflow,
          workflow_graph stalled_workflow)) by (vm_compute; reflexivity).
  split; [exact Hpass|].
  exact (proj2 (stalled_pass_repeats_forever 0 stalled_workflow sample_kwargs
                  (initial_sched stalled_workflow)
                  (workflow_graph stalled_workflow)
                  (initial_sched stalled_workflow)
                  (workflow_graph stalled_workflow) Hpass eq_refl)).
Defined.

#[local] Existing Instance sample_host.

(** X1 on a dict with an expression: the expression of [y] gets the
    first value of [y] and the first values of both keys. *)
Lemma resolve_indirect_two_phase_witness :
  NoDup (expression_items.*1)
  /\ @resolve_indirect echo_cwltool (IndirectDict expression_items)
     = Ok [("x", VInt 7);
           ("y", VList [VInt 8; VDict [("x", VInt 7); ("y", VInt 8)]])].
Proof.
  assert (Hnd : NoDup (expression_items.*1))
    by (by apply (bool_decide_unpack _)).
  split; [exact Hnd|].
  refine (@resolve_indirect_two_phase echo_cwltool expression_items
            (fun k => if String.eqb k "x" then VInt 7 else VInt 8)
            (fun k => if String.eqb k "x" then VInt 7
                      else VList [VInt 8;
                                  VDict [("x", VInt 7); ("y", VInt 8)]])
            Hnd _ _ _).
  - intros k e Hin. unfold expression_items in Hin.
    repeat (apply elem_of_cons in Hin as [[= -> ->]|Hin]);
      [reflexivity | reflexivity | by apply elem_of_nil in Hin].
  - intros k expr i req Hin. unfold expression_items in Hin.
    apply elem_of_cons in Hin as [[=]|Hin].
    apply elem_of_cons in Hin as [[= -> -> -> ->]|Hin];
      [reflexivity | by apply elem_of_nil in Hin].
  - intros k e Hin. unfold expression_items in Hin.
    repeat (apply elem_of_cons in Hin as [[= -> ->]|Hin]);
      [reflexivity | discriminate | by apply elem_of_nil in Hin].
Defined.

Lemma merge_missing_key_raises_witness :
  Forall (fun src => exists d, src.2 = VDict d) broken_sources
  /\ Exists (fun src => exists d, src.2 = VDict d
                                  /\ dict_lookup d src.1 = None)
       broken_sources
  /\ resolve_indirect (IndirectDict [("merged",
                                      MergeInputsNested broken_sources)])
     = Raise KeyError
  /\ resolve_indirect (IndirectDict [("merged",
                                      MergeInputsFlattened broken_sources)])
     = Raise KeyError.
Proof.
  assert (Hall : Forall (fun src : string * value => exists d, src.2 = VDict d)
                   broken_sources)
    by (repeat constructor; eexists; reflexivity).
  assert (Hex : Exists (fun src : string * value =>
                          exists d, src.2 = VDict d
                                    /\ dict_lookup d src.1 = None)
                  broken_sources)
    by (right; left; eexists; split; reflexivity).
  split; [exact Hall|]. split; [exact Hex|].
  exact (merge_missing_key_raises broken_sources "merged" Hall Hex).
Defined.

Lemma resolve_indirect_settled_witness :
  ResolveIndirect_run (IndirectDict expression_items)
  = Ok [("x", VInt 7); ("y", VInt 8)]
  /\ NoDup ["x"; "y"]
  /\ resolve_indirect (PlainDict [("x", VInt 7); ("y", VInt 8)])
     = Ok [("x", VInt 7); ("y", VInt 8)]
  /\ ResolveIndirect_run (PlainDict [("x", VInt 7); ("y", VInt 8)])
     = Ok [("x", VInt 7); ("y", VInt 8)].
Proof.
  assert (Hrun : ResolveIndirect_run (IndirectDict expression_items)
                 = Ok [("x", VInt 7); ("y", VInt 8)]) by reflexivity.
  split; [exact Hrun|].
  exact (resolve_indirect_settled (IndirectDict expression_items) _ Hrun).
Defined.

Lemma references_no_files : references no_files.
Proof. split; apply map_Forall_empty. Qed.

Lemma file_maps_hold_references_witness :
  references no_files
  /\ (exists u m' w',
        toilGetFile no_files "toilfs:abc" [] = Ok (u, m', w')
        /\ references m')
  /\ (exists ref m' w',
        writeFile sample_write no_files sample_uri [] = Ok (ref, m', w')
        /\ references m' /\ is_reference ref).
Proof.
  split; [exact references_no_files|].
  split.
  - destruct (@file_maps_hold_references sample_host sample_write no_files "toilfs:abc" []
                references_no_files) as [Hget _].
    destruct (@toilGetFile sample_host no_files "toilfs:abc" []) as [[[u m'] w']|] eqn:E.
    + exists u, m', w'. split; [reflexivity | exact Hget].
    + vm_compute in E. discriminate E.
  - destruct (@file_maps_hold_references sample_host sample_write no_files sample_uri []
                references_no_files) as [_ Hwrite].
    destruct (@writeFile sample_host sample_write no_files sample_uri [])
      as [[[ref m'] w']|] eqn:E.
    + exists ref, m', w'. split; [reflexivity | exact Hwrite].
    + vm_compute in E. discriminate E.
Defined.

Lemma sample_written :
  writeFile sample_write no_files sample_uri []
  = Ok (sample_ref, one_file, [sample_uri]).
Proof. reflexivity. Qed.

Lemma writeFile_writes_once_witness :
  writeFile sample_write no_files sample_uri []
  = Ok (sample_ref, one_file, [sample_uri])
  /\ writeFile sample_write one_file sample_uri [sample_uri]
     = Ok (sample_ref, one_file, [sample_uri]).
Proof.
  split; [exact sample_written|].
  exact (@writeFile_writes_once sample_host sample_write sample_write no_files one_file
           sample_uri sample_ref [] [sample_uri] [sample_uri]
           sample_written).
Defined.

Lemma toilGetFile_writeFile_round_trip_witness :
  references no_files
  /\ ~ is_reference "/tmp/abc"
  /\ exists m',
       toilGetFile no_files "toilfs:abc" [] = Ok ("file:///tmp/abc", m', [])
       /\ references m'
       /\ writeFile sample_write m' "/tmp/abc" [sample_uri]
          = Ok ("toilfs:abc", m', [sample_uri]).
Proof.
  assert (Hlocal : ~ is_reference "/tmp/abc")
    by (intros [Hp|Hp]; discriminate Hp).
  split; [exact references_no_files|]. split; [exact Hlocal|].
  exact (@toilGetFile_writeFile_round_trip sample_host sample_write no_files
           "toilfs:abc" "/tmp/abc" [] [] [sample_uri]
           references_no_files eq_refl eq_refl Hlocal).
Defined.

Lemma sample_uploaded :
  uploadFile sample_write no_files sample_file false []
  = Ok ({| location := Some sample_ref; path := None |}, one_file,
        [sample_uri]).
Proof. reflexivity. Qed.

Lemma uploadFile_settles_witness :
  references no_files
  /\ uploadFile sample_write no_files sample_file false []
     = Ok ({| location := Some sample_ref; path := None |}, one_file,
           [sample_uri])
  /\ (exists ref, Some sample_ref = Some ref /\ is_reference ref)
  /\ references one_file
  /\ uploadFile sample_write one_file
       {| location := Some sample_ref; path := None |} true [sample_uri]
     = Ok ({| location := Some sample_ref; path := None |}, one_file,
           [sample_uri]).
Proof.
  split; [exact references_no_files|]. split; [exact sample_uploaded|].
  exact (@uploadFile_settles sample_host sample_write sample_write no_files one_file
           sample_file {| location := Some sample_ref; path := None |}
           [] [sample_uri] [sample_uri] true
           references_no_files sample_uploaded).
Defined.

(** With the sample evaluator no expression fails. *)
Lemma sample_postScatterEval_total (step : Step)
    (jo : list (string * value)) :
  exists jo', postScatterEval step jo = Ok jo'.
Proof.
  unfold postScatterEval. cbv zeta.
  generalize (foldl (fun d (kv : string * value) =>
                       dict_set d (shortname kv.1) kv.2) [] jo).
  intros shortio. generalize (@nil (string * value)).
  induction jo as [|kv jo IH]; intros acc; [by exists acc|].
  rewrite foldM_cons.
  destruct (dict_lookup (valueFrom_of step) kv.1); simpl; apply IH.
Qed.

Lemma crossproduct_scatter_shape_witness :
  (exists outs h',
     CWLScatter_run 0 (three_key_step (Some "nested_crossproduct"))
       (PlainDict job_2_3_2) sample_kwargs
       (scatter_graph (three_key_step (Some "nested_crossproduct")) job_2_3_2)
     = Ok (outs, h')
     /\ shaped [2; 3; 2] outs
     /\ length (children_of 0 h') = 12)
  /\ (exists fs h',
        CWLScatter_run 0 (three_key_step (Some "flat_crossproduct"))
          (PlainDict job_2_3_2) sample_kwargs
          (scatter_graph (three_key_step (Some "flat_crossproduct"))
             job_2_3_2)
        = Ok (OList (ORv <$> fs), h')
        /\ length fs = 12
        /\ length (children_of 0 h') = 12).
Proof.
  assert (Hlen : 1 < length ["#main/step/a"; "#main/step/b"; "#main/step/c"])
    by (simpl; lia).
  assert (Hnd : NoDup (shortname <$> ["#main/step/a"; "#main/step/b";
                                      "#main/step/c"]))
    by (by apply (bool_decide_unpack _)).
  assert (Hls : Forall2 (fun k l => dict_lookup job_2_3_2 (shortname k)
                                    = Some (VList l))
                  ["#main/step/a"; "#main/step/b"; "#main/step/c"]
                  [[VInt 1; VInt 2]; [VInt 10; VInt 20; VInt 30];
                   [VInt 100; VInt 200]])
    by (repeat constructor).
  split.
  - exact (proj1 (crossproduct_scatter_shape 0
                    (three_key_step (Some "nested_crossproduct"))
                    (PlainDict job_2_3_2) sample_kwargs
                    (scatter_graph
                       (three_key_step (Some "nested_crossproduct"))
                       job_2_3_2)
                    _ _ job_2_3_2 eq_refl Hlen Hnd eq_refl Hls
                    (sample_postScatterEval_total _)
                    (scatter_graph_in_graph _ _)) eq_refl).
  - exact (proj2 (crossproduct_scatter_shape 0
                    (three_key_step (Some "flat_crossproduct"))
                    (PlainDict job_2_3_2) sample_kwargs
                    (scatter_graph
                       (three_key_step (Some "flat_crossproduct"))
                       job_2_3_2)
                    _ _ job_2_3_2 eq_refl Hlen Hnd eq_refl Hls
                    (sample_postScatterEval_total _)
                    (scatter_graph_in_graph _ _)) eq_refl).
Defined.

Lemma scatter_over_empty_list_witness :
  dict_lookup job_empty "b" = None
  /\ CWLScatter_run 0 (scatter_step two_keys (Some "nested_crossproduct"))
       (PlainDict job_empty) sample_kwargs
       (scatter_graph (scatter_step two_keys (Some "nested_crossproduct"))
          job_empty)
     = Ok (OList [],
           scatter_graph (scatter_step two_keys (Some "nested_crossproduct"))
             job_empty).
Proof.
  split; [reflexivity|].
  refine (scatter_over_empty_list 0
            (scatter_step two_keys (Some "nested_crossproduct"))
            (PlainDict job_empty) sample_kwargs _
            "#main/step/a" ["#main/step/b"] job_empty eq_refl _ eq_refl
            eq_refl).
  right. exists "nested_crossproduct". split; [reflexivity|].
  right. left.
Defined.

Lemma scatter_first_key_errors_witness :
  CWLScatter_run 0 (scatter_step two_keys (Some "dotproduct"))
    (PlainDict job_missing) sample_kwargs
    (scatter_graph (scatter_step two_keys (Some "dotproduct")) job_missing)
  = Raise KeyError
  /\ CWLScatter_run 0 (scatter_step two_keys (Some "flat_crossproduct"))
       (PlainDict job_scalar) sample_kwargs
       (scatter_graph (scatter_step two_keys (Some "flat_crossproduct"))
          job_scalar)
     = Raise TypeError.
Proof.
  split.
  - refine (scatter_first_key_errors 0
              (scatter_step two_keys (Some "dotproduct"))
              (PlainDict job_missing) sample_kwargs _
              "#main/step/a" ["#main/step/b"] job_missing eq_refl _ eq_refl).
    right. exists "dotproduct". split; [reflexivity | left].
  - refine (scatter_first_key_errors 0
              (scatter_step two_keys (Some "flat_crossproduct"))
              (PlainDict job_scalar) sample_kwargs _
              "#main/step/a" ["#main/step/b"] job_scalar eq_refl _ eq_refl).
    right. exists "flat_crossproduct". split; [reflexivity|].
    right. right. left.
Defined.

Lemma postScatterEval_values_witness :
  NoDup (job_1_10.*1)
  /\ @postScatterEval echo_cwltool expression_step job_1_10
     = Ok [("a", VList [VInt 1; VDict [("a", VInt 1); ("b", VInt 10)]]);
           ("b", VInt 10)].
Proof.
  assert (Hnd : NoDup (job_1_10.*1)) by (by apply (bool_decide_unpack _)).
  split; [exact Hnd|].
  refine (@postScatterEval_values echo_cwltool expression_step job_1_10
            (fun k => if String.eqb k "a"
                      then VList [VInt 1;
                                  VDict [("a", VInt 1); ("b", VInt 10)]]
                      else VInt 10) Hnd _).
  intros k v Hin. unfold job_1_10 in Hin.
  repeat (apply elem_of_cons in Hin as [[= -> ->]|Hin]);
    [reflexivity | reflexivity | by apply elem_of_nil in Hin].
Defined.

(** The promises of the sample state are the [SelfJob] of job 0. *)
Lemma sample_sched_promises cwlwf s p :
  promises (sample_sched cwlwf) !! s = Some p -> p = SelfJob 0 sample_job.
Proof. apply initial_promises_lookup. Qed.

Lemma scheduled_step_follows_its_sources_witness :
  exists st1 h1,
    schedule_step 0 chain_workflow sample_kwargs
      (leaf_step "#main/first" "#main/in") (sample_sched chain_workflow)
      (workflow_graph chain_workflow) = Ok (st1, h1)
    /\ hasChild 0 1 h1 = true
    /\ extends (workflow_graph chain_workflow) h1.
Proof.
  destruct (schedule_step 0 chain_workflow sample_kwargs
              (leaf_step "#main/first" "#main/in")
              (sample_sched chain_workflow) (workflow_graph chain_workflow))
    as [[st1 h1]|] eqn:E; [|vm_compute in E; discriminate E].
  exists st1, h1. split; [reflexivity|].
  assert (Hself : 0 < length (workflow_graph chain_workflow))
    by (simpl; lia).
  assert (Hvalid : forall s p,
            promises (sample_sched chain_workflow) !! s = Some p ->
            p_job p < length (workflow_graph chain_workflow))
    by (intros s p ->%sample_sched_promises; simpl; lia).
  destruct (scheduled_step_follows_its_sources 0 chain_workflow sample_kwargs
              _ _ _ st1 h1 E Hself Hvalid)
    as (_ & _ & (p & Hp & Hc) & Hext).
  simpl in Hp. assert (p = 0) as -> by lia.
  split; [exact Hc | exact Hext].
Defined.

Lemma scheduled_step_inputs_witness :
  exists st1 h1,
    schedule_step 0 chain_workflow sample_kwargs default_step
      (sample_sched chain_workflow) (workflow_graph chain_workflow)
    = Ok (st1, h1)
    /\ exists jobobj,
         input_at h1 1 = Some jobobj
         /\ resolve_indirect (jobobj_map (fulfil sample_rets) jobobj)
            = Ok [("x", VInt 5); ("n", VInt 3)].
Proof.
  destruct (schedule_step 0 chain_workflow sample_kwargs default_step
              (sample_sched chain_workflow) (workflow_graph chain_workflow))
    as [[st1 h1]|] eqn:E; [|vm_compute in E; discriminate E].
  exists st1, h1. split; [reflexivity|].
  assert (Hself : 0 < length (workflow_graph chain_workflow))
    by (simpl; lia).
  assert (Hvalid : forall s p,
            promises (sample_sched chain_workflow) !! s = Some p ->
            p_job p < length (workflow_graph chain_workflow))
    by (intros s p ->%sample_sched_promises; simpl; lia).
  assert (Hplain : forall inp,
            inp ∈ step_inputs default_step -> plain_port inp = true).
  { intros inp Hin. simpl in Hin.
    repeat (apply elem_of_cons in Hin as [->|Hin]);
      [reflexivity | reflexivity | by apply elem_of_nil in Hin]. }
  assert (Hnd : NoDup (shortname ∘ inp_id <$> step_inputs default_step))
    by (by apply (bool_decide_unpack _)).
  assert (Hdict : forall s p,
            promises (sample_sched chain_workflow) !! s = Some p ->
            exists d, fulfil sample_rets (p_rv p) = VDict d)
    by (intros s p ->%sample_sched_promises; by eexists).
  destruct (scheduled_step_inputs 0 chain_workflow sample_kwargs default_step
              _ _ st1 h1 sample_rets E Hself Hvalid Hplain Hnd Hdict)
    as (jobobj & Hin & Hres).
  exists jobobj. split; [exact Hin|]. rewrite Hres. reflexivity.
Defined.


Lemma sample_sched_handles cwlwf :
  handles_in_graph 0 sample_job (sample_sched cwlwf) (workflow_graph cwlwf).
Proof. apply initial_handles. simpl. lia. Qed.

Lemma schedule_only_extends_witness :
  exists st' h',
    schedule 3 0 chain_workflow sample_kwargs (sample_sched chain_workflow)
      (workflow_graph chain_workflow) = Some (Ok (st', h'))
    /\ handles_in_graph 0 sample_job st' h'
    /\ extends (workflow_graph chain_workflow) h'
    /\ jobs (sample_sched chain_workflow) ⊆ jobs st'.
Proof.
  destruct (schedule 3 0 chain_workflow sample_kwargs
              (sample_sched chain_workflow) (workflow_graph chain_workflow))
    as [[[st' h']|]|] eqn:E;
    [|vm_compute in E; discriminate E..].
  exists st', h'. split; [reflexivity|].
  exact (schedule_only_extends 3 0 sample_job chain_workflow sample_kwargs
           _ _ st' h' E (sample_sched_handles chain_workflow)).
Defined.

Lemma chain_outputs_produced out :
  out ∈ tool_outputs chain_workflow ->
  exists s, out_outputSource out = Some s /\ produced chain_workflow s.
Proof.
  intros Hout. pose proof (wf_outputs _ chain_workflow_well_formed out) as Hp.
  simpl in Hout. apply list_elem_of_singleton in Hout as ->.
  eexists. split; [reflexivity|]. by apply Hp; [left|].
Qed.

Lemma workflow_run_output_object_witness :
  well_formed chain_workflow
  /\ exists outobj h',
       CWLWorkflow_run 3 0 chain_workflow (PlainDict sample_job)
         sample_kwargs (workflow_graph chain_workflow)
       = Some (Ok (IndirectDict outobj, h'))
       /\ outobj.*1 = ["out"]
       /\ extends (workflow_graph chain_workflow) h'.
Proof.
  split; [exact chain_workflow_well_formed|].
  assert (Hself : 0 < length (workflow_graph chain_workflow))
    by (simpl; lia).
  assert (Hnd : NoDup (shortname ∘ out_id <$> tool_outputs chain_workflow))
    by (by apply (bool_decide_unpack _)).
  destruct (workflow_run_output_object 0 chain_workflow
              (PlainDict sample_job) sample_kwargs
              (workflow_graph chain_workflow) sample_job
              chain_workflow_well_formed eq_refl Hself
              chain_outputs_produced Hnd)
    as (outobj & h' & Hrun & Hkeys & _ & Hext).
  exists outobj, h'. split; [|split; [exact Hkeys | exact Hext]].
  apply Hrun. simpl. lia.
Defined.


Lemma scatter_run_grows_under_itself_witness :
  exists o h',
    CWLScatter_run 0 (scatter_step two_keys (Some "flat_crossproduct"))
      (PlainDict job_2_3) sample_kwargs
      (scatter_graph (scatter_step two_keys (Some "flat_crossproduct"))
         job_2_3)
    = Ok (o, h')
    /\ grows_under 0
         (scatter_graph (scatter_step two_keys (Some "flat_crossproduct"))
            job_2_3) h'
    /\ made_between
         (scatter_graph (scatter_step two_keys (Some "flat_crossproduct"))
            job_2_3) h' o.
Proof.
  destruct (CWLScatter_run 0 (scatter_step two_keys (Some "flat_crossproduct"))
              (PlainDict job_2_3) sample_kwargs
              (scatter_graph
                 (scatter_step two_keys (Some "flat_crossproduct")) job_2_3))
    as [[o h']|] eqn:E; [|vm_compute in E; discriminate E].
  exists o, h'. split; [reflexivity|].
  exact (scatter_run_grows_under_itself 0 _ _ _ _ o h' E).
Defined.

Lemma scheduled_step_publishes_follow_on_witness :
  exists st1 h1 node,
    schedule_step 0 scatter_workflow sample_kwargs
      (scatter_step two_keys (Some "dotproduct"))
      (sample_sched scatter_workflow) (workflow_graph scatter_workflow)
    = Ok (st1, h1)
    /\ jobs st1 !! "#main/step" = Some 2
    /\ promises st1 !! "#main/step/out" = Some (job_producer 2)
    /\ h1 !! 2 = Some node
    /\ body node
       = CWLGather (scatter_step two_keys (Some "dotproduct")) (Rv 1).
Proof.
  destruct (schedule_step 0 scatter_workflow sample_kwargs
              (scatter_step two_keys (Some "dotproduct"))
              (sample_sched scatter_workflow)
              (workflow_graph scatter_workflow))
    as [[st1 h1]|] eqn:E; [|vm_compute in E; discriminate E].
  destruct (scheduled_step_publishes_follow_on 0 scatter_workflow
              sample_kwargs _ _ _ st1 h1 E)
    as (fo & node & Hjobs & Hout & _ & Hnode & Hfo & Hbody).
  simpl in Hfo. subst fo.
  exists st1, h1, node. split; [reflexivity|].
  split; [by rewrite Hjobs, lookup_insert_eq|].
  split; [apply Hout; simpl; left|].
  split; [exact Hnode | exact Hbody].
Defined.

Lemma dynamic_step_resources_witness :
  exists st1 h1 jobobj real,
    schedule_step 0 chain_workflow sample_kwargs sized_step
      (sample_sched chain_workflow) (workflow_graph chain_workflow)
    = Ok (st1, h1)
    /\ input_at h1 1 = Some jobobj
    /\ CWLJobWrapper_run 1 sized_tool (jobobj_map (fulfil sample_rets) jobobj)
         (with_step_inputs (step_inputs sized_step) sample_kwargs) h1
       = Ok (Rv (length h1), addChild 1 (length h1) (h1 ++ [real]))
    /\ cores real = Some (inject_Z 5).
Proof.
  destruct (schedule_step 0 chain_workflow sample_kwargs sized_step
              (sample_sched chain_workflow) (workflow_graph chain_workflow))
    as [[st1 h1]|] eqn:E; [|vm_compute in E; discriminate E].
  assert (Hleaf : tool_class (embedded_tool sized_step) <> "Workflow")
    by discriminate.
  assert (Hplain : forall inp,
            inp ∈ step_inputs sized_step -> plain_port inp = true)
    by (intros inp ->%list_elem_of_singleton; reflexivity).
  assert (Hnd : NoDup (shortname ∘ inp_id <$> step_inputs sized_step))
    by (by apply (bool_decide_unpack _)).
  assert (Hdict : forall s p,
            promises (sample_sched chain_workflow) !! s = Some p ->
            exists d, fulfil sample_rets (p_rv p) = VDict d)
    by (intros s p ->%sample_sched_promises; by eexists).
  destruct (dynamic_step_resources 0 chain_workflow sample_kwargs sized_step
              _ _ st1 h1 sample_rets E eq_refl Hleaf eq_refl eq_refl
              Hplain Hnd Hdict)
    as (jobobj & node & Hnode & Hbody & Hwrap).
  destruct (Hwrap 1 h1) as (real & Hrun & Hcores & _).
  exists st1, h1, jobobj, real. split; [reflexivity|].
  split; [|split; [exact Hrun | exact Hcores]].
  unfold input_at. simpl in Hnode. rewrite Hnode. simpl. by rewrite Hbody.
Defined.
